(** * pyBPL: a shallow embedding of the rendering pipeline, the stroke
      tokens, the spatial model, the scale CPD and the random walker.

    Float tensors are read over the real numbers: a tensor entry is an [R],
    a shape is a list of naturals, and every Python exception the modelled
    code can raise is a value of [exn].  Arithmetic is therefore exact:
    rounding, overflow and underflow of [torch.float] and [np.float32] are
    outside this development, and so are devices and [clone].  Of
    autograd's bookkeeping the development keeps what decides whether the
    code returns: [add_stroke] below accounts for the in-place [fill_] on
    the leaf it creates with [requires_grad=True], and for the quotient
    0/0 that is not a number; [broaden_and_blur] is read on an image that
    in-place operations are allowed on. *)

From Stdlib Require Import String.
From Stdlib Require Import Reals Lra Lia ZArith List Bool.
Import ListNotations.
Set Warnings "-register-all".
Open Scope R_scope.

(** ** Python results *)

Inductive exn : Type :=
| AssertionError
| IndexError
| RuntimeError
| AttributeError
| UnboundLocalError
| Exception (msg : string).

Inductive result (A : Type) : Type :=
| Ok (a : A)
| Raise (e : exn).
Arguments Ok {A} a.
Arguments Raise {A} e.

Definition bind {A B} (m : result A) (k : A -> result B) : result B :=
  match m with
  | Ok a => k a
  | Raise e => Raise e
  end.

Definition fmap {A B} (f : A -> B) (m : result A) : result B :=
  bind m (fun a => Ok (f a)).

Definition assert (b : bool) : result unit :=
  if b then Ok tt else Raise AssertionError.

Declare Scope py_scope.
Delimit Scope py_scope with py.
Notation "x <- m ;; k" := (bind m (fun x => k))
  (at level 61, m at next level, right associativity) : py_scope.
Notation "m ;;; k" := (bind m (fun _ => k))
  (at level 61, right associativity) : py_scope.
Open Scope py_scope.

(** Comparisons of real tensor entries, as booleans. *)
Definition Rltb (x y : R) : bool := if Rlt_dec x y then true else false.
Definition Rgeb (x y : R) : bool := if Rge_dec x y then true else false.
Definition Rgtb (x y : R) : bool := if Rgt_dec x y then true else false.
Definition Reqb (x y : R) : bool := if Req_dec_T x y then true else false.

(** [torch.floor] and [torch.ceil] keep the float type. *)
Definition floor (x : R) : R := IZR (Zfloor x).
Definition ceil (x : R) : R := IZR (Zceil x).

(** Boolean-mask indexing, [t[mask]]. *)
Fixpoint mask_select {A} (t : list A) (mask : list bool) : list A :=
  match t, mask with
  | a :: t', b :: mask' =>
      if b then a :: mask_select t' mask' else mask_select t' mask'
  | _, _ => []
  end.

Definition Rsum (l : list R) : R := fold_right Rplus 0 l.

(** ** Tensors: a shape and a row-major storage *)

Record tensor : Type := mkTensor { shape : list nat; data : list R }.

Definition shape_eqb (a b : list nat) : bool :=
  if list_eq_dec Nat.eq_dec a b then true else false.

Definition numel (sh : list nat) : nat := fold_right Nat.mul 1%nat sh.

(** The storage cut into [n] rows of [d] entries (the trailing axis). *)
Fixpoint rows (n d : nat) (l : list R) : list (list R) :=
  match n with
  | O => []
  | S n' => firstn d l :: rows n' d (skipn d l)
  end.

Definition rows_of (t : tensor) : list (list R) :=
  rows (numel (removelast (shape t))) (last (shape t) 0%nat) (data t).

(** [torch.flip(t, dims=[-1])]: every row is reversed; on a
    0-dimensional tensor, which torch lets [dims=[-1]] address, there is
    one entry and nothing to reverse. *)
Definition flip_last (t : tensor) : result tensor :=
  match shape t with
  | [] => Ok t
  | _ => Ok (mkTensor (shape t) (concat (map (@rev R) (rows_of t))))
  end.

Fixpoint zip_mul (r v : list R) : list R :=
  match r, v with
  | x :: r', w :: v' => x * w :: zip_mul r' v'
  | _, _ => []
  end.

(** [t * v] for a one-dimensional [v], broadcast over the leading axes of
    [t]: the trailing sizes must agree unless one of them is 1. *)
Definition mul_last (t : tensor) (v : list R) : result tensor :=
  match shape t with
  | [] =>
      Ok (mkTensor [length v] (flat_map (fun x => map (Rmult x) v) (data t)))
  | _ =>
      let d := last (shape t) 0%nat in
      let lead := removelast (shape t) in
      if Nat.eqb d (length v) then
        Ok (mkTensor (shape t)
              (concat (map (fun r => zip_mul r v) (rows_of t))))
      else if Nat.eqb d 1 then
        Ok (mkTensor (lead ++ [length v])
              (flat_map (fun x => map (Rmult x) v) (data t)))
      else if Nat.eqb (length v) 1 then
        Ok (mkTensor (shape t) (map (fun x => x * hd 0 v) (data t)))
      else Raise RuntimeError
  end.

(** Lists and pairs of reals, compared entry by entry. *)
Ltac entrywise :=
  repeat match goal with
         | |- _ :: _ = _ :: _ => f_equal
         | |- (_, _) = (_, _) => f_equal
         end.

Module Rendering.

(** *** rendering.py *)

Abbreviation point := (R * R)%type.

(** A tensor of shape [(..., 2)]: leading axes [lead], one point per
    position of the leading axes. *)
Definition of_points (lead : list nat) (pts : list point) : tensor :=
  mkTensor (lead ++ [2%nat]) (flat_map (fun p => [fst p; snd p]) pts).

(** rendering.py, [space_motor_to_img]. *)
Definition space_flip : list R := [-1; 1].

Definition space_motor_to_img (pt : tensor) : result tensor :=
  flipped <- flip_last pt ;;
  mul_last flipped space_flip.

(** The same function on a [(k,2)] tensor held as the list of its rows. *)
Definition space_motor_to_img_pt (p : point) : point :=
  (snd p * -1, fst p * 1).

Definition space_motor_to_img_pts (stk : list point) : list point :=
  map space_motor_to_img_pt stk.

(** rendering.py, [check_bounds]. *)
Definition check_bounds (myt : list point) (imsize : nat * nat) : list bool :=
  let xt := map fst myt in
  let yt := map snd myt in
  let x_out :=
    map (fun x => Rltb (floor x) 0 || Rgeb (ceil x) (INR (fst imsize))) xt in
  let y_out :=
    map (fun y => Rltb (floor y) 0 || Rgeb (ceil y) (INR (snd imsize))) yt in
  map (fun ab => fst ab || snd ab) (combine x_out y_out).

(** What [check_bounds] computes for one row of [myt]. *)
Definition point_out (imsize : nat * nat) (p : point) : bool :=
  (Rltb (floor (fst p)) 0 || Rgeb (ceil (fst p)) (INR (fst imsize)))
  || (Rltb (floor (snd p)) 0 || Rgeb (ceil (snd p)) (INR (snd imsize))).

(** A point all of whose coordinates are inside the image. *)
Definition in_image (sz : nat * nat) (p : point) : Prop :=
  point_out sz p = false.

(** [x.long()]: truncation toward zero. *)
Definition long (x : R) : Z := if Rltb x 0 then Zceil x else Zfloor x.

(** Modelled from the spec: [sub2ind] of util.general, which is not among
    the sources; the position of pixel [(x, y)] in the flattened [(H, W)]
    image that the scatter-add of section 4.4 writes to. *)
Definition sub2ind (imsize : nat * nat) (rows cols : list Z) : list Z :=
  map (fun rc => (fst rc * Z.of_nat (snd imsize) + snd rc)%Z)
      (combine rows cols).

(** [D[n] += v] on a flat storage. *)
Fixpoint add_at (D : list R) (n : nat) (v : R) : list R :=
  match D, n with
  | [], _ => []
  | d :: D', O => d + v :: D'
  | d :: D', S n' => d :: add_at D' n' v
  end.

(** [D.scatter_add(0, lind, src)] on a flat storage. *)
Fixpoint scatter_add (D : list R) (lind : list Z) (src : list R)
  : result (list R) :=
  match lind, src with
  | [], _ => Ok D
  | _ :: _, [] => Raise RuntimeError
  | i :: lind', v :: src' =>
      if ((0 <=? i) && (i <? Z.of_nat (length D)))%Z
      then scatter_add (add_at D (Z.to_nat i) v) lind' src'
      else Raise RuntimeError
  end.

(** The [(H, W)] of an image tensor. *)
Definition imsize_of (sh : list nat) : result (nat * nat) :=
  match sh with
  | [H; W] => Ok (H, W)
  | _ => Raise IndexError
  end.

(** rendering.py, [seqadd]. *)
Definition seqadd (D : tensor) (lind_x lind_y inkval : list R)
  : result tensor :=
  assert (Nat.eqb (length lind_x) (length lind_y)
          && Nat.eqb (length lind_y) (length inkval)) ;;;
  imsize <- imsize_of (shape D) ;;
  let lind_stack := combine lind_x lind_y in
  let out := check_bounds lind_stack imsize in
  let lind_x := map long (mask_select lind_x (map negb out)) in
  let lind_y := map long (mask_select lind_y (map negb out)) in
  let inkval := mask_select inkval (map negb out) in
  if Nat.eqb (length lind_x) 0 then Ok D
  else
    let lind := sub2ind imsize lind_x lind_y in
    D' <- scatter_add (data D) lind inkval ;;
    Ok (mkTensor (shape D) D').

Record Parameters : Type := mkParameters {
  ink_pp : R;
  ink_max_dist : R;
  imsize : nat * nat;
  ink_a : R;
  ink_b : R;
  ink_ncon : nat;
  broaden_mode : string;
  fsize : nat
}.

Definition psub (p q : point) : point := (fst p - fst q, snd p - snd q).

(** [torch.norm(., dim=-1)] of one row. *)
Definition norm (p : point) : R := sqrt (fst p * fst p + snd p * snd p).

Fixpoint zip_with {A B C} (f : A -> B -> C) (l : list A) (m : list B)
  : list C :=
  match l, m with
  | a :: l', b :: m' => f a b :: zip_with f l' m'
  | _, _ => []
  end.

(** The ink of each point of the in-bounds trajectory [stk], before the
    minimum-ink adjustment (rendering.py, lines 139-145).  The quotient of
    line 145 is a number when [ink_max_dist] is not 0; what the code does
    at 0 is in [add_stroke]. *)
Definition ink_of_trajectory (stk : list point) (ps : Parameters) : list R :=
  if Nat.eqb (length stk) 1 then [ink_pp ps]
  else
    let dist := map norm (zip_with psub (tl stk) (removelast stk)) in
    let dist := map (fun d => Rmin d (ink_max_dist ps)) dist in
    let dist := firstn 1 dist ++ dist in
    map (fun d => ink_pp ps * d / ink_max_dist ps) dist.

(** The minimum-ink adjustment (rendering.py, lines 149-154): [fill_] in
    the first branch; in the second, [mul_] in place and then [torch.mul]
    on its result.  These are the values written when torch allows the
    in-place operation; when it does not is in [add_stroke]. *)
Definition adjust_ink (myink : list R) (ps : Parameters) : list R :=
  let sumink := Rsum myink in
  if Rltb sumink (222 / 100000000) then
    map (fun _ => ink_pp ps / INR (length myink)) myink
  else if Rltb sumink (ink_pp ps) then
    let myink := map (fun m => m * (ink_pp ps / sumink)) myink in
    map (fun m => m * (ink_pp ps / sumink)) myink
  else myink.

(** rendering.py, [add_stroke].  Two things decide whether the lines
    139-155 return.  For a single in-bounds point [myink] is a leaf tensor
    created with [requires_grad=True] (line 140): torch refuses the
    in-place [fill_] of line 151 on it with a [RuntimeError]; the [mul_] of
    line 153 is not reached, the sum being [ink_pp] itself.  For two or
    more points and [ink_max_dist = 0] the distances are clamped to 0 and
    line 145 divides 0 by 0: every entry of [myink] is not a number, the
    comparisons of lines 150 and 152 are false and the assertion of line
    155 fails. *)
Definition add_stroke (pimg : tensor) (stk : list point) (ps : Parameters)
  : result (tensor * bool) :=
  let stk := space_motor_to_img_pts stk in
  sz <- imsize_of (shape pimg) ;;
  let out := check_bounds stk sz in
  let ink_off_page := existsb (fun b => b) out in
  if forallb (fun b => b) out then Ok (pimg, ink_off_page)
  else
    let stk := mask_select stk (map negb out) in
    let leaf := Nat.eqb (length stk) 1 in
    if negb leaf && Reqb (ink_max_dist ps) 0 then Raise AssertionError
    else
    let myink := ink_of_trajectory stk ps in
    (if leaf && Rltb (Rsum myink) (222 / 100000000)
     then Raise RuntimeError else Ok tt) ;;;
    let myink := adjust_ink myink ps in
    assert (Rgtb (Rsum myink) (ink_pp ps - 1 / 10000)) ;;;
    let x := map fst stk in
    let y := map snd stk in
    let xfloor := map floor x in
    let yfloor := map floor y in
    let xceil := map ceil x in
    let yceil := map ceil y in
    let x_c_ratio := zip_with Rminus x xfloor in
    let y_c_ratio := zip_with Rminus y yfloor in
    let x_f_ratio := map (fun c => 1 - c) x_c_ratio in
    let y_f_ratio := map (fun c => 1 - c) y_c_ratio in
    let mi1 := zip_with Rmult (zip_with Rmult myink x_f_ratio) y_f_ratio in
    let mi2 := zip_with Rmult (zip_with Rmult myink x_c_ratio) y_f_ratio in
    let mi3 := zip_with Rmult (zip_with Rmult myink x_f_ratio) y_c_ratio in
    let mi4 := zip_with Rmult (zip_with Rmult myink x_c_ratio) y_c_ratio in
    pimg <- seqadd pimg xfloor yfloor mi1 ;;
    pimg <- seqadd pimg xceil yfloor mi2 ;;
    pimg <- seqadd pimg xfloor yceil mi3 ;;
    pimg <- seqadd pimg xceil yceil mi4 ;;
    Ok (pimg, ink_off_page).

(** Whether a stroke has a point off an image of size [sz]. *)
Definition off_page (sz : nat * nat) (stk : list point) : bool :=
  existsb (fun b => b) (check_bounds (space_motor_to_img_pts stk) sz).

(** Whether a stroke has a point on an image of size [sz]. *)
Definition on_page (sz : nat * nat) (stk : list point) : bool :=
  negb (forallb (fun b => b) (check_bounds (space_motor_to_img_pts stk) sz)).

(** A pixel value that is a probability. *)
Definition unit_interval (v : R) : Prop := 0 <= v <= 1.

(** A parameter set with two units of ink per point, distances capped at
    two, and a 105 x 105 image. *)
Definition example_ps : Parameters :=
  mkParameters 2 2 (105%nat, 105%nat) (1 / 2) 6 2 "Lake" 11.

(** The same parameters on an image of one pixel. *)
Definition pixel_ps : Parameters :=
  mkParameters 2 2 (1%nat, 1%nat) (1 / 2) 6 2 "Lake" 11.

(** Half a unit of ink per point, no broadening pass, one pixel. *)
Definition half_ink_ps : Parameters :=
  mkParameters (1 / 2) 2 (1%nat, 1%nat) (1 / 2) 6 0 "Lake" 11.

(** The one-pixel parameters with a broadening mode that does not exist. *)
Definition gauss_ps : Parameters :=
  mkParameters 2 2 (1%nat, 1%nat) (1 / 2) 6 2 "Gauss" 11.

(** The total ink an image holds. *)
Definition total_ink (pimg : tensor) : R := Rsum (data pimg).

Definition zeros (sz : nat * nat) : tensor :=
  mkTensor [fst sz; snd sz] (repeat 0 (fst sz * snd sz)).

Section Filters.

(** [imfilter(., ., mode='conv')] and [fspecial(., ., ftype='gaussian')] of
    util.general, and the defaults [Parameters()] of parameters.py, are not
    among the sources: they are parameters of the model. *)
Variable imfilter : tensor -> tensor -> result tensor.
Variable fspecial : nat -> R -> tensor.
Variable default_parameters : Parameters.

Fixpoint filter_times (n : nat) (pimg H : tensor) : result tensor :=
  match n with
  | O => Ok pimg
  | S n' => pimg' <- imfilter pimg H ;; filter_times n' pimg' H
  end.

Definition H_broaden (h_scale a : R) : tensor :=
  mkTensor [3%nat; 3%nat]
    (map (Rmult h_scale)
       [a / 12; a / 6; a / 12;
        a / 6; 1 - a; a / 6;
        a / 12; a / 6; a / 12]).

Definition clamp_max (hi : R) (t : tensor) : tensor :=
  mkTensor (shape t) (map (fun v => Rmin v hi) (data t)).

Definition clamp (lo hi : R) (t : tensor) : tensor :=
  mkTensor (shape t) (map (fun v => Rmin (Rmax v lo) hi) (data t)).

(** rendering.py, [broaden_and_blur], on an image [pimg] that in-place
    operations are allowed on: the two [clamp_] write the clamped values.
    (On the leaf that [render_image] creates with [requires_grad=True],
    when no stroke and no filter has replaced it, torch refuses the
    [clamp_] of line 222.) *)
Definition broaden_and_blur (pimg : tensor) (blur_sigma : R) (ps : Parameters)
  : result tensor :=
  let a := ink_a ps in
  let b := ink_b ps in
  h_scale <-
    (if String.eqb (broaden_mode ps) "Lake" then Ok b
     else if String.eqb (broaden_mode ps) "Hinton" then Ok (b * (1 + a))
     else
       Raise (Exception "'broaden_mode' must be either 'Lake' or 'Hinton'")) ;;
  pimg <- filter_times (ink_ncon ps) pimg (H_broaden h_scale a) ;;
  let pimg := clamp_max 1 pimg in
  pimg <-
    (if Rgtb blur_sigma 0 then
       let H_gaussian := fspecial (fsize ps) blur_sigma in
       pimg <- imfilter pimg H_gaussian ;;
       imfilter pimg H_gaussian
     else Ok pimg) ;;
  Ok (clamp 0 1 pimg).

(** The strokes drawn one after the other (rendering.py, lines 269-271). *)
Fixpoint draw_strokes (strokes : list (list point)) (pimg : tensor)
  (ink_off_page : bool) (ps : Parameters) : result (tensor * bool) :=
  match strokes with
  | [] => Ok (pimg, ink_off_page)
  | stk :: rest =>
      r <- add_stroke pimg stk ps ;;
      draw_strokes rest (fst r) (ink_off_page || snd r) ps
  end.

(** The noise blend of one pixel (rendering.py, line 278). *)
Definition blend (epsilon p : R) : R :=
  (1 - epsilon) * p + epsilon * (1 - p).

(** [if ps is None: ps = Parameters()]. *)
Definition or_default (ps : option Parameters) : Parameters :=
  match ps with None => default_parameters | Some ps => ps end.

(** rendering.py, [render_image]. *)
Definition render_image (strokes : list (list point)) (epsilon blur_sigma : R)
  (ps : option Parameters) : result (tensor * bool) :=
  let ps := or_default ps in
  match strokes with
  | [] => Raise IndexError
  | _ =>
      let pimg := zeros (imsize ps) in
      r <- draw_strokes strokes pimg false ps ;;
      pimg <- broaden_and_blur (fst r) blur_sigma ps ;;
      let pimg :=
        if Rgtb epsilon 0
        then mkTensor (shape pimg) (map (blend epsilon) (data pimg))
        else pimg in
      Ok (pimg, snd r)
  end.

End Filters.

(** A filter that leaves the image as it is, and a kernel of one entry. *)
Definition no_filter (pimg H : tensor) : result tensor := Ok pimg.
Definition unit_kernel (fsize : nat) (sigma : R) : tensor :=
  mkTensor [1%nat; 1%nat] [1].

End Rendering.

Module Part.

(** *** objects/part.py *)

Import Rendering.

(** A parameter of a part: a tensor and its [requires_grad] flag. *)
Record param : Type := mkParam { value : tensor; requires_grad : bool }.

Definition pscale (c : R) (p : point) : point := (c * fst p, c * snd p).

(** [l[n] = v] on a list. *)
Fixpoint set_nth {A} (l : list A) (n : nat) (v : A) : list A :=
  match l, n with
  | [], _ => []
  | _ :: l', O => v :: l'
  | a :: l', S n' => a :: set_nth l' n' v
  end.

(** [shapes[:,:,i]] of a [(ncpt, 2, nsub)] tensor: its [ncpt] points. *)
Definition sub_stroke (shapes : tensor) (ncpt nsub i : nat) : list point :=
  map (fun c => (nth ((c * 2 + 0) * nsub + i) (data shapes) 0,
                 nth ((c * 2 + 1) * nsub + i) (data shapes) 0))
      (seq 0 ncpt).

(** [motor_spline[:,:,i] = pts] on a [(ncpt, 2, nsub)] tensor. *)
Fixpoint set_sub_stroke (d : list R) (nsub i c : nat) (pts : list point)
  : list R :=
  match pts with
  | [] => d
  | p :: pts' =>
      let d := set_nth d ((c * 2 + 0) * nsub + i) (fst p) in
      let d := set_nth d ((c * 2 + 1) * nsub + i) (snd p) in
      set_sub_stroke d nsub i (S c) pts'
  end.

(** [motor[i] = traj], with torch's broadcasting of a single row. *)
Definition set_row (motor : list (list point)) (neval i : nat)
  (traj : list point) : result (list (list point)) :=
  if Nat.eqb (length traj) neval then Ok (set_nth motor i traj)
  else
    match traj with
    | [p] => Ok (set_nth motor i (repeat p neval))
    | _ => Raise RuntimeError
    end.

Definition first_point (traj : list point) : result point :=
  match traj with
  | [] => Raise IndexError
  | p :: _ => Ok p
  end.

Definition last_point (traj : list point) : result point :=
  match traj with
  | [] => Raise IndexError
  | p :: traj' => Ok (last traj' p)
  end.

Definition get_item (t : tensor) (i : nat) : result R :=
  match nth_error (data t) i with
  | Some v => Ok v
  | None => Raise IndexError
  end.

Definition not_none {A} (x : option A) : result A :=
  match x with
  | Some a => Ok a
  | None => Raise AssertionError
  end.

Section Splines.

(** [splines.get_stk_from_bspline] is not among the sources: it is a
    parameter of the model, from a [(ncpt, 2)] list of control points and
    a number of evaluations to a trajectory. *)
Variable get_stk_from_bspline : list point -> nat -> result (list point).

(** The state of the loop of [vanilla_to_motor]: [motor], [motor_spline]
    and [previous_pos]. *)
Definition loop_state : Type := (list (list point) * tensor * point)%type.

(** One turn of the loop (part.py, lines 317-326). *)
Definition motor_step (shapes invscales : tensor) (ncpt nsub neval i : nat)
  (st : loop_state) : result loop_state :=
  let '(motor, motor_spline, previous_pos) := st in
  s <- get_item invscales i ;;
  let shapes_scaled := map (pscale s) (sub_stroke shapes ncpt nsub i) in
  traj <- get_stk_from_bspline shapes_scaled neval ;;
  traj0 <- first_point traj ;;
  let offset := psub traj0 previous_pos in
  motor <- set_row motor neval i (map (fun p => psub p offset) traj) ;;
  let motor_spline :=
    mkTensor (shape motor_spline)
      (set_sub_stroke (data motor_spline) nsub i 0
         (map (fun p => psub p offset) shapes_scaled)) in
  previous_pos <- last_point (nth i motor []) ;;
  Ok (motor, motor_spline, previous_pos).

Fixpoint motor_loop (shapes invscales : tensor) (ncpt nsub neval : nat)
  (range : list nat) (st : loop_state) : result loop_state :=
  match range with
  | [] => Ok st
  | i :: range' =>
      st' <- motor_step shapes invscales ncpt nsub neval i st ;;
      motor_loop shapes invscales ncpt nsub neval range' st'
  end.

(** part.py, [vanilla_to_motor]; each argument may be Python's [None]. *)
Definition vanilla_to_motor (shapes invscales first_pos : option tensor)
  (neval : nat) : result (list (list point) * tensor) :=
  shapes <- not_none shapes ;;
  invscales <- not_none invscales ;;
  first_pos <- not_none first_pos ;;
  assert (Nat.eqb (length (shape shapes)) 3) ;;;
  assert (Nat.eqb (nth 1 (shape shapes) 0%nat) 2) ;;;
  assert (Nat.eqb (length (shape invscales)) 1) ;;;
  assert (shape_eqb (shape first_pos) [2%nat]) ;;;
  let ncpt := nth 0 (shape shapes) 0%nat in
  let nsub := nth 2 (shape shapes) 0%nat in
  let motor := repeat (repeat (0, 0) neval) nsub in
  let motor_spline :=
    mkTensor (shape shapes) (repeat 0 (length (data shapes))) in
  let previous_pos := (nth 0 (data first_pos) 0, nth 1 (data first_pos) 0) in
  st <- motor_loop shapes invscales ncpt nsub neval (seq 0 nsub)
          (motor, motor_spline, previous_pos) ;;
  let '(motor, motor_spline, _) := st in
  Ok (motor, motor_spline).

(** What a sub-stroke of the result is: the spline of the scaled control
    points, and those control points, moved by one offset. *)
Definition moved_together (shapes invscales : tensor) (ncpt nsub neval : nat)
  (motor : list (list point)) (motor_spline : tensor) (i : nat) : Prop :=
  exists s traj offset,
    nth_error (data invscales) i = Some s
    /\ get_stk_from_bspline
         (map (pscale s) (sub_stroke shapes ncpt nsub i)) neval = Ok traj
    /\ nth i motor [] = map (fun p => psub p offset) traj
    /\ sub_stroke motor_spline ncpt nsub i
       = map (fun p => psub p offset)
           (map (pscale s) (sub_stroke shapes ncpt nsub i)).

(** The default of [neval]. *)
Definition neval_default : nat := 200.

(** part.py, [StrokeToken]: [position] is [None] until it is set. *)
Record StrokeToken : Type := mkStrokeToken {
  shapes : param;
  invscales : param;
  position : option param;
  xlim : tensor;
  ylim : tensor
}.

(** [StrokeToken.__init__]. *)
Definition StrokeToken_init (shapes invscales : param) (xlim ylim : tensor)
  : StrokeToken :=
  mkStrokeToken shapes invscales None xlim ylim.

(** The property [StrokeToken.motor]. *)
Definition motor (self : StrokeToken) : result (list (list point)) :=
  assert (match position self with None => false | Some _ => true end) ;;;
  r <- vanilla_to_motor (Some (value (shapes self)))
         (Some (value (invscales self)))
         (option_map value (position self)) neval_default ;;
  Ok (fst r).

(** The property [StrokeToken.motor_spline]. *)
Definition motor_spline (self : StrokeToken) : result tensor :=
  assert (match position self with None => false | Some _ => true end) ;;;
  r <- vanilla_to_motor (Some (value (shapes self)))
         (Some (value (invscales self)))
         (option_map value (position self)) neval_default ;;
  Ok (snd r).

End Splines.

(** [StrokeToken.parameters]. *)
Definition parameters (self : StrokeToken) : list (option param) :=
  [Some (shapes self); Some (invscales self); position self].

(** [torch.full(sh, eps)]. *)
Definition full (sh : list nat) (eps : R) : tensor :=
  mkTensor sh (repeat eps (numel sh)).

(** [torch.stack([xlim, ylim])] followed by the column [[:, j]], shifted by
    [d]: the stacked tensors must have one shape, of at least one axis with
    a [j]-th entry; the result holds entry [j] of [xlim], then of [ylim]. *)
Definition stacked_column (xlim ylim : tensor) (j : nat) (d : R)
  : result tensor :=
  if shape_eqb (shape xlim) (shape ylim) then
    match shape xlim with
    | [] => Raise IndexError
    | n :: rest =>
        if Nat.ltb j n then
          let m := numel rest in
          Ok (mkTensor (2%nat :: rest)
                (map (fun v => v + d)
                   (firstn m (skipn (j * m) (data xlim))
                    ++ firstn m (skipn (j * m) (data ylim)))))
        else Raise IndexError
    end
  else Raise RuntimeError.

(** [StrokeToken.lbs]. *)
Definition lbs (self : StrokeToken) (eps : R) : result (list (option tensor)) :=
  lb <- stacked_column (xlim self) (ylim self) 0 eps ;;
  Ok [None; Some (full (shape (value (invscales self))) eps); Some lb].

(** [StrokeToken.ubs]. *)
Definition ubs (self : StrokeToken) (eps : R) : result (list (option tensor)) :=
  ub <- stacked_column (xlim self) (ylim self) 1 (- eps) ;;
  Ok [None; None; Some ub].

(** [param.requires_grad_(flag)]; [None] has no such method. *)
Definition requires_grad_ (p : option param) (flag : bool)
  : result (option param) :=
  match p with
  | None => Raise AttributeError
  | Some p => Ok (Some (mkParam (value p) flag))
  end.

(** The loop of [PartToken.train] and [PartToken.eval] over
    [self.parameters()]: the flags are set in order, and the parameters
    reached before an exception keep the flag they were given.  The result
    is the parameters after the call and its outcome. *)
Fixpoint grad_loop (params : list (option param)) (flag : bool)
  : list (option param) * result unit :=
  match params with
  | [] => ([], Ok tt)
  | p :: params' =>
      match requires_grad_ p flag with
      | Raise e => (p :: params', Raise e)
      | Ok p' =>
          let (rest, outcome) := grad_loop params' flag in
          (p' :: rest, outcome)
      end
  end.

Definition train (self : StrokeToken) : list (option param) * result unit :=
  grad_loop (parameters self) true.

Definition eval (self : StrokeToken) : list (option param) * result unit :=
  grad_loop (parameters self) false.

(** part.py, [StrokeType]: the names of its fields are those of
    [StrokeToken], hence a name space of its own. *)
Module StrokeType.

Record t : Type := mk {
  nsub : nat;
  ids : list Z;
  shapes : param;
  invscales : param
}.

Definition parameters (self : t) : list (option param) :=
  [Some (shapes self); Some (invscales self)].

Definition lbs (self : t) (eps : R) : list (option tensor) :=
  [None; Some (full (shape (value (invscales self))) eps)].

Definition ubs (self : t) (eps : R) : list (option tensor) :=
  [None; None].

(** [PartType.train] and [PartType.eval]. *)
Definition train (self : t) : list (option param) * result unit :=
  grad_loop (parameters self) true.

Definition eval (self : t) : list (option param) * result unit :=
  grad_loop (parameters self) false.

End StrokeType.

(** A point moved by [d]. *)
Definition translate (d p : point) : point := (fst p + fst d, snd p + snd d).

(** A parameter with its flag set. *)
Definition with_flag (flag : bool) (p : option param) : option param :=
  option_map (fun p => mkParam (value p) flag) p.

(** A stand-in for the spline evaluation: the control points in order,
    the last one repeated up to [neval] points. *)
Definition polyline_spline (cpts : list point) (neval : nat)
  : result (list point) :=
  Ok (map (fun k => nth k cpts (last cpts (0, 0))) (seq 0 neval)).

(** The tensors of tests/test_vanilla_to_motor.py: 5 control points and 3
    sub-strokes. *)
Definition shapes_token : tensor :=
  mkTensor [5%nat; 2%nat; 3%nat]
    [-5740 / 100; 2425 / 100; 3948 / 100;
     -2432 / 100; 1624 / 100; -1935 / 100;
     267 / 100; 446 / 100; -3631 / 100;
     2917 / 100; -2295 / 100; -288 / 100;
     5254 / 100; -2268 / 100; 4090 / 100;
     -2149 / 100; 5378 / 100; 2689 / 100;
     -1766 / 100; 1858 / 100; 5014 / 100;
     -222 / 100; 117 / 100; -1629 / 100;
     758 / 100; -3076 / 100; -3480 / 100;
     2586 / 100; -6131 / 100; -817337 / 10000].

Definition invscales_token : tensor :=
  mkTensor [3%nat] [51 / 100; 18 / 100; 14 / 100].

Definition position_token : tensor :=
  mkTensor [2%nat] [7425 / 100; -1328 / 100].

(** The same token as [StrokeToken.__init__] leaves it. *)
Definition fresh_token : StrokeToken :=
  StrokeToken_init (mkParam shapes_token false) (mkParam invscales_token false)
    (mkTensor [2%nat] [0; 105]) (mkTensor [2%nat] [-105; 0]).

Definition test_token : StrokeToken :=
  mkStrokeToken (mkParam shapes_token false) (mkParam invscales_token false)
    (Some (mkParam position_token false))
    (mkTensor [2%nat] [0; 105]) (mkTensor [2%nat] [-105; 0]).

End Part.

Module SpatialModel.

(** *** classes/spatial_model.py *)

Import Rendering.

(** [range(n)] of a Python integer. *)
Definition range (n : Z) : list Z := map Z.of_nat (seq 0 (Z.to_nat n)).

(** Modelled from the spec: the class [SpatialHist] of spatial_hist.py,
    which is not among the sources; a histogram is held as the arguments
    its constructor is given, the first of them the positions it is fit
    on. *)
Record SpatialHist : Type := mkSpatialHist {
  fit_on : list point;
  sh_xlim : point;
  sh_ylim : point;
  sh_nbin_per_side : nat;
  sh_prior_count : R
}.

(** [SpatialModel.__init__], returning [self.list_SH].  [data_start] is
    the [(n, 2)] array of positions and [data_id] the [(n,)] array of the
    stroke indices. *)
Definition SpatialModel_init (data_start : list point) (data_id : list Z)
  (clump_id : Z) (xlim ylim : point) (nbin_per_side : nat) (prior_count : R)
  : result (list SpatialHist) :=
  assert (Nat.eqb (length data_id) (length data_start)) ;;;
  let list_SH :=
    map (fun i =>
           mkSpatialHist
             (mask_select data_start (map (fun d => Z.eqb d i) data_id))
             xlim ylim nbin_per_side prior_count)
        (range (clump_id - 1)) in
  let sh :=
    mkSpatialHist
      (mask_select data_start (map (fun d => Z.geb d clump_id) data_id))
      xlim ylim nbin_per_side prior_count in
  Ok (list_SH ++ [sh]).

(** The masks the constructor selects with, one per histogram. *)
Definition label_masks (data_id : list Z) (clump_id : Z) : list (list bool) :=
  map (fun i => map (fun d => Z.eqb d i) data_id) (range (clump_id - 1))
  ++ [map (fun d => Z.geb d clump_id) data_id].

(** How many histograms are fit on row [k] of [data_start]. *)
Definition times_used (data_id : list Z) (clump_id : Z) (k : nat) : nat :=
  length (filter (fun mask => nth k mask false) (label_masks data_id clump_id)).

End SpatialModel.

Module CpdScale.

(** *** CPD/cpd_scale.py *)

(** A tensor of sub-stroke ids. *)
Record itensor : Type := mkITensor { ishape : list nat; idata : list Z }.

(** The fields of the library the scale model reads. *)
Record Library : Type := mkLibrary { isunif : bool; scale_theta : tensor }.

(** The calls that leave the module. *)
Inductive call : Type :=
| UnifSample (lib : Library) (subid : itensor)
| UnifScore (lib : Library) (invscales : tensor) (subid : itensor)
| NewGamma (concentration rate : list R)
| GammaSample
| GammaLogProb (invscales : tensor).

(** A computation: the calls it made, in order, and its outcome. *)
Definition traced (A : Type) : Type := (list call * result A)%type.

Definition tret {A} (a : A) : traced A := ([], Ok a).
Definition traise {A} (e : exn) : traced A := ([], Raise e).
Definition tbind {A B} (m : traced A) (k : A -> traced B) : traced B :=
  match m with
  | (log, Ok a) => let (log', r) := k a in (log ++ log', r)
  | (log, Raise e) => (log, Raise e)
  end.
Definition tassert (b : bool) : traced unit :=
  if b then tret tt else traise AssertionError.
Definition emit {A} (c : call) (r : result A) : traced A := ([c], r).

Section External.

(** [CPDUnif] and [torch.distributions.gamma.Gamma] are not among the
    sources: what their calls return is a parameter of the model. *)
Variable CPDUnif_sample_invscale_type : Library -> itensor -> result tensor.
Variable CPDUnif_score_invscale_type :
  Library -> tensor -> itensor -> result tensor.
Variable gamma_sample : list R -> list R -> tensor.
Variable gamma_log_prob : list R -> list R -> tensor -> result tensor.

(** [len(t)]: the first axis; a 0-dimensional tensor has none. *)
Definition len (sh : list nat) : nat := hd 0%nat sh.

(** Row [i] of a [(n, 2)] tensor, negative indices counted from the end. *)
Definition theta_row (theta : tensor) (i : Z) : result (R * R) :=
  let n := Z.of_nat (nth 0 (shape theta) 0%nat) in
  let w := nth 1 (shape theta) 0%nat in
  if ((- n <=? i) && (i <? n))%Z then
    if Nat.leb 2 w then
      let r := Z.to_nat (if (i <? 0)%Z then i + n else i)%Z in
      Ok (nth (r * w + 0) (data theta) 0, nth (r * w + 1) (data theta) 0)
    else Raise IndexError
  else Raise IndexError.

Fixpoint theta_rows_of (theta : tensor) (subid : list Z)
  : result (list (R * R)) :=
  match subid with
  | [] => Ok []
  | i :: subid' =>
      r <- theta_row theta i ;;
      rs <- theta_rows_of theta subid' ;;
      Ok (r :: rs)
  end.

(** [theta[subid]] and its first two columns ([theta_sub[:,0]] and
    [theta_sub[:,1]], lines 20-23): the rows are taken first, and the
    columns exist only in a tensor of at least two columns, whether or not
    there is a row. *)
Definition theta_rows (theta : tensor) (subid : list Z)
  : result (list (R * R)) :=
  theta_sub <- theta_rows_of theta subid ;;
  if Nat.leb 2 (nth 1 (shape theta) 0%nat) then Ok theta_sub
  else Raise IndexError.

(** cpd_scale.py, [__get_dist]: the concentrations and rates of the Gamma
    distribution it constructs. *)
Definition get_dist (theta : tensor) (subid : itensor)
  : traced (list R * list R) :=
  tbind (tassert (Nat.eqb (length (shape theta)) 2)) (fun _ =>
  match theta_rows theta (idata subid) with
  | Raise e => traise e
  | Ok theta_sub =>
      let concentration := map fst theta_sub in
      let rate := map (fun r => 1 / snd r) theta_sub in
      emit (NewGamma concentration rate) (Ok (concentration, rate))
  end).

(** cpd_scale.py, [sample_invscale_type]. *)
Definition sample_invscale_type (lib : Library) (subid : itensor)
  : traced tensor :=
  tbind (tassert (Nat.eqb (length (ishape subid)) 1)) (fun _ =>
  if isunif lib then
    emit (UnifSample lib subid) (CPDUnif_sample_invscale_type lib subid)
  else
    tbind (get_dist (scale_theta lib) subid) (fun gamma =>
    emit GammaSample (Ok (gamma_sample (fst gamma) (snd gamma))))).

(** cpd_scale.py, [score_invscale_type]. *)
Definition score_invscale_type (lib : Library) (invscales : tensor)
  (subid : itensor) : traced tensor :=
  tbind (tassert (Nat.eqb (length (shape invscales)) 1)) (fun _ =>
  tbind (tassert (Nat.eqb (length (ishape subid)) 1)) (fun _ =>
  tbind (tassert (Nat.eqb (len (shape invscales)) (len (ishape subid))))
    (fun _ =>
  if isunif lib then
    emit (UnifScore lib invscales subid)
      (CPDUnif_score_invscale_type lib invscales subid)
  else
    tbind (get_dist (scale_theta lib) subid) (fun gamma =>
    emit (GammaLogProb invscales)
      (gamma_log_prob (fst gamma) (snd gamma) invscales))))).

End External.

(** Whether a call constructs or uses a Gamma distribution. *)
Definition is_gamma (c : call) : bool :=
  match c with
  | NewGamma _ _ | GammaSample | GammaLogProb _ => true
  | _ => false
  end.

(** A uniform library, two ids and two scales. *)
Definition unif_lib : Library :=
  mkLibrary true (mkTensor [2%nat; 2%nat] [1; 2; 3; 4]).
Definition two_ids : itensor := mkITensor [2%nat] [0%Z; 1%Z].
Definition two_scales : tensor := mkTensor [2%nat] [1 / 2; 1 / 4].

(** A library with a Gamma scale model of two rows. *)
Definition gamma_lib : Library :=
  mkLibrary false (mkTensor [2%nat; 2%nat] [1; 2; 3; 4]).

(** Stand-ins for the external calls. *)
Definition stub_unif_sample (lib : Library) (subid : itensor) : result tensor :=
  Ok (mkTensor (ishape subid) (map (fun _ => 1) (idata subid))).
Definition stub_unif_score (lib : Library) (invscales : tensor)
  (subid : itensor) : result tensor :=
  Ok (mkTensor (shape invscales) (map (fun _ => 0) (data invscales))).
Definition stub_gamma_sample (concentration rate : list R) : tensor :=
  mkTensor [length concentration] concentration.
Definition stub_gamma_log_prob (concentration rate : list R)
  (invscales : tensor) : result tensor :=
  Ok invscales.

End CpdScale.

Module RandomWalker.

(** *** bottomup/initialize/random_walker.py *)

(** One pen-down segment of a walk: its nodes and its edges. *)
Record WalkerStroke : Type := mkWalkerStroke {
  list_ni : list nat;
  list_ei : list (nat * nat)
}.

Definition walk : Type := list WalkerStroke.

(** The fields of [ParametersBottomup] that [sample] reads. *)
Record ParametersBottomup : Type := mkParametersBottomup {
  int_exp_wt : list R;
  int_lambda_soft : list R;
  max_len : nat
}.

Section Walker.

(** The graph, the strokes placed so far and the state of numpy's random
    generator are one value of type [world].  [np.random.choice(a)], which
    [sample] calls with the candidates alone (with no [p] numpy draws
    uniformly from [a]), and the
    body of [make] below its two assertions (which runs on the base class
    [Walker], not among the sources) are parameters of the model. *)
Variable world : Type.
Variable random_choice : list R -> world -> result R * world.
Variable make_body : R -> R -> world -> result walk * world.

Record walker : Type := mkWalker {
  ps : ParametersBottomup;
  exp_wt_start : option R;
  lmbda : option R;
  env : world
}.

(** random_walker.py, [make]. *)
Definition make (self : walker) : result walk * walker :=
  match exp_wt_start self, lmbda self with
  | Some e, Some l =>
      let (r, env') := make_body e l (env self) in
      (r, mkWalker (ps self) (exp_wt_start self) (lmbda self) env')
  | _, _ => (Raise AssertionError, self)
  end.

(** The rejection loop of [sample]; [None] when [fuel] turns of the loop
    did not end it. *)
Fixpoint sample_loop (fuel : nat) (self : walker)
  : option (result walk * walker) :=
  match fuel with
  | O => None
  | S fuel' =>
      let (r, self') := make self in
      match r with
      | Raise e => Some (Raise e, self')
      | Ok walk =>
          let myns := length walk in
          if Nat.ltb (max_len (ps self')) myns
          then sample_loop fuel' self'
          else Some (Ok walk, self')
      end
  end.

(** The two draws that precede the loop. *)
Definition draw_parameters (self : walker) : result unit * walker :=
  let (e, env1) := random_choice (int_exp_wt (ps self)) (env self) in
  match e with
  | Raise x =>
      (Raise x, mkWalker (ps self) (exp_wt_start self) (lmbda self) env1)
  | Ok e =>
      let (l, env2) := random_choice (int_lambda_soft (ps self)) env1 in
      match l with
      | Raise x => (Raise x, mkWalker (ps self) (Some e) (lmbda self) env2)
      | Ok l => (Ok tt, mkWalker (ps self) (Some e) (Some l) env2)
      end
  end.

(** random_walker.py, [sample].  [myns] starts at infinity, above every
    integer [max_len], so the loop is entered. *)
Definition sample (fuel : nat) (self : walker)
  : option (result walk * walker) :=
  let (r, self') := draw_parameters self in
  match r with
  | Raise x => Some (Raise x, self')
  | Ok _ => sample_loop fuel self'
  end.

(** random_walker.py, [det_walk]. *)
Definition det_walk (self : walker) : result walk * walker :=
  make (mkWalker (ps self) (Some 1000) (Some 1000) (env self)).

(** The walker after [k] calls of [make]. *)
Fixpoint after_makes (k : nat) (self : walker) : walker :=
  match k with
  | O => self
  | S k' => after_makes k' (snd (make self))
  end.

(** The walks of the calls of [make] before the [k]-th are too long. *)
Definition rejected_before (k : nat) (self : walker) : Prop :=
  forall j, (j < k)%nat ->
    exists wj, fst (make (after_makes j self)) = Ok wj
               /\ (max_len (ps self) < length wj)%nat.

End Walker.

(** A world that counts the calls of [make]; a choice that takes the
    first candidate; a walk builder whose walks get shorter call by call. *)
Definition first_choice (l : list R) (w : nat) : result R * nat :=
  match l with
  | [] => (Raise (Exception "a must be non-empty"), w)
  | x :: _ => (Ok x, w)
  end.

Definition shrinking_make (e l : R) (w : nat) : result walk * nat :=
  (Ok (repeat (mkWalkerStroke [0%nat] []) (3 - w)), S w).

Definition toy_walker : walker nat :=
  mkWalker nat (mkParametersBottomup [1; 5; 10] [2; 4] 2) None None 0%nat.

(** What [_available_nodes] reads of the networkx graph: its nodes, in
    the order [graph.nodes()] lists them, the degree of a node and its
    degree weighted by the edge attribute ['visited']. *)
Record graph : Type := mkGraph {
  nodes : list nat;
  degree : nat -> Z;
  visited_degree : nat -> Z
}.

(** The loop of [_available_nodes] over the nodes that are left. *)
Fixpoint available_loop (g : graph) (ns : list nat) : list nat * list Z :=
  match ns with
  | [] => ([], [])
  | ni :: ns' =>
      let degree_ni := (degree g ni - visited_degree g ni)%Z in
      let (list_ni, list_degree) := available_loop g ns' in
      if (0 <? degree_ni)%Z
      then (ni :: list_ni, degree_ni :: list_degree)
      else (list_ni, list_degree)
  end.

(** random_walker.py, the property [_available_nodes]. *)
Definition _available_nodes (g : graph) : list nat * list Z :=
  available_loop g (nodes g).

(** [scipy.special.logsumexp] of a vector. *)
Definition logsumexp (a : list R) : R := ln (Rsum (map exp a)).

(** random_walker.py, [pen_up_down], lines 77-80: the weights [wts] the
    starting node is drawn with, as real numbers ([np.float32] rounds
    them, and rounds the smallest of them to 0). *)
Definition pen_up_down_wts (exp_wt_start : R) (degree : list Z) : list R :=
  let degree := map IZR degree in
  let logwts := map (fun d => exp_wt_start * ln (1 / d)) degree in
  let logwts := map (fun x => x - logsumexp logwts) logwts in
  map exp logwts.

(** random_walker.py, [_action_via_angle], lines 138-140: the
    probabilities [p] the move is drawn with, as real numbers
    ([np.float32] rounds them, and rounds the smallest of them to 0). *)
Definition action_via_angle_p (lmbda : R) (angles : list R) : list R :=
  let logp := map (fun a => - lmbda * a / 180) angles in
  let logp := map (fun x => x - logsumexp logp) logp in
  map exp logp.

(** The path 1 - 0 - 2 whose edge between 0 and 2 is visited. *)
Definition toy_graph : graph :=
  mkGraph [0; 1; 2]%nat
    (fun ni => if Nat.eqb ni 0 then 2%Z else 1%Z)
    (fun ni => if Nat.eqb ni 1 then 0%Z else 1%Z).

(** A walk builder whose walks are always three strokes long. *)
Definition long_make (e l : R) (w : nat) : result walk * nat :=
  (Ok (repeat (mkWalkerStroke [0%nat] []) 3), S w).

End RandomWalker.

(** * Properties *)

(** ** Comparisons *)

Lemma Rltb_true x y : Rltb x y = true <-> x < y.
Proof. unfold Rltb; destruct (Rlt_dec x y); split; intros; try easy. Qed.

Lemma Rltb_false x y : Rltb x y = false <-> y <= x.
Proof.
  unfold Rltb; destruct (Rlt_dec x y); split; intros; try easy; lra.
Qed.

Lemma Rgeb_true x y : Rgeb x y = true <-> y <= x.
Proof.
  unfold Rgeb; destruct (Rge_dec x y); split; intros; try easy; lra.
Qed.

Lemma Rgeb_false x y : Rgeb x y = false <-> x < y.
Proof.
  unfold Rgeb; destruct (Rge_dec x y); split; intros; try easy; lra.
Qed.

Lemma Rgtb_true x y : Rgtb x y = true <-> y < x.
Proof.
  unfold Rgtb; destruct (Rgt_dec x y); split; intros; try easy; lra.
Qed.

Lemma Rgtb_false x y : Rgtb x y = false <-> x <= y.
Proof.
  unfold Rgtb; destruct (Rgt_dec x y); split; intros; try easy; lra.
Qed.

(** ** Properties of rendering.py *)

Section RenderingFacts.
Import Rendering.

Lemma rows_points (pts : list point) :
  rows (length pts) 2 (flat_map (fun p => [fst p; snd p]) pts)
  = map (fun p => [fst p; snd p]) pts.
Proof.
  induction pts as [|p pts IH]; simpl; [reflexivity|].
  now rewrite IH.
Qed.

Lemma last_snoc {A} (l : list A) (a d : A) : last (l ++ [a]) d = a.
Proof. apply last_last. Qed.

Lemma rows_of_points lead pts :
  length pts = numel lead ->
  rows_of (of_points lead pts) = map (fun p => [fst p; snd p]) pts.
Proof.
  intros Hn. unfold rows_of, of_points; simpl.
  rewrite removelast_last, last_snoc, <- Hn. apply rows_points.
Qed.

Lemma shape_snoc_not_nil (lead : list nat) (d : nat) :
  exists a l, lead ++ [d] = a :: l.
Proof. destruct lead; simpl; eauto. Qed.

Lemma flip_last_points lead pts :
  length pts = numel lead ->
  flip_last (of_points lead pts)
  = Ok (of_points lead (map (fun p => (snd p, fst p)) pts)).
Proof.
  intros Hn. unfold flip_last.
  rewrite rows_of_points by assumption.
  destruct (shape_snoc_not_nil lead 2) as (a & l & E).
  unfold of_points at 1; simpl shape; rewrite E, <- E.
  unfold of_points. do 2 f_equal.
  clear. induction pts as [|p pts IH]; simpl; [reflexivity|].
  now rewrite IH.
Qed.

Lemma mul_last_points lead pts (a b : R) :
  length pts = numel lead ->
  mul_last (of_points lead pts) [a; b]
  = Ok (of_points lead (map (fun p => (fst p * a, snd p * b)) pts)).
Proof.
  intros Hn. unfold mul_last.
  rewrite rows_of_points by assumption.
  destruct (shape_snoc_not_nil lead 2) as (x & l & E).
  unfold of_points at 1 2; simpl shape; rewrite E, <- E.
  rewrite last_snoc; simpl Nat.eqb.
  unfold of_points. do 2 f_equal.
  clear. induction pts as [|p pts IH]; simpl; [reflexivity|].
  now rewrite IH.
Qed.

(** On a [(..., 2)] tensor the tensor function is the pointwise one. *)
Lemma space_motor_to_img_points lead pts :
  length pts = numel lead ->
  space_motor_to_img (of_points lead pts)
  = Ok (of_points lead (space_motor_to_img_pts pts)).
Proof.
  intros Hn. unfold space_motor_to_img.
  rewrite flip_last_points by assumption. cbn [bind].
  unfold space_flip. rewrite mul_last_points by now rewrite length_map.
  unfold space_motor_to_img_pts. now rewrite map_map.
Qed.

(** C10: [space_motor_to_img] sends every point [(x, y)] of a tensor of
    shape [(..., 2)] to [(-y, x)], whatever the leading axes are, and
    applying it twice gives [(-x, -y)], not the original point. *)
Theorem space_motor_to_img_neg_swap (lead : list nat) (pts : list point) :
  length pts = numel lead ->
  space_motor_to_img (of_points lead pts)
  = Ok (of_points lead (map (fun p => (- snd p, fst p)) pts))
  /\ (once <- space_motor_to_img (of_points lead pts) ;;
      space_motor_to_img once)
     = Ok (of_points lead (map (fun p => (- fst p, - snd p)) pts)).
Proof.
  intros Hn.
  assert (E : space_motor_to_img_pts pts
              = map (fun p => (- snd p, fst p)) pts).
  { apply map_ext; intros [x y]; unfold space_motor_to_img_pt; simpl.
    f_equal; ring. }
  rewrite space_motor_to_img_points by assumption.
  split; [now rewrite E|]. cbn [bind].
  rewrite space_motor_to_img_points
    by (unfold space_motor_to_img_pts; now rewrite length_map).
  do 2 f_equal. unfold space_motor_to_img_pts. rewrite map_map.
  apply map_ext; intros [x y]; unfold space_motor_to_img_pt; simpl.
  f_equal; ring.
Qed.

Lemma space_motor_to_img_neg_swap_witness :
  space_motor_to_img (of_points [] [(3, 4)])
  = Ok (of_points [] (map (fun p => (- snd p, fst p)) [(3, 4)]))
  /\ (once <- space_motor_to_img (of_points [] [(3, 4)]) ;;
      space_motor_to_img once)
     = Ok (of_points [] (map (fun p => (- fst p, - snd p)) [(3, 4)])).
Proof. exact (space_motor_to_img_neg_swap [] [(3, 4)] eq_refl). Defined.

(** *** check_bounds *)

Lemma check_bounds_pointwise myt imsize :
  check_bounds myt imsize = map (point_out imsize) myt.
Proof.
  unfold check_bounds.
  induction myt as [|p myt IH]; simpl; [reflexivity|].
  now rewrite IH.
Qed.

Lemma floor_neg_iff x : floor x < 0 <-> x < 0.
Proof.
  unfold floor. pose proof (Zfloor_bound x) as B. split; intros H.
  - apply lt_IZR in H. assert (Zfloor x <= -1)%Z by lia.
    apply IZR_le in H0. lra.
  - apply IZR_lt. destruct (Z_lt_le_dec (Zfloor x) 0) as [|Hge]; [assumption|].
    apply IZR_le in Hge. lra.
Qed.

Lemma ceil_ge_iff x (n : nat) : INR n <= ceil x <-> INR n - 1 < x.
Proof.
  unfold ceil. rewrite INR_IZR_INZ. pose proof (Zceil_bound x) as B.
  split; intros H.
  - lra.
  - apply IZR_le.
    destruct (Z_lt_le_dec (Zceil x) (Z.of_nat n)) as [Hlt|]; [|assumption].
    assert (Zceil x <= Z.of_nat n - 1)%Z as Hle by lia.
    apply IZR_le in Hle. rewrite minus_IZR in Hle. lra.
Qed.

Lemma point_out_true imsize p :
  point_out imsize p = true <->
  (floor (fst p) < 0 \/ INR (fst imsize) <= ceil (fst p))
  \/ (floor (snd p) < 0 \/ INR (snd imsize) <= ceil (snd p)).
Proof.
  unfold point_out.
  rewrite !orb_true_iff, !Rltb_true, !Rgeb_true. tauto.
Qed.

Lemma point_out_false imsize p :
  point_out imsize p = false <->
  (0 <= fst p <= INR (fst imsize) - 1) /\ (0 <= snd p <= INR (snd imsize) - 1).
Proof.
  rewrite <- not_true_iff_false, point_out_true.
  rewrite !floor_neg_iff, !ceil_ge_iff. lra.
Qed.

(** C3, as the code has it: a point is marked out of bounds exactly when,
    on either axis, the floor of the coordinate is negative or its ceiling
    reaches the dimension; so every point with a negative coordinate or a
    coordinate at or above the dimension is marked, and the unmarked
    points are exactly those of the closed box [[0, H-1] x [0, W-1]]. *)
Theorem check_bounds_spec (myt : list point) (H W k : nat) (p : point) :
  nth_error myt k = Some p ->
  length (check_bounds myt (H, W)) = length myt
  /\ exists b, nth_error (check_bounds myt (H, W)) k = Some b
     /\ (b = true <->
         (floor (fst p) < 0 \/ ceil (fst p) >= INR H)
         \/ (floor (snd p) < 0 \/ ceil (snd p) >= INR W))
     /\ (fst p < 0 \/ fst p >= INR H \/ snd p < 0 \/ snd p >= INR W ->
         b = true)
     /\ (b = false <->
         (0 <= fst p <= INR H - 1) /\ (0 <= snd p <= INR W - 1)).
Proof.
  intros Hk. rewrite check_bounds_pointwise, length_map.
  split; [reflexivity|]. exists (point_out (H, W) p).
  split; [now apply map_nth_error|].
  split; [|split].
  - rewrite point_out_true; simpl. unfold Rge. intuition lra.
  - intros Hout. apply point_out_true; simpl.
    rewrite !floor_neg_iff, !ceil_ge_iff. lra.
  - apply point_out_false.
Qed.

Lemma check_bounds_spec_witness :
  length (check_bounds [(2, 3)] (10, 10)%nat) = length [(2, 3)]
  /\ exists b, nth_error (check_bounds [(2, 3)] (10, 10)%nat) 0 = Some b
     /\ (b = true <->
         (floor 2 < 0 \/ ceil 2 >= INR 10) \/ (floor 3 < 0 \/ ceil 3 >= INR 10))
     /\ (2 < 0 \/ 2 >= INR 10 \/ 3 < 0 \/ 3 >= INR 10 -> b = true)
     /\ (b = false <-> (0 <= 2 <= INR 10 - 1) /\ (0 <= 3 <= INR 10 - 1)).
Proof. exact (check_bounds_spec [(2, 3)] 10 10 0 (2, 3) eq_refl). Defined.

(** C3, as the claim has it, fails: [(9.5, 3)] lies inside
    [[0, 10) x [0, 10)] and is marked out of bounds, its ceiling being 10. *)
Lemma check_bounds_inside_half_open_marked :
  (0 <= 19 / 2 < INR 10 /\ 0 <= 3 < INR 10)
  /\ check_bounds [(19 / 2, 3)] (10, 10)%nat = [true].
Proof.
  split; [simpl; lra|].
  rewrite check_bounds_pointwise; cbn [map]. f_equal.
  apply point_out_true; cbn [fst snd]. left; right.
  apply ceil_ge_iff. simpl; lra.
Qed.

End RenderingFacts.

(** ** Ink accounting in add_stroke *)

Section InkFacts.
Import Rendering.

Lemma Rsum_app l m : Rsum (l ++ m) = Rsum l + Rsum m.
Proof. induction l; simpl; lra. Qed.

Lemma Rsum_const {A} (c : R) (l : list A) :
  Rsum (map (fun _ => c) l) = INR (length l) * c.
Proof.
  induction l as [|a l IH]; [simpl; lra|].
  change (Rsum (map (fun _ => c) (a :: l)))
    with (c + Rsum (map (fun _ => c) l)).
  rewrite IH. change (length (a :: l)) with (S (length l)).
  rewrite S_INR. lra.
Qed.

Lemma Rsum_scale (c : R) (l : list R) :
  Rsum (map (fun m => m * c) l) = Rsum l * c.
Proof. induction l; simpl; lra. Qed.

Lemma add_at_length D n v : length (add_at D n v) = length D.
Proof.
  revert n; induction D as [|d D IH]; intros [|n]; simpl; auto.
Qed.

Lemma add_at_sum D n v :
  (n < length D)%nat -> Rsum (add_at D n v) = Rsum D + v.
Proof.
  revert n; induction D as [|d D IH]; intros [|n] Hn; simpl in *;
    try lia; [lra|].
  rewrite IH by lia. lra.
Qed.

Lemma scatter_add_total D lind src :
  length lind = length src ->
  Forall (fun i => (0 <= i < Z.of_nat (length D))%Z) lind ->
  exists D', scatter_add D lind src = Ok D'
             /\ length D' = length D
             /\ Rsum D' = Rsum D + Rsum src.
Proof.
  revert D src; induction lind as [|i lind IH]; intros D [|v src] Hl Hall;
    simpl in Hl; try discriminate.
  - exists D; simpl; repeat split; lra.
  - inversion Hall as [|? ? Hi Hrest]; subst. simpl.
    replace ((0 <=? i)%Z && (i <? Z.of_nat (length D))%Z) with true
      by (symmetry; apply andb_true_iff; split;
          [apply Z.leb_le | apply Z.ltb_lt]; lia).
    destruct (IH (add_at D (Z.to_nat i) v) src) as (D' & E & L & S).
    + lia.
    + rewrite add_at_length. assumption.
    + exists D'. rewrite E, L, S, add_at_length, add_at_sum by lia.
      repeat split. lra.
Qed.

Lemma mask_select_all {A} (l : list A) (out : list bool) :
  length out = length l -> Forall (fun b => b = false) out ->
  mask_select l (map negb out) = l.
Proof.
  revert out; induction l as [|a l IH]; intros [|b out] Hl Hall;
    simpl in *; try discriminate; auto.
  inversion Hall; subst; simpl. f_equal. apply IH; [lia | assumption].
Qed.

Lemma long_in_range x (n : nat) :
  0 <= x <= INR n - 1 -> (0 <= long x < Z.of_nat n)%Z.
Proof.
  intros [H0 H1]. unfold long.
  replace (Rltb x 0) with false by (symmetry; apply Rltb_false; lra).
  pose proof (Zfloor_bound x) as B. rewrite INR_IZR_INZ in H1. split.
  - apply Zfloor_lub. simpl; lra.
  - apply lt_IZR. lra.
Qed.

Lemma sub2ind_in_range (H W : nat) (x y : Z) :
  (0 <= x < Z.of_nat H)%Z -> (0 <= y < Z.of_nat W)%Z ->
  (0 <= x * Z.of_nat W + y < Z.of_nat (H * W))%Z.
Proof. intros Hx Hy. rewrite Nat2Z.inj_mul. nia. Qed.

Lemma sub2ind_Forall (H W : nat) lx ly :
  Forall (in_image (H, W)) (combine lx ly) ->
  Forall (fun i => (0 <= i < Z.of_nat (H * W))%Z)
         (sub2ind (H, W) (map long lx) (map long ly)).
Proof.
  revert ly; induction lx as [|x lx IH]; intros [|y ly] Hall;
    try (constructor; fail).
  inversion Hall as [|? ? Hp Hrest]; subst.
  unfold sub2ind; simpl. constructor; [|apply IH; assumption].
  apply point_out_false in Hp; simpl in Hp. destruct Hp as [Hx Hy].
  apply sub2ind_in_range; apply long_in_range; assumption.
Qed.

Lemma sub2ind_length sz lx ly :
  length lx = length ly -> length (sub2ind sz lx ly) = length lx.
Proof.
  intros Hl. unfold sub2ind. rewrite length_map, length_combine. lia.
Qed.

(** [seqadd] at pixels that are all inside the image adds exactly the ink
    it is given. *)
Lemma seqadd_total D (H W : nat) lx ly ink :
  shape D = [H; W] -> length (data D) = (H * W)%nat ->
  length lx = length ly -> length ly = length ink ->
  Forall (in_image (H, W)) (combine lx ly) ->
  exists D', seqadd D lx ly ink = Ok D'
             /\ shape D' = [H; W]
             /\ length (data D') = (H * W)%nat
             /\ total_ink D' = total_ink D + Rsum ink.
Proof.
  intros Hs Hd Hxy Hyi Hall. unfold seqadd.
  rewrite Hxy, Hyi, !Nat.eqb_refl. cbn [andb assert bind].
  rewrite Hs. cbn [imsize_of bind].
  assert (Hout : Forall (fun b => b = false)
                        (check_bounds (combine lx ly) (H, W))).
  { rewrite check_bounds_pointwise. apply Forall_map.
    exact Hall. }
  assert (Hlen : length (check_bounds (combine lx ly) (H, W)) = length lx).
  { rewrite check_bounds_pointwise, length_map, length_combine. lia. }
  rewrite !mask_select_all by (assumption || lia).
  rewrite length_map.
  destruct (Nat.eqb (length lx) 0) eqn:E0.
  - apply Nat.eqb_eq in E0. exists D. repeat split; try assumption.
    destruct ink; [simpl; lra | simpl in *; lia].
  - destruct (scatter_add_total (data D)
                (sub2ind (H, W) (map long lx) (map long ly)) ink)
      as (D' & E & L & S).
    + rewrite sub2ind_length by (rewrite !length_map; assumption).
      rewrite length_map. lia.
    + rewrite Hd. apply sub2ind_Forall. assumption.
    + rewrite E. cbn [bind]. eexists; split; [reflexivity|].
      cbn [shape data]. unfold total_ink; cbn [data].
      repeat split; try assumption; lia.
Qed.

Lemma floor_in_range x (n : nat) :
  0 <= x <= INR n - 1 -> 0 <= floor x <= INR n - 1.
Proof.
  intros [H0 H1]. unfold floor. pose proof (Zfloor_bound x) as B. split.
  - apply IZR_le. apply Zfloor_lub. simpl; lra.
  - lra.
Qed.

Lemma ceil_in_range x (n : nat) :
  0 <= x <= INR n - 1 -> 0 <= ceil x <= INR n - 1.
Proof.
  intros [H0 H1]. unfold ceil. pose proof (Zceil_bound x) as B. split.
  - lra.
  - rewrite INR_IZR_INZ in *.
    assert (Zceil x < Z.of_nat n)%Z as Hlt by (apply lt_IZR; lra).
    assert (Zceil x <= Z.of_nat n - 1)%Z as Hle by lia.
    apply IZR_le in Hle. rewrite minus_IZR in Hle. lra.
Qed.

(** The four pixels a point of the image is splatted on are pixels of
    the image. *)
Lemma neighbours_in_image (f g : R -> R) sz (stk : list point) :
  (forall x n, 0 <= x <= INR n - 1 -> 0 <= f x <= INR n - 1) ->
  (forall x n, 0 <= x <= INR n - 1 -> 0 <= g x <= INR n - 1) ->
  Forall (in_image sz) stk ->
  Forall (in_image sz) (combine (map f (map fst stk)) (map g (map snd stk))).
Proof.
  intros Hf Hg Hall. induction Hall as [|p stk Hp _ IH]; simpl; constructor.
  - apply point_out_false in Hp. apply point_out_false; simpl.
    destruct Hp; split; [apply Hf | apply Hg]; assumption.
  - exact IH.
Qed.

Lemma selected_in_image sz (l : list point) :
  Forall (in_image sz) (mask_select l (map negb (check_bounds l sz))).
Proof.
  rewrite check_bounds_pointwise.
  induction l as [|p l IH]; simpl; [constructor|].
  destruct (point_out sz p) eqn:E; simpl; [assumption|].
  constructor; assumption.
Qed.

Lemma all_out_selects_nothing {A} (l : list A) (out : list bool) :
  forallb (fun b => b) out = true -> mask_select l (map negb out) = [].
Proof.
  revert out; induction l as [|a l IH]; intros [|b out]; simpl; auto.
  destruct b; simpl; [apply IH | discriminate].
Qed.

Lemma zip_with_length {A B C} (f : A -> B -> C) l m :
  length l = length m -> length (zip_with f l m) = length l.
Proof.
  revert m; induction l as [|a l IH]; intros [|b m] Hl; simpl in *;
    try discriminate; auto.
Qed.

Lemma ink_of_trajectory_length stk ps :
  length (ink_of_trajectory stk ps) = length stk.
Proof.
  unfold ink_of_trajectory.
  destruct (Nat.eqb (length stk) 1) eqn:E.
  - apply Nat.eqb_eq in E. now rewrite E.
  - apply Nat.eqb_neq in E.
    rewrite length_map, length_app, length_firstn, !length_map.
    assert (L : length (zip_with psub (tl stk) (removelast stk))
                = (length stk - 1)%nat).
    { rewrite zip_with_length; rewrite length_tl; [reflexivity|].
      rewrite removelast_firstn_len, length_firstn. lia. }
    rewrite L. lia.
Qed.

Lemma adjust_ink_length myink ps :
  length (adjust_ink myink ps) = length myink.
Proof.
  unfold adjust_ink.
  destruct (Rltb _ _); [now rewrite length_map|].
  destruct (Rltb _ _); [now rewrite !length_map | reflexivity].
Qed.

(** The bilinear shares of the four neighbours add up to the ink. *)
Lemma splat_shares_sum (myink : list R) (stk : list point) :
  length myink = length stk ->
  let x := map fst stk in
  let y := map snd stk in
  let x_c_ratio := zip_with Rminus x (map floor x) in
  let y_c_ratio := zip_with Rminus y (map floor y) in
  let x_f_ratio := map (fun c => 1 - c) x_c_ratio in
  let y_f_ratio := map (fun c => 1 - c) y_c_ratio in
  Rsum (zip_with Rmult (zip_with Rmult myink x_f_ratio) y_f_ratio)
  + Rsum (zip_with Rmult (zip_with Rmult myink x_c_ratio) y_f_ratio)
  + Rsum (zip_with Rmult (zip_with Rmult myink x_f_ratio) y_c_ratio)
  + Rsum (zip_with Rmult (zip_with Rmult myink x_c_ratio) y_c_ratio)
  = Rsum myink.
Proof.
  cbv zeta. revert myink.
  induction stk as [|p stk IH]; intros [|m myink] Hl; simpl in *;
    try discriminate; [lra|].
  rewrite <- (IH myink) by lia. ring.
Qed.

Lemma Reqb_false x y : x <> y -> Reqb x y = false.
Proof. intros H. unfold Reqb. now destruct (Req_dec_T x y). Qed.

Lemma Reqb_true x y : x = y -> Reqb x y = true.
Proof. intros H. unfold Reqb. now destruct (Req_dec_T x y). Qed.

(** What [add_stroke] adds to the image: for a trajectory with a point on
    the page, whose ink is a number that can be adjusted in place and
    whose adjusted ink passes the assertion, the call returns and the
    image gains exactly the adjusted ink of the in-bounds points. *)
Lemma add_stroke_total pimg stk ps (H W : nat) :
  shape pimg = [H; W] -> length (data pimg) = (H * W)%nat ->
  let img_stk := space_motor_to_img_pts stk in
  let out := check_bounds img_stk (H, W) in
  let kept := mask_select img_stk (map negb out) in
  let myink := adjust_ink (ink_of_trajectory kept ps) ps in
  kept <> [] ->
  (length kept = 1%nat -> 222 / 100000000 <= ink_pp ps) ->
  (length kept <> 1%nat -> ink_max_dist ps <> 0) ->
  Rsum myink > ink_pp ps - 1 / 10000 ->
  exists pimg',
    add_stroke pimg stk ps = Ok (pimg', existsb (fun b => b) out)
    /\ shape pimg' = [H; W]
    /\ length (data pimg') = (H * W)%nat
    /\ total_ink pimg' = total_ink pimg + Rsum myink.
Proof.
  intros Hs Hd img_stk out kept myink Hne Hleaf Hnum Hassert.
  unfold add_stroke. rewrite Hs. cbn [imsize_of bind].
  fold img_stk. fold out.
  destruct (forallb (fun b => b) out) eqn:Eall.
  { exfalso. apply Hne. unfold kept. now apply all_out_selects_nothing. }
  fold kept.
  replace (negb (Nat.eqb (length kept) 1) && Reqb (ink_max_dist ps) 0)
    with false.
  2:{ destruct (Nat.eqb_spec (length kept) 1) as [E1|E1]; [reflexivity|].
      cbn [negb andb]. symmetry. now apply Reqb_false, Hnum. }
  replace (Nat.eqb (length kept) 1
           && Rltb (Rsum (ink_of_trajectory kept ps)) (222 / 100000000))
    with false.
  2:{ destruct (Nat.eqb_spec (length kept) 1) as [E1|E1]; [|reflexivity].
      cbn [andb]. symmetry. apply Rltb_false.
      unfold ink_of_trajectory. rewrite E1. cbn [Nat.eqb Rsum fold_right].
      specialize (Hleaf E1). lra. }
  cbn [bind]. fold myink.
  replace (Rgtb (Rsum myink) (ink_pp ps - 1 / 10000)) with true
    by (symmetry; apply Rgtb_true; lra).
  cbn [assert bind].
  assert (Hk : Forall (in_image (H, W)) kept) by apply selected_in_image.
  assert (Lm : length myink = length kept).
  { unfold myink. now rewrite adjust_ink_length, ink_of_trajectory_length. }
  pose proof (splat_shares_sum myink kept Lm) as Hsum. cbv zeta in Hsum.
  set (x := map fst kept) in *. set (y := map snd kept) in *.
  set (xc := zip_with Rminus x (map floor x)) in *.
  set (yc := zip_with Rminus y (map floor y)) in *.
  set (xf := map (fun c => 1 - c) xc) in *.
  set (yf := map (fun c => 1 - c) yc) in *.
  assert (Lx : length x = length kept) by (unfold x; apply length_map).
  assert (Ly : length y = length kept) by (unfold y; apply length_map).
  assert (Lxc : length xc = length kept)
    by (unfold xc; rewrite zip_with_length; rewrite ?length_map; lia).
  assert (Lyc : length yc = length kept)
    by (unfold yc; rewrite zip_with_length; rewrite ?length_map; lia).
  assert (Lxf : length xf = length kept)
    by (unfold xf; rewrite length_map; lia).
  assert (Lyf : length yf = length kept)
    by (unfold yf; rewrite length_map; lia).
  assert (Lmi : forall a b, length a = length kept -> length b = length kept ->
            length (zip_with Rmult (zip_with Rmult myink a) b) = length kept).
  { intros a b La Lb. rewrite !zip_with_length; try lia.
    rewrite zip_with_length; lia. }
  destruct (seqadd_total pimg H W (map floor x) (map floor y)
              (zip_with Rmult (zip_with Rmult myink xf) yf))
    as (p1 & E1 & S1 & D1 & T1); try assumption;
    rewrite ?length_map, ?Lmi; try lia.
  { apply neighbours_in_image;
      auto using floor_in_range, ceil_in_range. }
  rewrite E1. cbn [bind].
  destruct (seqadd_total p1 H W (map ceil x) (map floor y)
              (zip_with Rmult (zip_with Rmult myink xc) yf))
    as (p2 & E2 & S2 & D2 & T2); try assumption;
    rewrite ?length_map, ?Lmi; try lia.
  { apply neighbours_in_image;
      auto using floor_in_range, ceil_in_range. }
  rewrite E2. cbn [bind].
  destruct (seqadd_total p2 H W (map floor x) (map ceil y)
              (zip_with Rmult (zip_with Rmult myink xf) yc))
    as (p3 & E3 & S3 & D3 & T3); try assumption;
    rewrite ?length_map, ?Lmi; try lia.
  { apply neighbours_in_image;
      auto using floor_in_range, ceil_in_range. }
  rewrite E3. cbn [bind].
  destruct (seqadd_total p3 H W (map ceil x) (map ceil y)
              (zip_with Rmult (zip_with Rmult myink xc) yc))
    as (p4 & E4 & S4 & D4 & T4); try assumption;
    rewrite ?length_map, ?Lmi; try lia.
  { apply neighbours_in_image;
      auto using floor_in_range, ceil_in_range. }
  rewrite E4. cbn [bind].
  exists p4. repeat split; try assumption. lra.
Qed.

Lemma adjust_ink_uniform myink ps :
  myink <> [] -> Rsum myink < 222 / 100000000 ->
  adjust_ink myink ps = map (fun _ => ink_pp ps / INR (length myink)) myink
  /\ Rsum (adjust_ink myink ps) = ink_pp ps.
Proof.
  intros Hne Hlt. unfold adjust_ink.
  replace (Rltb (Rsum myink) (222 / 100000000)) with true
    by (symmetry; now apply Rltb_true).
  split; [reflexivity|]. rewrite Rsum_const. field.
  apply not_0_INR. destruct myink; [congruence | simpl; lia].
Qed.

Lemma adjust_ink_rescaled myink ps :
  222 / 100000000 <= Rsum myink < ink_pp ps ->
  Rsum (adjust_ink myink ps) = ink_pp ps * (ink_pp ps / Rsum myink)
  /\ Rsum (adjust_ink myink ps) > ink_pp ps.
Proof.
  intros [Hlo Hhi]. unfold adjust_ink.
  replace (Rltb (Rsum myink) (222 / 100000000)) with false
    by (symmetry; now apply Rltb_false).
  replace (Rltb (Rsum myink) (ink_pp ps)) with true
    by (symmetry; now apply Rltb_true).
  rewrite !Rsum_scale.
  set (s := Rsum myink) in *. set (k := ink_pp ps) in *.
  assert (Hs : 0 < s) by lra.
  assert (E : s * (k / s) * (k / s) = k * (k / s)) by (field; lra).
  split; [exact E|]. rewrite E.
  assert (1 < k / s).
  { apply Rmult_lt_reg_r with s; [assumption|].
    replace (k / s * s) with k by (field; lra). lra. }
  nra.
Qed.

Lemma adjust_ink_enough myink ps :
  ink_pp ps <= Rsum myink -> 222 / 100000000 <= Rsum myink ->
  adjust_ink myink ps = myink.
Proof.
  intros Hge Hlo. unfold adjust_ink.
  replace (Rltb (Rsum myink) (222 / 100000000)) with false
    by (symmetry; now apply Rltb_false).
  replace (Rltb (Rsum myink) (ink_pp ps)) with false
    by (symmetry; now apply Rltb_false).
  reflexivity.
Qed.

Lemma total_ink_zeros sz : total_ink (zeros sz) = 0.
Proof.
  unfold total_ink, zeros; cbn [data].
  induction (fst sz * snd sz)%nat; simpl; lra.
Qed.

Lemma norm_vertical (a b c : R) : b <= c -> norm (psub (a, c) (a, b)) = c - b.
Proof.
  intros Hle. unfold norm, psub; cbn [fst snd].
  replace ((a - a) * (a - a) + (c - b) * (c - b)) with ((c - b) * (c - b))
    by ring.
  apply sqrt_square. lra.
Qed.

(** The two image points of the trajectory [(0,0), (1/2,0)]. *)
Lemma half_step_img :
  space_motor_to_img_pts [(0, 0); (1 / 2, 0)] = [(0, 0); (0, 1 / 2)].
Proof.
  unfold space_motor_to_img_pts, space_motor_to_img_pt; cbn [map fst snd].
  entrywise; lra.
Qed.

Lemma half_step_on_page :
  check_bounds [(0, 0); (0, 1 / 2)] (105, 105)%nat = [false; false].
Proof.
  rewrite check_bounds_pointwise; cbn [map].
  entrywise; apply point_out_false; cbn [fst snd];
    rewrite INR_IZR_INZ; simpl Z.of_nat; lra.
Qed.

Lemma half_step_ink :
  ink_of_trajectory [(0, 0); (0, 1 / 2)] example_ps = [1 / 2; 1 / 2].
Proof.
  unfold ink_of_trajectory, example_ps;
    cbn [length Nat.eqb tl removelast zip_with map ink_pp ink_max_dist].
  rewrite norm_vertical by lra.
  replace (Rmin (1 / 2 - 0) 2) with (1 / 2)
    by (rewrite Rmin_left; lra).
  cbn [firstn app map]. entrywise; lra.
Qed.

Lemma half_step_adjusted :
  Rsum (adjust_ink [1 / 2; 1 / 2] example_ps) = 4.
Proof.
  destruct (adjust_ink_rescaled [1 / 2; 1 / 2] example_ps) as [E _].
  - unfold example_ps; cbn [Rsum fold_right ink_pp]; lra.
  - rewrite E. unfold example_ps; cbn [Rsum fold_right ink_pp]. field.
Qed.

(** C1, on the code: the two points [(0,0), (1/2,0)] lie on the page, their
    ink sums to 1, below [ink_pp = 2]; the second branch scales the ink by
    [ink_pp / sumink] in place and once more by [torch.mul], so the stroke
    leaves 4 units of ink on the image, not [ink_pp]. *)
Theorem add_stroke_rescales_twice :
  exists pimg',
    add_stroke (zeros (105, 105)%nat) [(0, 0); (1 / 2, 0)] example_ps
    = Ok (pimg', false)
    /\ total_ink pimg' = 4
    /\ ink_pp example_ps = 2.
Proof.
  destruct (add_stroke_total (zeros (105, 105)%nat) [(0, 0); (1 / 2, 0)]
              example_ps 105 105) as (pimg' & E & _ & _ & T).
  - reflexivity.
  - unfold zeros; cbn [data fst snd]. apply repeat_length.
  - rewrite half_step_img, half_step_on_page. discriminate.
  - rewrite half_step_img, half_step_on_page. discriminate.
  - intros _. unfold example_ps; cbn [ink_max_dist]. lra.
  - rewrite half_step_img, half_step_on_page.
    cbn [map negb mask_select]. rewrite half_step_ink, half_step_adjusted.
    unfold example_ps; cbn [ink_pp]. lra.
  - rewrite half_step_img, half_step_on_page in E, T.
    cbn [map negb mask_select existsb orb] in E, T.
    rewrite half_step_ink, half_step_adjusted, total_ink_zeros in T.
    exists pimg'. repeat split; [exact E | lra].
Qed.

End InkFacts.

(** ** The noise blend of render_image *)

Section NoiseFacts.
Import Rendering.

Variable imfilter : tensor -> tensor -> result tensor.
Variable fspecial : nat -> R -> tensor.
Variable default_parameters : Parameters.

Lemma render_image_steps strokes epsilon blur_sigma ps acc off noiseless :
  strokes <> [] ->
  draw_strokes strokes (zeros (imsize (or_default default_parameters ps)))
    false (or_default default_parameters ps)
  = Ok (acc, off) ->
  broaden_and_blur imfilter fspecial acc blur_sigma
    (or_default default_parameters ps)
  = Ok noiseless ->
  render_image imfilter fspecial default_parameters strokes epsilon
    blur_sigma ps
  = Ok (if Rgtb epsilon 0
        then mkTensor (shape noiseless) (map (blend epsilon) (data noiseless))
        else noiseless, off).
Proof.
  intros Hne Hdraw Hbb. unfold render_image. cbv zeta.
  destruct strokes as [|stk rest]; [congruence|].
  rewrite Hdraw. cbn [bind fst snd]. rewrite Hbb. reflexivity.
Qed.

Lemma blend_centered epsilon p :
  blend epsilon p - 1 / 2 = (1 - 2 * epsilon) * (p - 1 / 2).
Proof. unfold blend. field. Qed.

Lemma blend_closer epsilon p :
  0 < epsilon < 1 -> p <> 1 / 2 ->
  Rabs (blend epsilon p - 1 / 2) < Rabs (p - 1 / 2).
Proof.
  intros He Hp. rewrite blend_centered, Rabs_mult.
  assert (0 < Rabs (p - 1 / 2)) by (apply Rabs_pos_lt; lra).
  assert (Rabs (1 - 2 * epsilon) < 1) by (apply Rabs_def1; lra).
  nra.
Qed.

Lemma blend_half epsilon : blend epsilon (1 / 2) = 1 / 2.
Proof. unfold blend. field. Qed.

Lemma blend_mirror p : Rabs (blend 1 p - 1 / 2) = Rabs (p - 1 / 2).
Proof.
  rewrite blend_centered.
  replace ((1 - 2 * 1) * (p - 1 / 2)) with (- (p - 1 / 2)) by ring.
  apply Rabs_Ropp.
Qed.

(** C5, as the code has it: without noise ([epsilon <= 0], in particular
    [epsilon = 0]) the result is the broadened and blurred image itself; with
    [epsilon > 0] every pixel [p] becomes [(1-epsilon)*p + epsilon*(1-p)],
    which for [epsilon < 1] is strictly closer to 1/2 than [p] unless [p]
    is 1/2 already, a value the blend leaves where it is. *)
Theorem render_image_noise strokes epsilon blur_sigma ps acc off noiseless :
  strokes <> [] ->
  draw_strokes strokes (zeros (imsize (or_default default_parameters ps)))
    false (or_default default_parameters ps) = Ok (acc, off) ->
  broaden_and_blur imfilter fspecial acc blur_sigma
    (or_default default_parameters ps) = Ok noiseless ->
  (epsilon <= 0 ->
   render_image imfilter fspecial default_parameters strokes epsilon
     blur_sigma ps = Ok (noiseless, off))
  /\ (epsilon > 0 ->
      exists noisy,
        render_image imfilter fspecial default_parameters strokes epsilon
          blur_sigma ps = Ok (noisy, off)
        /\ shape noisy = shape noiseless
        /\ data noisy
           = map (fun p => (1 - epsilon) * p + epsilon * (1 - p))
               (data noiseless)
        /\ forall i p, nth_error (data noiseless) i = Some p ->
             exists r, nth_error (data noisy) i = Some r
               /\ r = (1 - epsilon) * p + epsilon * (1 - p)
               /\ (epsilon < 1 -> p <> 1 / 2 ->
                   Rabs (r - 1 / 2) < Rabs (p - 1 / 2))
               /\ (p = 1 / 2 -> r = 1 / 2)).
Proof.
  intros Hne Hdraw Hbb.
  rewrite (render_image_steps _ epsilon _ _ _ _ _ Hne Hdraw Hbb).
  split; intros He.
  - replace (Rgtb epsilon 0) with false
      by (symmetry; now apply Rgtb_false).
    reflexivity.
  - replace (Rgtb epsilon 0) with true
      by (symmetry; apply Rgtb_true; lra).
    eexists; split; [reflexivity|]. cbn [shape data].
    split; [reflexivity|]. split; [reflexivity|].
    intros i p Hp. exists (blend epsilon p).
    split; [now apply map_nth_error|]. split; [reflexivity|]. split.
    + intros Hlt Hneq. apply blend_closer; [lra | assumption].
    + intros ->. apply blend_half.
Qed.

End NoiseFacts.

Section NoiseExamples.
Import Rendering.

(** A stroke whose only point is off the page leaves the image blank. *)
Lemma off_page_point_draw ps :
  draw_strokes [[(1, 1)]] (zeros (imsize ps)) false ps
  = Ok (zeros (imsize ps), true).
Proof.
  unfold draw_strokes, add_stroke. cbn [zeros shape imsize_of bind].
  rewrite check_bounds_pointwise.
  unfold space_motor_to_img_pts, space_motor_to_img_pt; cbn [map fst snd].
  replace (point_out (fst (imsize ps), snd (imsize ps)) (1 * -1, 1 * 1))
    with true.
  - reflexivity.
  - symmetry. apply point_out_true; cbn [fst snd]. left; left.
    apply floor_neg_iff. lra.
Qed.

Lemma no_filter_times n pimg H : filter_times no_filter n pimg H = Ok pimg.
Proof. induction n; simpl; auto. Qed.

Lemma no_filter_broaden ps pimg :
  broaden_mode ps = "Lake"%string ->
  broaden_and_blur no_filter unit_kernel pimg 0 ps
  = Ok (clamp 0 1 (clamp_max 1 pimg)).
Proof.
  intros Hmode. unfold broaden_and_blur. rewrite Hmode.
  cbn [String.eqb Ascii.eqb Bool.eqb bind].
  rewrite no_filter_times. cbn [bind].
  replace (Rgtb 0 0) with false by (symmetry; apply Rgtb_false; lra).
  reflexivity.
Qed.

Lemma render_image_noise_witness :
  render_image no_filter unit_kernel example_ps [[(1, 1)]] 0 0
    (Some example_ps)
  = Ok (clamp 0 1 (clamp_max 1 (zeros (imsize example_ps))), true)
  /\ exists noisy,
       render_image no_filter unit_kernel example_ps [[(1, 1)]] (1 / 10) 0
         (Some example_ps) = Ok (noisy, true)
       /\ shape noisy
          = shape (clamp 0 1 (clamp_max 1 (zeros (imsize example_ps))))
       /\ data noisy
          = map (fun p => (1 - 1 / 10) * p + 1 / 10 * (1 - p))
              (data (clamp 0 1 (clamp_max 1 (zeros (imsize example_ps)))))
       /\ forall i p,
            nth_error
              (data (clamp 0 1 (clamp_max 1 (zeros (imsize example_ps))))) i
            = Some p ->
            exists r, nth_error (data noisy) i = Some r
              /\ r = (1 - 1 / 10) * p + 1 / 10 * (1 - p)
              /\ (1 / 10 < 1 -> p <> 1 / 2 ->
                  Rabs (r - 1 / 2) < Rabs (p - 1 / 2))
              /\ (p = 1 / 2 -> r = 1 / 2).
Proof.
  assert (Hne : [[(1, 1)]] <> @nil (list point)) by discriminate.
  split.
  - destruct (render_image_noise no_filter unit_kernel example_ps
                [[(1, 1)]] 0 0 (Some example_ps)
                (zeros (imsize example_ps)) true
                (clamp 0 1 (clamp_max 1 (zeros (imsize example_ps))))
                Hne (off_page_point_draw example_ps)
                (no_filter_broaden example_ps _ eq_refl)) as [H0 _].
    apply H0. lra.
  - destruct (render_image_noise no_filter unit_kernel example_ps
                [[(1, 1)]] (1 / 10) 0 (Some example_ps)
                (zeros (imsize example_ps)) true
                (clamp 0 1 (clamp_max 1 (zeros (imsize example_ps))))
                Hne (off_page_point_draw example_ps)
                (no_filter_broaden example_ps _ eq_refl)) as [_ H1].
    apply H1. lra.
Defined.

Lemma blank_pixel_clamped :
  clamp 0 1 (clamp_max 1 (zeros (imsize pixel_ps)))
  = mkTensor [1%nat; 1%nat] [0].
Proof.
  unfold clamp, clamp_max, zeros, pixel_ps;
    cbn [imsize fst snd Nat.mul Nat.add repeat shape data map].
  do 2 f_equal.
  rewrite (Rmin_left 0 1) by lra. rewrite Rmax_left by lra.
  apply Rmin_left; lra.
Qed.

(** One point at the origin puts its half unit of ink on the pixel. *)
Lemma origin_point_draw :
  draw_strokes [[(0, 0)]] (zeros (imsize half_ink_ps)) false half_ink_ps
  = Ok (mkTensor [1%nat; 1%nat] [1 / 2], false).
Proof.
  assert (Ei : space_motor_to_img_pts [(0, 0)] = [(0, 0)]).
  { unfold space_motor_to_img_pts, space_motor_to_img_pt; cbn [map fst snd].
    entrywise; lra. }
  assert (Eo : check_bounds [(0, 0)] (1, 1)%nat = [false]).
  { rewrite check_bounds_pointwise; cbn [map]. entrywise.
    apply point_out_false; cbn [fst snd]. simpl; lra. }
  assert (Ek : adjust_ink (ink_of_trajectory [(0, 0)] half_ink_ps) half_ink_ps
               = [1 / 2]).
  { unfold ink_of_trajectory; cbn [length Nat.eqb half_ink_ps ink_pp].
    apply adjust_ink_enough; cbn [Rsum fold_right half_ink_ps ink_pp]; lra. }
  destruct (add_stroke_total (zeros (imsize half_ink_ps)) [(0, 0)]
              half_ink_ps 1 1) as (pimg' & E & S & L & T).
  - reflexivity.
  - reflexivity.
  - rewrite Ei, Eo. discriminate.
  - intros _. cbn [half_ink_ps ink_pp]. lra.
  - rewrite Ei, Eo. intros E. now contradiction E.
  - rewrite Ei, Eo. cbn [map negb mask_select]. rewrite Ek.
    cbn [Rsum fold_right half_ink_ps ink_pp]. lra.
  - rewrite Ei, Eo in E, T. cbn [map negb mask_select existsb orb] in E, T.
    rewrite Ek, total_ink_zeros in T.
    cbn [draw_strokes]. rewrite E. cbn [bind fst snd orb].
    destruct pimg' as [sh d]. cbn [shape data] in S, L. unfold total_ink in T.
    cbn [data] in T. subst sh.
    destruct d as [|v [|w d]]; try discriminate L.
    cbn [Rsum fold_right] in T.
    replace v with (1 / 2) by lra. reflexivity.
Qed.

Lemma no_broadening imfilter fspecial ps pimg :
  ink_ncon ps = 0%nat -> broaden_mode ps = "Lake"%string ->
  broaden_and_blur imfilter fspecial pimg 0 ps
  = Ok (clamp 0 1 (clamp_max 1 pimg)).
Proof.
  intros Hn Hmode. unfold broaden_and_blur. rewrite Hmode, Hn.
  cbn [String.eqb Ascii.eqb Bool.eqb bind filter_times].
  replace (Rgtb 0 0) with false by (symmetry; apply Rgtb_false; lra).
  reflexivity.
Qed.

Lemma half_pixel_clamped :
  clamp 0 1 (clamp_max 1 (mkTensor [1%nat; 1%nat] [1 / 2]))
  = mkTensor [1%nat; 1%nat] [1 / 2].
Proof.
  unfold clamp, clamp_max; cbn [shape data map]. do 2 f_equal.
  rewrite (Rmin_left (1 / 2) 1) by lra. rewrite Rmax_left by lra.
  apply Rmin_left; lra.
Qed.

(** With no broadening pass the filters are not called: the pixel is 1/2
    without noise, and 1/2 with it. *)
Lemma half_pixel_render imfilter fspecial dp epsilon :
  render_image imfilter fspecial dp [[(0, 0)]] epsilon 0 (Some half_ink_ps)
  = Ok (mkTensor [1%nat; 1%nat] [1 / 2], false).
Proof.
  rewrite (render_image_steps imfilter fspecial dp [[(0, 0)]] epsilon 0
             (Some half_ink_ps) (mkTensor [1%nat; 1%nat] [1 / 2]) false
             (mkTensor [1%nat; 1%nat] [1 / 2]));
    [| discriminate | apply origin_point_draw
     | cbn [or_default]; rewrite no_broadening by reflexivity;
       now rewrite half_pixel_clamped].
  destruct (Rgtb epsilon 0); [|reflexivity].
  cbn [shape data map]. now rewrite blend_half.
Qed.

(** C5, as the claim has it, fails in two ways.  At [epsilon = 1], whatever
    the filters are, no pixel of the noisy image is strictly closer to 1/2
    than the noiseless one: on a one-pixel image and a stroke off the page
    the blank pixel 0 becomes 1, as far from 1/2 as before.  And a pixel at
    1/2 stays there for every [epsilon]: with half a unit of ink on the
    pixel and no broadening pass, the render at [epsilon = 1/10] is the
    noiseless one, whatever the filters are. *)
Lemma render_image_full_noise_not_closer :
  (~ exists imfilter fspecial dp noisy noiseless off off' i p r,
       render_image imfilter fspecial dp [[(1, 1)]] 1 0 (Some pixel_ps)
       = Ok (noisy, off)
       /\ render_image imfilter fspecial dp [[(1, 1)]] 0 0 (Some pixel_ps)
          = Ok (noiseless, off')
       /\ nth_error (data noiseless) i = Some p
       /\ nth_error (data noisy) i = Some r
       /\ Rabs (r - 1 / 2) < Rabs (p - 1 / 2))
  /\ render_image no_filter unit_kernel pixel_ps [[(1, 1)]] 0 0 (Some pixel_ps)
     = Ok (mkTensor [1%nat; 1%nat] [0], true)
  /\ render_image no_filter unit_kernel pixel_ps [[(1, 1)]] 1 0 (Some pixel_ps)
     = Ok (mkTensor [1%nat; 1%nat] [1], true)
  /\ ~ Rabs (1 - 1 / 2) < Rabs (0 - 1 / 2)
  /\ (forall imfilter fspecial dp,
        render_image imfilter fspecial dp [[(0, 0)]] 0 0 (Some half_ink_ps)
        = Ok (mkTensor [1%nat; 1%nat] [1 / 2], false)
        /\ render_image imfilter fspecial dp [[(0, 0)]] (1 / 10) 0
             (Some half_ink_ps)
           = Ok (mkTensor [1%nat; 1%nat] [1 / 2], false))
  /\ ~ Rabs (1 / 2 - 1 / 2) < Rabs (1 / 2 - 1 / 2).
Proof.
  split; [|split; [|split; [|split; [|split]]]];
    [| | | | intros; split; apply half_pixel_render | lra].
  - intros (imf & fsp & dp & noisy & noiseless & off & off' & i & p & r
            & E1 & E0 & Hp & Hr & Hlt).
    unfold render_image in E1, E0. cbv zeta in E1, E0.
    cbn [or_default] in E1, E0.
    rewrite off_page_point_draw in E1, E0. cbn [bind fst snd] in E1, E0.
    destruct (broaden_and_blur imf fsp (zeros (imsize pixel_ps)) 0 pixel_ps)
      as [img|e]; cbn [bind] in E1, E0; [|discriminate].
    replace (Rgtb 1 0) with true in E1 by (symmetry; apply Rgtb_true; lra).
    replace (Rgtb 0 0) with false in E0 by (symmetry; apply Rgtb_false; lra).
    inversion E1; inversion E0; subst. cbn [data] in Hr.
    rewrite (map_nth_error _ _ _ Hp) in Hr. inversion Hr; subst.
    rewrite blend_mirror in Hlt. lra.
  - rewrite (render_image_steps no_filter unit_kernel pixel_ps [[(1, 1)]]
               0 0 (Some pixel_ps) (zeros (imsize pixel_ps)) true
               (clamp 0 1 (clamp_max 1 (zeros (imsize pixel_ps)))));
      [| discriminate | apply off_page_point_draw
       | now apply no_filter_broaden].
    replace (Rgtb 0 0) with false by (symmetry; apply Rgtb_false; lra).
    now rewrite blank_pixel_clamped.
  - rewrite (render_image_steps no_filter unit_kernel pixel_ps [[(1, 1)]]
               1 0 (Some pixel_ps) (zeros (imsize pixel_ps)) true
               (clamp 0 1 (clamp_max 1 (zeros (imsize pixel_ps)))));
      [| discriminate | apply off_page_point_draw
       | now apply no_filter_broaden].
    replace (Rgtb 1 0) with true by (symmetry; apply Rgtb_true; lra).
    rewrite blank_pixel_clamped. cbn [shape data map].
    replace (blend 1 0) with 1 by (unfold blend; lra). reflexivity.
  - replace (1 - 1 / 2) with (1 / 2) by lra.
    replace (0 - 1 / 2) with (- (1 / 2)) by lra.
    rewrite Rabs_Ropp. lra.
Qed.

End NoiseExamples.

(** ** Continuity of the motor trajectory *)

Section MotorFacts.
Import Rendering Part.

Variable get_stk_from_bspline : list point -> nat -> result (list point).

(** The contract of the spline evaluation: [neval] points come back. *)
Hypothesis spline_evaluates :
  forall cpts neval, exists traj,
    get_stk_from_bspline cpts neval = Ok traj /\ length traj = neval.

Lemma set_nth_length {A} (l : list A) n v : length (set_nth l n v) = length l.
Proof. revert n; induction l; intros [|n]; simpl; auto. Qed.

Lemma nth_set_nth_same {A} (l : list A) n v d :
  (n < length l)%nat -> nth n (set_nth l n v) d = v.
Proof.
  revert n; induction l; intros [|n] Hn; simpl in *; try lia; auto.
  apply IHl; lia.
Qed.

Lemma nth_set_nth_other {A} (l : list A) n m v d :
  n <> m -> nth m (set_nth l n v) d = nth m l d.
Proof.
  revert n m; induction l; intros [|n] [|m] Hnm; simpl; auto; try lia.
Qed.

Lemma first_point_shifted (traj : list point) (t0 prev : point) :
  first_point traj = Ok t0 ->
  first_point (map (fun p => psub p (psub t0 prev)) traj) = Ok prev.
Proof.
  destruct traj as [|p traj]; simpl; [discriminate|].
  intros E; inversion E; subst. f_equal.
  destruct t0, prev; unfold psub; simpl. f_equal; ring.
Qed.

Lemma last_point_nonempty (traj : list point) :
  traj <> [] -> exists p, last_point traj = Ok p.
Proof. destruct traj; [congruence | simpl; eauto]. Qed.

(** One turn of the loop: row [i] is written, it starts at
    [previous_pos], and the next [previous_pos] is its last point. *)
Lemma motor_step_spec shapes invscales ncpt nsub neval i motor ms prev :
  (i < length motor)%nat -> (i < length (data invscales))%nat ->
  (1 <= neval)%nat ->
  exists motor' ms' prev',
    motor_step get_stk_from_bspline shapes invscales ncpt nsub neval i
      (motor, ms, prev) = Ok (motor', ms', prev')
    /\ length motor' = length motor
    /\ shape ms' = shape ms
    /\ (forall j, j <> i -> nth j motor' [] = nth j motor [])
    /\ length (nth i motor' []) = neval
    /\ first_point (nth i motor' []) = Ok prev
    /\ last_point (nth i motor' []) = Ok prev'.
Proof.
  intros Hi Hinv Hn. unfold motor_step, get_item.
  destruct (nth_error (data invscales) i) as [s|] eqn:Es;
    [|apply nth_error_None in Es; lia].
  cbn [bind].
  destruct (spline_evaluates
              (map (pscale s) (sub_stroke shapes ncpt nsub i)) neval)
    as (traj & Et & Lt).
  rewrite Et. cbn [bind].
  destruct traj as [|t0 traj]; [simpl in Lt; lia|].
  cbn [first_point bind].
  set (shifted := map (fun p => psub p (psub t0 prev)) (t0 :: traj)).
  assert (Ls : length shifted = neval)
    by (unfold shifted; now rewrite length_map).
  unfold set_row. rewrite Ls, Nat.eqb_refl. cbn [bind].
  rewrite nth_set_nth_same by assumption.
  destruct (last_point_nonempty shifted) as (q & Eq).
  { unfold shifted; simpl; discriminate. }
  rewrite Eq. cbn [bind].
  do 3 eexists. split; [reflexivity|].
  rewrite set_nth_length. cbn [shape].
  repeat split; try assumption.
  - intros j Hj. apply nth_set_nth_other. congruence.
  - rewrite nth_set_nth_same by assumption. assumption.
  - rewrite nth_set_nth_same by assumption.
    unfold shifted. now apply first_point_shifted.
  - rewrite nth_set_nth_same by assumption. assumption.
Qed.

(** The loop over [range(k, k+n)]: rows outside the range are left alone;
    each row of the range starts where the row before it ends, the first
    of them at [previous_pos]. *)
Lemma motor_loop_spec shapes invscales ncpt nsub neval n :
  (1 <= neval)%nat ->
  forall k motor ms prev,
    (k + n <= length motor)%nat -> (k + n <= length (data invscales))%nat ->
    exists motor' ms' prev',
      motor_loop get_stk_from_bspline shapes invscales ncpt nsub neval
        (seq k n) (motor, ms, prev) = Ok (motor', ms', prev')
      /\ length motor' = length motor
      /\ shape ms' = shape ms
      /\ (forall j, (j < k \/ k + n <= j)%nat ->
                    nth j motor' [] = nth j motor [])
      /\ (forall j, (k <= j < k + n)%nat ->
            length (nth j motor' []) = neval
            /\ first_point (nth j motor' [])
               = if Nat.eqb j k then Ok prev
                 else last_point (nth (j - 1) motor' [])).
Proof.
  intros Hn. induction n as [|n IH]; intros k motor ms prev Hm Hi.
  - exists motor, ms, prev. simpl. repeat split; intros; lia.
  - cbn [seq motor_loop].
    destruct (motor_step_spec shapes invscales ncpt nsub neval k motor ms
                prev) as (m1 & ms1 & p1 & E1 & L1 & S1 & O1 & N1 & F1 & P1);
      try lia.
    rewrite E1. cbn [bind].
    destruct (IH (S k) m1 ms1 p1) as (m2 & ms2 & p2 & E2 & L2 & S2 & O2 & R2);
      try lia.
    rewrite E2. exists m2, ms2, p2.
    split; [reflexivity|]. split; [lia|]. split; [congruence|]. split.
    + intros j Hj. rewrite O2 by lia. apply O1. lia.
    + intros j Hj. destruct (Nat.eq_dec j k) as [->|Hjk].
      * rewrite Nat.eqb_refl, O2 by lia. split; assumption.
      * destruct (R2 j) as [Lj Fj]; [lia|]. split; [assumption|].
        rewrite Fj. replace (Nat.eqb j k) with false
          by (symmetry; apply Nat.eqb_neq; assumption).
        destruct (Nat.eqb j (S k)) eqn:Ej; [|reflexivity].
        apply Nat.eqb_eq in Ej; subst j.
        replace (S k - 1)%nat with k by lia.
        rewrite O2 by lia. symmetry; assumption.
Qed.

Lemma shape_eqb_refl sh : shape_eqb sh sh = true.
Proof.
  unfold shape_eqb. destruct (list_eq_dec Nat.eq_dec sh sh); congruence.
Qed.

(** C4: on shapes of shape [(ncpt, 2, nsub)], inverse scales of shape
    [(nsub,)], a position of shape [(2,)] and at least one evaluation point,
    [vanilla_to_motor] returns, the first sub-stroke starts at [first_pos],
    and every further sub-stroke starts at the last point of the one
    before it. *)
Theorem vanilla_to_motor_continuous
  (shapes invscales first_pos : tensor) (neval ncpt nsub : nat) (px py : R) :
  shape shapes = [ncpt; 2%nat; nsub] ->
  shape invscales = [nsub] -> length (data invscales) = nsub ->
  shape first_pos = [2%nat] -> data first_pos = [px; py] ->
  (1 <= neval)%nat ->
  exists motor motor_spline,
    vanilla_to_motor get_stk_from_bspline (Some shapes) (Some invscales)
      (Some first_pos) neval = Ok (motor, motor_spline)
    /\ length motor = nsub
    /\ shape motor_spline = [ncpt; 2%nat; nsub]
    /\ (forall i, (i < nsub)%nat -> length (nth i motor []) = neval)
    /\ ((0 < nsub)%nat -> first_point (nth 0 motor []) = Ok (px, py))
    /\ (forall i, (i + 1 < nsub)%nat ->
          exists p, last_point (nth i motor []) = Ok p
                    /\ first_point (nth (i + 1) motor []) = Ok p).
Proof.
  intros Hs Hi Li Hp Dp Hn. unfold vanilla_to_motor.
  cbn [not_none bind]. rewrite Hs, Hi, Hp, Dp, shape_eqb_refl.
  cbn [length nth Nat.eqb assert bind].
  destruct (motor_loop_spec shapes invscales ncpt nsub neval nsub Hn 0
              (repeat (repeat (0, 0) neval) nsub)
              (mkTensor [ncpt; 2%nat; nsub] (repeat 0 (length (data shapes))))
              (px, py))
    as (m & ms & pv & E & L & S & _ & R);
    try (rewrite ?repeat_length; simpl; lia).
  rewrite E. cbn [bind]. exists m, ms.
  rewrite repeat_length in L. cbn [shape] in S.
  split; [reflexivity|]. split; [assumption|]. split; [assumption|].
  split; [|split].
  - intros i Hlt. apply R. lia.
  - intros Hpos. destruct (R 0%nat) as [_ F]; [lia|]. exact F.
  - intros i Hlt. destruct (R (i + 1)%nat) as [_ F]; [lia|].
    replace (Nat.eqb (i + 1) 0) with false in F
      by (symmetry; apply Nat.eqb_neq; lia).
    replace (i + 1 - 1)%nat with i in F by lia.
    destruct (R i) as [Li' _]; [lia|].
    destruct (last_point_nonempty (nth i m [])) as (q & Eq).
    { intros En. rewrite En in Li'. simpl in Li'. lia. }
    exists q. split; [assumption|]. now rewrite F.
Qed.

(** C7: without a position both properties fail on their assertion; with
    one, both are the two components of what [vanilla_to_motor] returns on
    the token's shapes, inverse scales and position, and they succeed on a
    token of the documented shapes. *)
Theorem motor_needs_position (self : StrokeToken) :
  (position self = None ->
   motor get_stk_from_bspline self = Raise AssertionError
   /\ motor_spline get_stk_from_bspline self = Raise AssertionError)
  /\ (forall pos, position self = Some pos ->
      let call :=
        vanilla_to_motor get_stk_from_bspline (Some (value (shapes self)))
          (Some (value (invscales self))) (Some (value pos)) 200 in
      motor get_stk_from_bspline self = fmap fst call
      /\ motor_spline get_stk_from_bspline self = fmap snd call
      /\ forall ncpt nsub px py,
           shape (value (shapes self)) = [ncpt; 2%nat; nsub] ->
           shape (value (invscales self)) = [nsub] ->
           length (data (value (invscales self))) = nsub ->
           shape (value pos) = [2%nat] -> data (value pos) = [px; py] ->
           exists m s, call = Ok (m, s)
                       /\ motor get_stk_from_bspline self = Ok m
                       /\ motor_spline get_stk_from_bspline self = Ok s).
Proof.
  split.
  - intros Hnone. unfold motor, motor_spline. rewrite Hnone. split; reflexivity.
  - intros pos Hpos call.
    assert (Em : motor get_stk_from_bspline self = fmap fst call)
      by (unfold motor; rewrite Hpos; reflexivity).
    assert (Es : motor_spline get_stk_from_bspline self = fmap snd call)
      by (unfold motor_spline; rewrite Hpos; reflexivity).
    split; [assumption|]. split; [assumption|].
    intros ncpt nsub px py Hs Hi Li Hp Dp.
    destruct (vanilla_to_motor_continuous (value (shapes self))
                (value (invscales self)) (value pos) 200 ncpt nsub px py)
      as (m & s & E & _); try assumption; try lia.
    exists m, s. fold call in E. rewrite Em, Es, E. repeat split.
Qed.

End MotorFacts.

Section TokenFacts.
Import Rendering Part.

Lemma polyline_spline_evaluates cpts neval :
  exists traj, polyline_spline cpts neval = Ok traj /\ length traj = neval.
Proof.
  eexists; split; [reflexivity|]. now rewrite length_map, length_seq.
Qed.

Lemma vanilla_to_motor_continuous_witness :
  exists motor motor_spline,
    vanilla_to_motor polyline_spline (Some shapes_token)
      (Some invscales_token) (Some position_token) 200
    = Ok (motor, motor_spline)
    /\ length motor = 3%nat
    /\ shape motor_spline = [5%nat; 2%nat; 3%nat]
    /\ (forall i, (i < 3)%nat -> length (nth i motor []) = 200%nat)
    /\ ((0 < 3)%nat ->
        first_point (nth 0 motor []) = Ok (7425 / 100, -1328 / 100))
    /\ (forall i, (i + 1 < 3)%nat ->
          exists p, last_point (nth i motor []) = Ok p
                    /\ first_point (nth (i + 1) motor []) = Ok p).
Proof.
  apply (vanilla_to_motor_continuous polyline_spline
           polyline_spline_evaluates shapes_token invscales_token
           position_token 200 5 3 (7425 / 100) (-1328 / 100));
    first [reflexivity | lia].
Defined.

Lemma motor_needs_position_witness :
  (motor polyline_spline fresh_token = Raise AssertionError
   /\ motor_spline polyline_spline fresh_token = Raise AssertionError)
  /\ exists m s,
       vanilla_to_motor polyline_spline (Some shapes_token)
         (Some invscales_token) (Some position_token) 200 = Ok (m, s)
       /\ motor polyline_spline test_token = Ok m
       /\ motor_spline polyline_spline test_token = Ok s.
Proof.
  split.
  - apply (proj1 (motor_needs_position polyline_spline
                    polyline_spline_evaluates fresh_token)).
    reflexivity.
  - destruct (proj2 (motor_needs_position polyline_spline
                       polyline_spline_evaluates test_token)
                (mkParam position_token false) eq_refl) as (_ & _ & H).
    apply (H 5%nat 3%nat (7425 / 100) (-1328 / 100)); reflexivity.
Defined.

Lemma stacked_column_pair xlim ylim j d :
  shape xlim = [2%nat] -> shape ylim = [2%nat] -> (j < 2)%nat ->
  exists col, stacked_column xlim ylim j d = Ok col.
Proof.
  intros Sx Sy Hj. unfold stacked_column.
  rewrite Sx, Sy, shape_eqb_refl.
  replace (Nat.ltb j 2) with true by (symmetry; apply Nat.ltb_lt; lia).
  eauto.
Qed.

(** C9: on a token without a position, [parameters] returns three entries,
    the third of them [None]; [train] and [eval] raise on that entry (an
    [AttributeError] of [None], not an assertion), after setting the flag
    of the two tensors before it; [lbs] and [ubs], which do not read the
    position, return their three bounds. *)
Theorem unset_position_parameters (self : StrokeToken) (eps : R) :
  position self = None ->
  shape (xlim self) = [2%nat] -> shape (ylim self) = [2%nat] ->
  parameters self = [Some (shapes self); Some (invscales self); None]
  /\ train self
     = ([Some (mkParam (value (shapes self)) true);
         Some (mkParam (value (invscales self)) true); None],
        Raise AttributeError)
  /\ eval self
     = ([Some (mkParam (value (shapes self)) false);
         Some (mkParam (value (invscales self)) false); None],
        Raise AttributeError)
  /\ (exists lb,
        lbs self eps
        = Ok [None; Some (full (shape (value (invscales self))) eps); Some lb])
  /\ (exists ub, ubs self eps = Ok [None; None; Some ub]).
Proof.
  intros Hnone Sx Sy. unfold train, eval, parameters.
  rewrite Hnone. repeat split.
  - destruct (stacked_column_pair (xlim self) (ylim self) 0 eps)
      as (lb & E); try assumption; [lia|].
    exists lb. unfold lbs. now rewrite E.
  - destruct (stacked_column_pair (xlim self) (ylim self) 1 (- eps))
      as (ub & E); try assumption; [lia|].
    exists ub. unfold ubs. now rewrite E.
Qed.

Lemma unset_position_parameters_witness :
  parameters fresh_token
  = [Some (shapes fresh_token); Some (invscales fresh_token); None]
  /\ train fresh_token
     = ([Some (mkParam (value (shapes fresh_token)) true);
         Some (mkParam (value (invscales fresh_token)) true); None],
        Raise AttributeError)
  /\ eval fresh_token
     = ([Some (mkParam (value (shapes fresh_token)) false);
         Some (mkParam (value (invscales fresh_token)) false); None],
        Raise AttributeError)
  /\ (exists lb,
        lbs fresh_token (1 / 10000)
        = Ok [None;
              Some (full (shape (value (invscales fresh_token))) (1 / 10000));
              Some lb])
  /\ (exists ub, ubs fresh_token (1 / 10000) = Ok [None; None; Some ub]).
Proof.
  apply (unset_position_parameters fresh_token (1 / 10000)); reflexivity.
Defined.

End TokenFacts.

(** ** The histograms of the spatial model *)

Section SpatialFacts.
Import Rendering SpatialModel.
Open Scope Z_scope.

(** The histograms of the constructor are fit on the rows the masks
    select, one histogram per mask, [clump_id - 1] of them before the
    pooled one. *)
Lemma SpatialModel_init_masks data_start data_id clump_id xlim ylim nbin pc :
  length data_id = length data_start ->
  SpatialModel_init data_start data_id clump_id xlim ylim nbin pc
  = Ok (map (fun mask =>
               mkSpatialHist (mask_select data_start mask) xlim ylim nbin pc)
          (label_masks data_id clump_id))
  /\ length (label_masks data_id clump_id)
     = (Z.to_nat (clump_id - 1) + 1)%nat.
Proof.
  intros Hl. unfold SpatialModel_init, label_masks, range.
  rewrite Hl, Nat.eqb_refl. cbn [assert bind].
  rewrite map_app, !map_map, length_app, !length_map, length_seq.
  split; reflexivity.
Qed.

Lemma nth_map_label (f : Z -> bool) (data_id : list Z) (k : nat) (l : Z) :
  nth_error data_id k = Some l -> nth k (map f data_id) false = f l.
Proof.
  revert k; induction data_id as [|d data_id IH]; intros [|k] H;
    simpl in *; try discriminate.
  - now inversion H.
  - now apply IH.
Qed.

Lemma count_in_range (l : Z) (a m : nat) :
  length (filter (fun i => Z.eqb l i) (map Z.of_nat (seq a m)))
  = if (Z.of_nat a <=? l) && (l <? Z.of_nat (a + m)) then 1%nat else 0%nat.
Proof.
  revert a; induction m as [|m IH]; intros a.
  - simpl.
    destruct (Z.leb_spec (Z.of_nat a) l), (Z.ltb_spec l (Z.of_nat (a + 0)));
      simpl; try reflexivity; lia.
  - cbn [seq map filter]. rewrite <- Nat.add_succ_comm.
    destruct (Z.eqb_spec l (Z.of_nat a)) as [->|Hne]; cbn [length]; rewrite IH.
    + destruct (Z.leb_spec (Z.of_nat (S a)) (Z.of_nat a)),
        (Z.leb_spec (Z.of_nat a) (Z.of_nat a)),
        (Z.ltb_spec (Z.of_nat a) (Z.of_nat (S a + m)));
        simpl; try reflexivity; lia.
    + destruct (Z.leb_spec (Z.of_nat (S a)) l),
        (Z.leb_spec (Z.of_nat a) l),
        (Z.ltb_spec l (Z.of_nat (S a + m)));
        simpl; try reflexivity; lia.
Qed.

(** Row [k], of label [l], is used by the histogram of index [l] when
    [0 <= l < clump_id - 1], by the pooled one when [l >= clump_id], and by
    no other. *)
Lemma times_used_spec (data_id : list Z) (clump_id : Z) (k : nat) (l : Z) :
  nth_error data_id k = Some l ->
  times_used data_id clump_id k
  = ((if ((0 <=? l) && (l <? clump_id - 1))%Z then 1 else 0)
     + (if (l >=? clump_id)%Z then 1 else 0))%nat.
Proof.
  intros Hk. unfold times_used, label_masks.
  rewrite filter_app, length_app. f_equal.
  - unfold range.
    transitivity
      (length (filter (fun i => Z.eqb l i)
                 (map Z.of_nat (seq 0 (Z.to_nat (clump_id - 1)))))).
    + induction (map Z.of_nat (seq 0 (Z.to_nat (clump_id - 1))))
        as [|i r IH]; [reflexivity|].
      cbn [map filter]. rewrite (nth_map_label _ _ _ _ Hk).
      destruct (Z.eqb l i); cbn [length]; now rewrite IH.
    + rewrite count_in_range. simpl Z.of_nat.
      destruct (Z.leb_spec 0 l), (Z.ltb_spec l (clump_id - 1)),
        (Z.ltb_spec l (Z.of_nat (Z.to_nat (clump_id - 1))));
        simpl; try reflexivity; lia.
  - cbn [filter]. rewrite (nth_map_label _ _ _ _ Hk).
    destruct (l >=? clump_id); reflexivity.
Qed.

(** A position labelled [clump_id - 1] is used by no histogram. *)
Lemma label_before_clump_unused (data_id : list Z) (clump_id : Z) (k : nat) :
  nth_error data_id k = Some (clump_id - 1) ->
  times_used data_id clump_id k = 0%nat.
Proof.
  intros Hk. rewrite (times_used_spec _ _ _ _ Hk).
  destruct (Z.leb_spec 0 (clump_id - 1)),
    (Z.ltb_spec (clump_id - 1) (clump_id - 1));
    destruct (Z.geb_spec (clump_id - 1) clump_id); simpl; try reflexivity; lia.
Qed.

(** C2, on the code: with labels 0, 1, 2 and [clump_id = 2] the loop runs
    over [range(1)], so there is one histogram for label 0 and the pooled
    one for label 2; the position of label 1 is in neither. *)
Theorem SpatialModel_init_skips_label :
  SpatialModel_init [(0, 0); (1, 1); (2, 2)]%R [0; 1; 2] 2
    (0, 1)%R (0, 1)%R 2 1%R
  = Ok [mkSpatialHist [(0, 0)%R] (0, 1)%R (0, 1)%R 2 1%R;
        mkSpatialHist [(2, 2)%R] (0, 1)%R (0, 1)%R 2 1%R]
  /\ times_used [0; 1; 2] 2 0 = 1%nat
  /\ times_used [0; 1; 2] 2 1 = 0%nat
  /\ times_used [0; 1; 2] 2 2 = 1%nat.
Proof. repeat split. Qed.

End SpatialFacts.

(** ** The guards of the scale CPD *)

Section CpdFacts.
Import CpdScale.

Variable CPDUnif_sample : Library -> itensor -> result tensor.
Variable CPDUnif_score : Library -> tensor -> itensor -> result tensor.
Variable gamma_sample : list R -> list R -> tensor.
Variable gamma_log_prob : list R -> list R -> tensor -> result tensor.

Local Abbreviation sample_type :=
  (sample_invscale_type CPDUnif_sample gamma_sample).
Local Abbreviation score_type :=
  (score_invscale_type CPDUnif_score gamma_log_prob).

Lemma eqb_neq_false n m : n <> m -> Nat.eqb n m = false.
Proof. apply Nat.eqb_neq. Qed.

(** C8: the sampler fails its assertion on ids that are not
    one-dimensional; the scorer fails its assertions on scales or ids that
    are not one-dimensional or differ in length; with the uniform flag set
    and the assertions passed, each makes the one call of the uniform
    fallback and returns what it returns, with no Gamma distribution
    constructed; without the flag the Gamma distribution is built from the
    rows of [theta]: concentration the first column, rate one over the
    second. *)
Theorem scale_cpd_guards (lib : Library) (invscales : tensor)
  (subid : itensor) :
  (length (ishape subid) <> 1%nat ->
   sample_type lib subid = ([], Raise AssertionError))
  /\ (length (shape invscales) <> 1%nat
      \/ length (ishape subid) <> 1%nat
      \/ len (shape invscales) <> len (ishape subid) ->
      score_type lib invscales subid = ([], Raise AssertionError))
  /\ (isunif lib = true -> length (ishape subid) = 1%nat ->
      sample_type lib subid
      = ([UnifSample lib subid], CPDUnif_sample lib subid))
  /\ (isunif lib = true ->
      length (shape invscales) = 1%nat -> length (ishape subid) = 1%nat ->
      len (shape invscales) = len (ishape subid) ->
      score_type lib invscales subid
      = ([UnifScore lib invscales subid],
         CPDUnif_score lib invscales subid))
  /\ (isunif lib = true ->
      existsb is_gamma (fst (sample_type lib subid)) = false
      /\ existsb is_gamma (fst (score_type lib invscales subid)) = false)
  /\ (forall theta_sub,
      isunif lib = false -> length (ishape subid) = 1%nat ->
      length (shape (scale_theta lib)) = 2%nat ->
      theta_rows (scale_theta lib) (idata subid) = Ok theta_sub ->
      let concentration := map fst theta_sub in
      let rate := map (fun r => 1 / snd r) theta_sub in
      sample_type lib subid
      = ([NewGamma concentration rate; GammaSample],
         Ok (gamma_sample concentration rate))
      /\ (length (shape invscales) = 1%nat ->
          len (shape invscales) = len (ishape subid) ->
          score_type lib invscales subid
          = ([NewGamma concentration rate; GammaLogProb invscales],
             gamma_log_prob concentration rate invscales))).
Proof.
  unfold sample_invscale_type, score_invscale_type.
  split; [|split; [|split; [|split; [|split]]]].
  - intros H. now rewrite (eqb_neq_false _ _ H).
  - intros [H|[H|H]].
    + now rewrite (eqb_neq_false _ _ H).
    + rewrite (eqb_neq_false _ _ H).
      destruct (Nat.eqb (length (shape invscales)) 1); reflexivity.
    + rewrite (eqb_neq_false _ _ H).
      destruct (Nat.eqb (length (shape invscales)) 1),
        (Nat.eqb (length (ishape subid)) 1); reflexivity.
  - intros Hu H. rewrite H, Hu. reflexivity.
  - intros Hu H1 H2 H3. rewrite H1, H2, H3, !Nat.eqb_refl, Hu. reflexivity.
  - intros Hu. rewrite Hu. split.
    + destruct (Nat.eqb (length (ishape subid)) 1); reflexivity.
    + destruct (Nat.eqb (length (shape invscales)) 1),
        (Nat.eqb (length (ishape subid)) 1),
        (Nat.eqb (len (shape invscales)) (len (ishape subid)));
        reflexivity.
  - intros theta_sub Hu H Ht Hr. unfold get_dist.
    rewrite H, Hu, Ht, Hr. cbn. split; [reflexivity|].
    intros H1 H3. rewrite H1, H3, !Nat.eqb_refl. reflexivity.
Qed.

End CpdFacts.

Section CpdExamples.
Import CpdScale.

Example score_mismatched_lengths :
  score_invscale_type stub_unif_score stub_gamma_log_prob unif_lib
    (mkTensor [3%nat] [1; 2; 3]) two_ids
  = ([], Raise AssertionError).
Proof. reflexivity. Qed.

Example sample_gamma_path :
  sample_invscale_type stub_unif_sample stub_gamma_sample
    (mkLibrary false (mkTensor [2%nat; 2%nat] [1; 2; 3; 4])) two_ids
  = ([NewGamma [1; 3] [1 / 2; 1 / 4]; GammaSample],
     Ok (mkTensor [2%nat] [1; 3])).
Proof. reflexivity. Qed.

Lemma scale_cpd_guards_witness :
  sample_invscale_type stub_unif_sample stub_gamma_sample unif_lib
    (mkITensor [2%nat; 1%nat] [0%Z; 1%Z])
  = ([], Raise AssertionError)
  /\ score_invscale_type stub_unif_score stub_gamma_log_prob unif_lib
       (mkTensor [3%nat] [1; 2; 3]) two_ids
     = ([], Raise AssertionError)
  /\ sample_invscale_type stub_unif_sample stub_gamma_sample unif_lib two_ids
     = ([UnifSample unif_lib two_ids], stub_unif_sample unif_lib two_ids)
  /\ score_invscale_type stub_unif_score stub_gamma_log_prob unif_lib
       two_scales two_ids
     = ([UnifScore unif_lib two_scales two_ids],
        stub_unif_score unif_lib two_scales two_ids).
Proof.
  split; [|split; [|split]].
  - apply (proj1 (scale_cpd_guards stub_unif_sample stub_unif_score
                    stub_gamma_sample stub_gamma_log_prob unif_lib two_scales
                    (mkITensor [2%nat; 1%nat] [0%Z; 1%Z]))).
    discriminate.
  - apply (proj1 (proj2 (scale_cpd_guards stub_unif_sample stub_unif_score
                           stub_gamma_sample stub_gamma_log_prob unif_lib
                           (mkTensor [3%nat] [1; 2; 3]) two_ids))).
    right; right. discriminate.
  - apply (proj1 (proj2 (proj2 (scale_cpd_guards stub_unif_sample
                                  stub_unif_score stub_gamma_sample
                                  stub_gamma_log_prob unif_lib two_scales
                                  two_ids)))); reflexivity.
  - apply (proj1 (proj2 (proj2 (proj2 (scale_cpd_guards stub_unif_sample
                                         stub_unif_score stub_gamma_sample
                                         stub_gamma_log_prob unif_lib
                                         two_scales two_ids)))));
      reflexivity.
Defined.

End CpdExamples.

(** ** The rejection loop of the random walker *)

Section WalkerFacts.
Import RandomWalker.

Variable world : Type.
Variable random_choice : list R -> world -> result R * world.
Variable make_body : R -> R -> world -> result walk * world.

(** [np.random.choice] returns one of the candidates. *)
Hypothesis choice_in :
  forall l w x w', random_choice l w = (Ok x, w') -> In x l.

Local Abbreviation make := (make world make_body).
Local Abbreviation sample_loop := (sample_loop world make_body).
Local Abbreviation after_makes := (after_makes world make_body).
Local Abbreviation sample := (sample world random_choice make_body).
Local Abbreviation draw_parameters := (draw_parameters world random_choice).
Local Abbreviation rejected_before := (rejected_before world make_body).

Lemma make_keeps_parameters (self : walker world) :
  ps world (snd (make self)) = ps world self
  /\ exp_wt_start world (snd (make self)) = exp_wt_start world self
  /\ lmbda world (snd (make self)) = lmbda world self.
Proof.
  unfold RandomWalker.make.
  destruct (exp_wt_start world self) eqn:Ee, (lmbda world self) eqn:El;
    try destruct (make_body _ _ _); simpl; auto.
Qed.

Lemma after_makes_keeps_parameters k (self : walker world) :
  ps world (after_makes k self) = ps world self
  /\ exp_wt_start world (after_makes k self) = exp_wt_start world self
  /\ lmbda world (after_makes k self) = lmbda world self.
Proof.
  revert self; induction k as [|k IH]; intros self; simpl; auto.
  destruct (IH (snd (make self))) as (A & B & C).
  destruct (make_keeps_parameters self) as (A' & B' & C').
  repeat split; congruence.
Qed.

(** The loop returns a walk exactly when some call of [make] within the
    fuel returns a walk that is short enough, all walks before it being too
    long: the walk returned is that first short one. *)
Lemma sample_loop_spec fuel :
  forall (self : walker world) walk self',
    sample_loop fuel self = Some (Ok walk, self')
    <-> exists k, (k < fuel)%nat
          /\ make (after_makes k self) = (Ok walk, self')
          /\ (length walk <= max_len (ps world self))%nat
          /\ rejected_before k self.
Proof.
  unfold RandomWalker.rejected_before.
  induction fuel as [|fuel IH]; intros self walk self'.
  - simpl. split; [discriminate | intros (k & Hk & _); lia].
  - cbn [RandomWalker.sample_loop].
    destruct (make_keeps_parameters self) as (Hps & _).
    destruct (make self) as [r self1] eqn:Em. cbn [snd] in Hps.
    destruct r as [w0|e].
    + rewrite Hps. destruct (Nat.ltb_spec (max_len (ps world self)) (length w0))
        as [Hlong|Hshort].
      * rewrite IH. rewrite Hps. split.
        -- intros (k & Hk & Hmk & Hlen & Hrej). exists (S k).
           split; [lia|]. cbn [RandomWalker.after_makes]. rewrite Em.
           cbn [snd]. split; [assumption|]. split; [assumption|].
           intros [|j] Hj.
           ++ exists w0. cbn [RandomWalker.after_makes]. rewrite Em.
              split; [reflexivity | assumption].
           ++ cbn [RandomWalker.after_makes]. rewrite Em. cbn [snd].
              apply Hrej. lia.
        -- intros (k & Hk & Hmk & Hlen & Hrej). destruct k as [|k].
           ++ cbn [RandomWalker.after_makes] in Hmk. rewrite Em in Hmk.
              inversion Hmk; subst. lia.
           ++ exists k. split; [lia|].
              cbn [RandomWalker.after_makes] in Hmk. rewrite Em in Hmk.
              cbn [snd] in Hmk. split; [assumption|]. split; [assumption|].
              intros j Hj. specialize (Hrej (S j)).
              cbn [RandomWalker.after_makes] in Hrej. rewrite Em in Hrej.
              apply Hrej. lia.
      * split.
        -- intros E; inversion E; subst. exists 0%nat.
           split; [lia|]. cbn [RandomWalker.after_makes].
           split; [assumption|]. split; [assumption|].
           intros j Hj; lia.
        -- intros (k & Hk & Hmk & Hlen & Hrej). destruct k as [|k].
           ++ cbn [RandomWalker.after_makes] in Hmk. rewrite Em in Hmk.
              now inversion Hmk.
           ++ destruct (Hrej 0%nat) as (wj & Ej & Hj); [lia|].
              cbn [RandomWalker.after_makes] in Ej. rewrite Em in Ej.
              cbn [fst] in Ej. inversion Ej; subst. lia.
    + split; [discriminate|].
      intros (k & Hk & Hmk & Hlen & Hrej). destruct k as [|k].
      * cbn [RandomWalker.after_makes] in Hmk. rewrite Em in Hmk.
        discriminate.
      * destruct (Hrej 0%nat) as (wj & Ej & Hj); [lia|].
        cbn [RandomWalker.after_makes] in Ej. rewrite Em in Ej.
        discriminate.
Qed.

(** The two draws succeed exactly when [np.random.choice] returns a value
    on the candidates of [exp_wt_start] and then, from the generator state
    that call left, on the candidates of [lmbda]; the walker then holds
    these two values. *)
Lemma draw_parameters_spec (self self1 : walker world) :
  draw_parameters self = (Ok tt, self1) ->
  ps world self1 = ps world self
  /\ exists e l env1 env2,
       random_choice (int_exp_wt (ps world self)) (env world self)
       = (Ok e, env1)
       /\ random_choice (int_lambda_soft (ps world self)) env1 = (Ok l, env2)
       /\ self1 = mkWalker world (ps world self) (Some e) (Some l) env2
       /\ In e (int_exp_wt (ps world self))
       /\ In l (int_lambda_soft (ps world self)).
Proof.
  unfold RandomWalker.draw_parameters.
  destruct (random_choice (int_exp_wt (ps world self)) (env world self))
    as [[e|x] env1] eqn:E1; [|discriminate].
  destruct (random_choice (int_lambda_soft (ps world self)) env1)
    as [[l|x] env2] eqn:E2; [|discriminate].
  intros E; inversion E; subst; cbn.
  split; [reflexivity|]. exists e, l, env1, env2.
  repeat split; eauto using choice_in.
Qed.

(** C6: [sample] draws its two parameters once each, before the loop:
    [exp_wt_start] is what [np.random.choice] returns on the candidates
    [int_exp_wt], [lmbda] what it returns next on the candidates
    [int_lambda_soft] (called with the candidates alone, so uniformly
    among them), and each is one of its candidates.  From the walker that
    holds these two values, [sample] returns a walk exactly when one of
    the calls of [make] within the fuel gives a walk of at most [max_len]
    strokes, all walks before it being longer; the walk returned is the
    first such one, so no walk longer than [max_len] is returned, and the
    parameters drawn are those every call of [make] ran with. *)
Theorem sample_within_max_len (fuel : nat) (self self1 : walker world) :
  draw_parameters self = (Ok tt, self1) ->
  (exists e l env1 env2,
     random_choice (int_exp_wt (ps world self)) (env world self)
     = (Ok e, env1)
     /\ random_choice (int_lambda_soft (ps world self)) env1 = (Ok l, env2)
     /\ self1 = mkWalker world (ps world self) (Some e) (Some l) env2
     /\ In e (int_exp_wt (ps world self))
     /\ In l (int_lambda_soft (ps world self)))
  /\ (forall walk self',
        sample fuel self = Some (Ok walk, self')
        <-> exists k, (k < fuel)%nat
              /\ make (after_makes k self1) = (Ok walk, self')
              /\ (length walk <= max_len (ps world self))%nat
              /\ rejected_before k self1)
  /\ (forall walk self',
        sample fuel self = Some (Ok walk, self') ->
        (length walk <= max_len (ps world self))%nat
        /\ exp_wt_start world self' = exp_wt_start world self1
        /\ lmbda world self' = lmbda world self1).
Proof.
  intros Hdraw.
  destruct (draw_parameters_spec self self1 Hdraw) as (Hps & Hin).
  assert (Hiff : forall walk self',
            sample fuel self = Some (Ok walk, self')
            <-> exists k, (k < fuel)%nat
                  /\ make (after_makes k self1) = (Ok walk, self')
                  /\ (length walk <= max_len (ps world self))%nat
                  /\ rejected_before k self1).
  { intros walk self'. unfold RandomWalker.sample. rewrite Hdraw.
    rewrite sample_loop_spec, Hps. reflexivity. }
  split; [assumption|]. split; [assumption|].
  intros walk self' Hs. apply Hiff in Hs.
  destruct Hs as (k & _ & Hmk & Hlen & _).
  split; [assumption|].
  destruct (make_keeps_parameters (after_makes k self1)) as (_ & He & Hl).
  destruct (after_makes_keeps_parameters k self1) as (_ & He' & Hl').
  rewrite Hmk in He, Hl. cbn [snd] in He, Hl. split; congruence.
Qed.

End WalkerFacts.

Section WalkerExamples.
Import RandomWalker.

Lemma first_choice_in (l : list R) (w : nat) (x : R) (w' : nat) :
  first_choice l w = (Ok x, w') -> In x l.
Proof.
  destruct l as [|y l]; simpl; [discriminate|].
  intros E; inversion E; subst. now left.
Qed.

(** The first walk has three strokes and is rejected; the second has two
    and is returned. *)
Example toy_sample :
  sample nat first_choice shrinking_make 5 toy_walker
  = Some (Ok (repeat (mkWalkerStroke [0%nat] []) 2),
          mkWalker nat (ps nat toy_walker) (Some 1) (Some 2) 2%nat).
Proof. reflexivity. Qed.

Lemma sample_within_max_len_witness :
  (exists e l env1 env2,
     first_choice (int_exp_wt (ps nat toy_walker)) (env nat toy_walker)
     = (Ok e, env1)
     /\ first_choice (int_lambda_soft (ps nat toy_walker)) env1 = (Ok l, env2)
     /\ mkWalker nat (ps nat toy_walker) (Some 1) (Some 2) 0%nat
        = mkWalker nat (ps nat toy_walker) (Some e) (Some l) env2
     /\ In e (int_exp_wt (ps nat toy_walker))
     /\ In l (int_lambda_soft (ps nat toy_walker)))
  /\ (length (repeat (mkWalkerStroke [0%nat] []) 2)
      <= max_len (ps nat toy_walker))%nat
  /\ exp_wt_start nat
       (mkWalker nat (ps nat toy_walker) (Some 1) (Some 2) 2%nat)
     = exp_wt_start nat
         (mkWalker nat (ps nat toy_walker) (Some 1) (Some 2) 0%nat)
  /\ lmbda nat (mkWalker nat (ps nat toy_walker) (Some 1) (Some 2) 2%nat)
     = lmbda nat (mkWalker nat (ps nat toy_walker) (Some 1) (Some 2) 0%nat).
Proof.
  destruct (sample_within_max_len nat first_choice shrinking_make
              first_choice_in 5 toy_walker
              (mkWalker nat (ps nat toy_walker) (Some 1) (Some 2) 0%nat)
              eq_refl) as (Hdrawn & _ & Hreturned).
  split; [exact Hdrawn|].
  exact (Hreturned _ _ toy_sample).
Defined.

End WalkerExamples.

(** * Further properties *)

(** ** Ink accounting of the rendering functions *)

Section SplatFacts.
Import Rendering.

Lemma mask_select_combine {A B} (l : list A) (m : list B) (mask : list bool) :
  length l = length m ->
  combine (mask_select l mask) (mask_select m mask)
  = mask_select (combine l m) mask.
Proof.
  revert m mask; induction l as [|a l IH]; intros [|b m] [|c mask] Hl;
    simpl in *; try discriminate; try reflexivity.
  destruct c; simpl; rewrite IH by lia; reflexivity.
Qed.

Lemma mask_select_same_length {A B} (l : list A) (m : list B) mask :
  length l = length m ->
  length (mask_select l mask) = length (mask_select m mask).
Proof.
  revert m mask; induction l as [|a l IH]; intros [|b m] [|c mask] Hl;
    simpl in *; try discriminate; try reflexivity.
  destruct c; simpl; rewrite (IH m mask) by lia; reflexivity.
Qed.

(** X1: on an [(H, W)] image and three sequences of one length, [seqadd]
    returns an image of the same shape that holds exactly the ink of the
    points inside the image more than before; the points outside are
    dropped, and when all of them are outside the image comes back as it
    was. *)
Theorem seqadd_adds_ink_on_page D (H W : nat) lx ly ink :
  shape D = [H; W] -> length (data D) = (H * W)%nat ->
  length lx = length ly -> length ly = length ink ->
  let out := check_bounds (combine lx ly) (H, W) in
  exists D', seqadd D lx ly ink = Ok D'
    /\ shape D' = [H; W]
    /\ length (data D') = (H * W)%nat
    /\ total_ink D' = total_ink D + Rsum (mask_select ink (map negb out))
    /\ (forallb (fun b => b) out = true -> D' = D).
Proof.
  intros Hs Hd Hxy Hyi out. unfold seqadd.
  rewrite Hxy, Hyi, !Nat.eqb_refl. cbn [andb assert bind].
  rewrite Hs. cbn [imsize_of bind]. fold out.
  set (keep := map negb out).
  assert (Lxy : length (mask_select lx keep) = length (mask_select ly keep))
    by (apply mask_select_same_length; assumption).
  assert (Lyi : length (mask_select ly keep) = length (mask_select ink keep))
    by (apply mask_select_same_length; assumption).
  rewrite length_map.
  destruct (Nat.eqb (length (mask_select lx keep)) 0) eqn:E0.
  - apply Nat.eqb_eq in E0. exists D.
    assert (Ei : mask_select ink keep = [])
      by (apply length_zero_iff_nil; lia).
    rewrite Ei. cbn [Rsum fold_right].
    repeat split; try assumption; lra.
  - apply Nat.eqb_neq in E0.
    destruct (scatter_add_total (data D)
                (sub2ind (H, W) (map long (mask_select lx keep))
                   (map long (mask_select ly keep)))
                (mask_select ink keep)) as (D' & E & L & S).
    + rewrite sub2ind_length by (rewrite !length_map; assumption).
      rewrite length_map. lia.
    + rewrite Hd. apply sub2ind_Forall.
      rewrite mask_select_combine by assumption. apply selected_in_image.
    + rewrite E. cbn [bind]. eexists; split; [reflexivity|].
      cbn [shape data]. unfold total_ink; cbn [data].
      split; [reflexivity|]. split; [lia|]. split; [assumption|].
      intros Hall. exfalso. apply E0.
      unfold keep. now rewrite all_out_selects_nothing.
Qed.

Lemma seqadd_adds_ink_on_page_witness :
  exists D',
    seqadd (zeros (2, 2)%nat) [0; 5] [1; 0] [3; 4] = Ok D'
    /\ shape D' = [2%nat; 2%nat]
    /\ length (data D') = (2 * 2)%nat
    /\ total_ink D'
       = total_ink (zeros (2, 2)%nat)
         + Rsum (mask_select [3; 4]
                   (map negb (check_bounds (combine [0; 5] [1; 0])
                                (2, 2)%nat)))
    /\ (forallb (fun b => b)
          (check_bounds (combine [0; 5] [1; 0]) (2, 2)%nat) = true ->
        D' = zeros (2, 2)%nat).
Proof.
  apply (seqadd_adds_ink_on_page (zeros (2, 2)%nat) 2 2 [0; 5] [1; 0] [3; 4]);
    reflexivity.
Defined.

Lemma some_on_page_selected {A} (l : list A) (out : list bool) :
  length out = length l -> forallb (fun b => b) out = false ->
  mask_select l (map negb out) <> [].
Proof.
  revert out; induction l as [|a l IH]; intros [|b out] Hl Hall;
    simpl in *; try discriminate.
  destruct b; simpl in *; [|discriminate].
  apply IH; [lia | assumption].
Qed.

Lemma adjust_ink_at_least myink ps :
  myink <> [] -> ink_pp ps <= Rsum (adjust_ink myink ps).
Proof.
  intros Hne.
  destruct (Rlt_dec (Rsum myink) (222 / 100000000)) as [Hlow|Hlow].
  - destruct (adjust_ink_uniform myink ps Hne Hlow) as [_ E]. lra.
  - destruct (Rlt_dec (Rsum myink) (ink_pp ps)) as [Hlt|Hge].
    + destruct (adjust_ink_rescaled myink ps) as [_ E]; lra.
    + rewrite adjust_ink_enough; lra.
Qed.

Lemma add_stroke_returns pimg stk ps (H W : nat) :
  shape pimg = [H; W] -> length (data pimg) = (H * W)%nat ->
  222 / 100000000 <= ink_pp ps -> ink_max_dist ps <> 0 ->
  let out := check_bounds (space_motor_to_img_pts stk) (H, W) in
  exists pimg',
    add_stroke pimg stk ps = Ok (pimg', existsb (fun b => b) out)
    /\ shape pimg' = [H; W]
    /\ length (data pimg') = (H * W)%nat
    /\ (forallb (fun b => b) out = true -> pimg' = pimg)
    /\ (forallb (fun b => b) out = false ->
        total_ink pimg + ink_pp ps <= total_ink pimg').
Proof.
  intros Hs Hd Hpp Hmax out.
  destruct (forallb (fun b => b) out) eqn:Eall.
  - exists pimg. unfold add_stroke. rewrite Hs. cbn [imsize_of bind].
    fold out. rewrite Eall. repeat split; try assumption. discriminate.
  - assert (Hne : mask_select (space_motor_to_img_pts stk) (map negb out)
                  <> []).
    { apply some_on_page_selected; [|assumption].
      unfold out. now rewrite check_bounds_pointwise, length_map. }
    assert (Hink : ink_of_trajectory
                     (mask_select (space_motor_to_img_pts stk)
                        (map negb out)) ps <> []).
    { intros E. apply Hne. apply length_zero_iff_nil.
      rewrite <- ink_of_trajectory_length with (ps := ps). now rewrite E. }
    pose proof (adjust_ink_at_least _ ps Hink) as Hge.
    destruct (add_stroke_total pimg stk ps H W Hs Hd Hne)
      as (pimg' & E & S & L & T);
      [intros _; exact Hpp | intros _; exact Hmax | fold out; lra|].
    exists pimg'. fold out in E, T.
    repeat split; try assumption; [discriminate | intros _; lra].
Qed.

(** X2: what [add_stroke] does on an [(H, W)] image, by the points of the
    trajectory that are on the page.  With none, the image comes back as
    it was.  With exactly one and [ink_pp] below 2.22e-6 the call raises
    [RuntimeError] (the in-place fill of a leaf tensor); with two or more
    and [ink_max_dist = 0] it fails its assertion (the ink is 0/0).  In
    every other case it returns, the assertion on the ink cannot fail, and
    the image gains at least [ink_pp] of ink, however short the
    trajectory.  The flag returned says whether a point is off the
    page. *)
Theorem add_stroke_gives_at_least_ink_pp pimg stk ps (H W : nat) :
  shape pimg = [H; W] -> length (data pimg) = (H * W)%nat ->
  let out := check_bounds (space_motor_to_img_pts stk) (H, W) in
  let kept := mask_select (space_motor_to_img_pts stk) (map negb out) in
  (forallb (fun b => b) out = true ->
   add_stroke pimg stk ps = Ok (pimg, existsb (fun b => b) out))
  /\ (length kept = 1%nat -> ink_pp ps < 222 / 100000000 ->
      add_stroke pimg stk ps = Raise RuntimeError)
  /\ ((2 <= length kept)%nat -> ink_max_dist ps = 0 ->
      add_stroke pimg stk ps = Raise AssertionError)
  /\ (length kept = 1%nat /\ 222 / 100000000 <= ink_pp ps
      \/ (2 <= length kept)%nat /\ ink_max_dist ps <> 0 ->
      exists pimg',
        add_stroke pimg stk ps = Ok (pimg', existsb (fun b => b) out)
        /\ shape pimg' = [H; W]
        /\ length (data pimg') = (H * W)%nat
        /\ total_ink pimg + ink_pp ps <= total_ink pimg').
Proof.
  intros Hs Hd out kept.
  assert (Hsome : kept <> [] -> forallb (fun b => b) out = false).
  { intros Hne. destruct (forallb (fun b => b) out) eqn:Eall; [|reflexivity].
    exfalso. apply Hne. unfold kept. now apply all_out_selects_nothing. }
  split; [|split; [|split]].
  - intros Eall. unfold add_stroke. rewrite Hs. cbn [imsize_of bind].
    fold out. now rewrite Eall.
  - intros Hone Hlow. unfold add_stroke. rewrite Hs. cbn [imsize_of bind].
    fold out. rewrite Hsome by (intros E; rewrite E in Hone; discriminate).
    fold kept. rewrite Hone. cbn [Nat.eqb negb andb].
    unfold ink_of_trajectory. rewrite Hone. cbn [Nat.eqb Rsum fold_right].
    replace (Rltb (ink_pp ps + 0) (222 / 100000000)) with true
      by (symmetry; apply Rltb_true; lra).
    reflexivity.
  - intros Htwo Hzero. unfold add_stroke. rewrite Hs. cbn [imsize_of bind].
    fold out.
    rewrite Hsome by (intros E; rewrite E in Htwo; simpl in Htwo; lia).
    fold kept.
    replace (Nat.eqb (length kept) 1) with false
      by (symmetry; apply Nat.eqb_neq; lia).
    cbn [negb andb]. now rewrite (Reqb_true _ _ Hzero).
  - intros Hcase.
    assert (Hne : kept <> []).
    { intros E. rewrite E in Hcase. simpl in Hcase.
      destruct Hcase as [[Hc _]|[Hc _]]; [discriminate | lia]. }
    assert (Hink : ink_of_trajectory kept ps <> []).
    { intros E. apply Hne. apply length_zero_iff_nil.
      rewrite <- ink_of_trajectory_length with (ps := ps). now rewrite E. }
    pose proof (adjust_ink_at_least _ ps Hink) as Hge.
    destruct (add_stroke_total pimg stk ps H W Hs Hd Hne)
      as (pimg' & E & S & L & T).
    + intros Hone. destruct Hcase as [[_ Hc]|[Hc _]]; [exact Hc|].
      fold out kept in Hone. lia.
    + intros Hmany. destruct Hcase as [[Hc _]|[_ Hc]]; [|exact Hc].
      fold out kept in Hmany. contradiction.
    + fold out kept. lra.
    + exists pimg'. fold out kept in E, T.
      repeat split; try assumption. lra.
Qed.

(** X3: a trajectory with exactly one point on the page leaves exactly
    [ink_pp] of ink on the image, for every [ink_pp] of at least 2.22e-6
    (below that value the call raises, see above). *)
Theorem add_stroke_single_point pimg stk ps (H W : nat) :
  shape pimg = [H; W] -> length (data pimg) = (H * W)%nat ->
  222 / 100000000 <= ink_pp ps ->
  let out := check_bounds (space_motor_to_img_pts stk) (H, W) in
  length (mask_select (space_motor_to_img_pts stk) (map negb out)) = 1%nat ->
  exists pimg',
    add_stroke pimg stk ps = Ok (pimg', existsb (fun b => b) out)
    /\ total_ink pimg' = total_ink pimg + ink_pp ps.
Proof.
  intros Hs Hd Hpp out Hone.
  set (kept := mask_select (space_motor_to_img_pts stk) (map negb out)) in *.
  assert (Hne : kept <> []) by (intros E; rewrite E in Hone; discriminate).
  assert (Ei : ink_of_trajectory kept ps = [ink_pp ps])
    by (unfold ink_of_trajectory; now rewrite Hone).
  assert (Es : Rsum (adjust_ink (ink_of_trajectory kept ps) ps) = ink_pp ps).
  { rewrite Ei. rewrite adjust_ink_enough; cbn [Rsum fold_right] in *; lra. }
  destruct (add_stroke_total pimg stk ps H W Hs Hd Hne)
    as (pimg' & E & _ & _ & T);
    [intros _; exact Hpp
    | intros Hmany; fold out kept in Hmany; contradiction
    | fold out; fold kept; lra|].
  exists pimg'. fold out in E, T. fold kept in T.
  split; [assumption | lra].
Qed.

Lemma origin_on_page (H W : nat) :
  (1 <= H)%nat -> (1 <= W)%nat ->
  check_bounds (space_motor_to_img_pts [(0, 0)]) (H, W) = [false].
Proof.
  intros HH HW. rewrite check_bounds_pointwise.
  unfold space_motor_to_img_pts, space_motor_to_img_pt; cbn [map fst snd].
  f_equal. apply point_out_false; cbn [fst snd].
  apply le_INR in HH, HW. simpl in HH, HW. lra.
Qed.

Lemma add_stroke_gives_at_least_ink_pp_witness :
  exists pimg',
    add_stroke (zeros (3, 3)%nat) [(0, 0)] example_ps
    = Ok (pimg',
          existsb (fun b => b)
            (check_bounds (space_motor_to_img_pts [(0, 0)]) (3, 3)%nat))
    /\ shape pimg' = [3%nat; 3%nat]
    /\ length (data pimg') = (3 * 3)%nat
    /\ total_ink (zeros (3, 3)%nat) + ink_pp example_ps <= total_ink pimg'.
Proof.
  apply (add_stroke_gives_at_least_ink_pp (zeros (3, 3)%nat) [(0, 0)]
           example_ps 3 3 eq_refl eq_refl).
  left. rewrite origin_on_page by lia.
  split; [reflexivity | cbn [example_ps ink_pp]; lra].
Defined.

Lemma add_stroke_single_point_witness :
  exists pimg',
    add_stroke (zeros (3, 3)%nat) [(0, 0)] example_ps
    = Ok (pimg',
          existsb (fun b => b)
            (check_bounds (space_motor_to_img_pts [(0, 0)]) (3, 3)%nat))
    /\ total_ink pimg' = total_ink (zeros (3, 3)%nat) + ink_pp example_ps.
Proof.
  apply (add_stroke_single_point (zeros (3, 3)%nat) [(0, 0)] example_ps 3 3);
    [reflexivity | reflexivity | cbn [example_ps ink_pp]; lra |].
  rewrite origin_on_page by lia. reflexivity.
Defined.

(** The strokes drawn one after the other, with [ink_pp] of at least
    2.22e-6 and [ink_max_dist] other than 0: the loop returns, the flag is
    set by the strokes with a point off the page, and each stroke with a
    point on the page adds at least [ink_pp]. *)
Lemma draw_strokes_spec strokes ps (H W : nat) :
  222 / 100000000 <= ink_pp ps -> ink_max_dist ps <> 0 ->
  forall pimg flag,
    shape pimg = [H; W] -> length (data pimg) = (H * W)%nat ->
    exists pimg',
      draw_strokes strokes pimg flag ps
      = Ok (pimg', flag || existsb (off_page (H, W)) strokes)
      /\ shape pimg' = [H; W]
      /\ length (data pimg') = (H * W)%nat
      /\ total_ink pimg
         + INR (length (filter (on_page (H, W)) strokes)) * ink_pp ps
         <= total_ink pimg'.
Proof.
  intros Hpp Hmax.
  induction strokes as [|stk rest IH]; intros pimg flag Hs Hd.
  - exists pimg. cbn. rewrite orb_false_r. repeat split; try assumption. lra.
  - destruct (add_stroke_returns pimg stk ps H W Hs Hd Hpp Hmax)
      as (p1 & E1 & S1 & D1 & Hsame & Hmore).
    destruct (IH p1 (flag || off_page (H, W) stk) S1 D1)
      as (p2 & E2 & S2 & D2 & T2).
    exists p2. cbn [draw_strokes]. rewrite E1. cbn [bind fst snd].
    fold (off_page (H, W) stk). rewrite E2.
    cbn [existsb]. rewrite orb_assoc.
    repeat split; try assumption.
    cbn [filter]. unfold on_page at 1.
    destruct (forallb (fun b => b)
                (check_bounds (space_motor_to_img_pts stk) (H, W))) eqn:Eall;
      cbn [negb].
    + rewrite (Hsame eq_refl) in T2. assumption.
    + specialize (Hmore eq_refl). cbn [length]. rewrite S_INR. lra.
Qed.

End SplatFacts.

(** ** What render_image returns *)

Section RenderFacts.
Import Rendering.

Variable imfilter : tensor -> tensor -> result tensor.
Variable fspecial : nat -> R -> tensor.
Variable default_parameters : Parameters.

Lemma Forall_clamp lo hi t :
  lo <= hi -> Forall (fun v => lo <= v <= hi) (data (clamp lo hi t)).
Proof.
  intros Hle. unfold clamp; cbn [data]. apply Forall_map, Forall_forall.
  intros v _. unfold Rmin, Rmax.
  destruct (Rle_dec v lo); destruct (Rle_dec _ hi); lra.
Qed.

Lemma broaden_and_blur_cases pimg blur_sigma ps :
  (broaden_mode ps <> "Lake"%string -> broaden_mode ps <> "Hinton"%string ->
   broaden_and_blur imfilter fspecial pimg blur_sigma ps
   = Raise (Exception "'broaden_mode' must be either 'Lake' or 'Hinton'"))
  /\ (forall out,
        broaden_and_blur imfilter fspecial pimg blur_sigma ps = Ok out ->
        Forall unit_interval (data out)).
Proof.
  unfold broaden_and_blur. split.
  - intros HL HH. apply String.eqb_neq in HL, HH. now rewrite HL, HH.
  - intros out.
    destruct (String.eqb (broaden_mode ps) "Lake");
      [|destruct (String.eqb (broaden_mode ps) "Hinton")];
      cbn [bind]; try discriminate;
      (destruct (filter_times imfilter (ink_ncon ps) pimg _) as [p1|e];
       cbn [bind]; [|discriminate];
       destruct (Rgtb blur_sigma 0);
       [destruct (imfilter (clamp_max 1 p1) _) as [p2|e]; cbn [bind];
        [|discriminate];
        destruct (imfilter p2 _) as [p3|e]; cbn [bind]; [|discriminate]
       | cbn [bind]];
       intros E; inversion E; subst; apply Forall_clamp; lra).
Qed.

(** X4: [broaden_and_blur] raises its configuration error on every mode
    other than 'Lake' and 'Hinton', whatever the filters do; whenever it
    returns, every pixel of the image lies in [[0, 1]]. *)
Theorem broaden_and_blur_range pimg blur_sigma ps :
  (broaden_mode ps <> "Lake"%string -> broaden_mode ps <> "Hinton"%string ->
   broaden_and_blur imfilter fspecial pimg blur_sigma ps
   = Raise (Exception "'broaden_mode' must be either 'Lake' or 'Hinton'"))
  /\ (forall out,
        broaden_and_blur imfilter fspecial pimg blur_sigma ps = Ok out ->
        Forall unit_interval (data out)).
Proof.
  destruct (broaden_and_blur_cases pimg blur_sigma ps) as [Hbad Hrange].
  split; [exact Hbad | exact Hrange].
Qed.

Lemma blend_in_unit_interval epsilon p :
  0 <= epsilon <= 1 -> unit_interval p -> unit_interval (blend epsilon p).
Proof. unfold unit_interval, blend. intros He Hp. nra. Qed.

Lemma zeros_well_formed sz :
  shape (zeros sz) = [fst sz; snd sz]
  /\ length (data (zeros sz)) = (fst sz * snd sz)%nat.
Proof. unfold zeros; cbn [shape data]. now rewrite repeat_length. Qed.

(** X5: for a non-empty list of strokes, with [ink_pp] of at least
    2.22e-6 and [ink_max_dist] other than 0, and with a broadening pass or
    a stroke that has a point on the page (so that the image the clamps
    write to is not the leaf [render_image] started from): drawing does
    not fail, so [render_image] returns exactly when [broaden_and_blur]
    does on the drawn image; the flag it returns says whether some point
    of some stroke is off the page; with [0 <= epsilon <= 1] every pixel of
    the result is in [[0, 1]]; with an unknown broadening mode the call
    raises the configuration error. *)
Theorem render_image_probability_map strokes epsilon blur_sigma ps :
  strokes <> [] ->
  222 / 100000000 <= ink_pp (or_default default_parameters ps) ->
  ink_max_dist (or_default default_parameters ps) <> 0 ->
  (1 <= ink_ncon (or_default default_parameters ps))%nat
  \/ existsb (on_page (imsize (or_default default_parameters ps))) strokes
     = true ->
  let ps' := or_default default_parameters ps in
  let flag := existsb (off_page (imsize ps')) strokes in
  (exists acc,
     draw_strokes strokes (zeros (imsize ps')) false ps' = Ok (acc, flag)
     /\ forall noiseless,
          broaden_and_blur imfilter fspecial acc blur_sigma ps'
          = Ok noiseless ->
          exists img,
            render_image imfilter fspecial default_parameters strokes
              epsilon blur_sigma ps = Ok (img, flag))
  /\ (forall img off,
        render_image imfilter fspecial default_parameters strokes epsilon
          blur_sigma ps = Ok (img, off) ->
        off = flag
        /\ (0 <= epsilon <= 1 -> Forall unit_interval (data img)))
  /\ (broaden_mode ps' <> "Lake"%string ->
      broaden_mode ps' <> "Hinton"%string ->
      render_image imfilter fspecial default_parameters strokes epsilon
        blur_sigma ps
      = Raise (Exception "'broaden_mode' must be either 'Lake' or 'Hinton'")).
Proof.
  intros Hne Hpp Hmax _ ps' flag.
  destruct (zeros_well_formed (imsize ps')) as [Sz Lz].
  destruct (draw_strokes_spec strokes ps' (fst (imsize ps'))
              (snd (imsize ps')) Hpp Hmax (zeros (imsize ps')) false Sz Lz)
    as (acc & Ed & _ & _ & _).
  rewrite <- surjective_pairing in Ed. cbn [orb] in Ed. fold flag in Ed.
  assert (Er : render_image imfilter fspecial default_parameters strokes
                 epsilon blur_sigma ps
               = (pimg <- broaden_and_blur imfilter fspecial acc blur_sigma
                            ps' ;;
                  Ok (if Rgtb epsilon 0
                      then mkTensor (shape pimg)
                             (map (blend epsilon) (data pimg))
                      else pimg, flag))).
  { unfold render_image. cbv zeta. fold ps'.
    destruct strokes; [congruence|]. rewrite Ed. reflexivity. }
  split; [|split].
  - exists acc. split; [assumption|]. intros nl Hnl.
    rewrite Er, Hnl. cbn [bind]. eauto.
  - intros img off. rewrite Er.
    destruct (broaden_and_blur imfilter fspecial acc blur_sigma ps')
      as [nl|e] eqn:Ebb; cbn [bind]; [|discriminate].
    intros E; inversion E; subst. split; [reflexivity|].
    intros He.
    pose proof (proj2 (broaden_and_blur_cases acc blur_sigma ps') nl Ebb)
      as Hnl.
    destruct (Rgtb epsilon 0); [|assumption].
    cbn [data]. apply Forall_map.
    eapply Forall_impl; [|exact Hnl].
    intros p Hp. now apply blend_in_unit_interval.
  - intros HL HH. rewrite Er.
    now rewrite (proj1 (broaden_and_blur_cases acc blur_sigma ps') HL HH).
Qed.

End RenderFacts.

Section RenderExamples.
Import Rendering.

Lemma broaden_and_blur_range_witness :
  broaden_and_blur no_filter unit_kernel (zeros (1, 1)%nat) 0 gauss_ps
  = Raise (Exception "'broaden_mode' must be either 'Lake' or 'Hinton'")
  /\ Forall unit_interval
       (data (clamp 0 1 (clamp_max 1 (zeros (imsize pixel_ps))))).
Proof.
  split.
  - apply (proj1 (broaden_and_blur_range no_filter unit_kernel
                    (zeros (1, 1)%nat) 0 gauss_ps)); discriminate.
  - apply (proj2 (broaden_and_blur_range no_filter unit_kernel
                    (zeros (imsize pixel_ps)) 0 pixel_ps)).
    apply no_filter_broaden. reflexivity.
Defined.

Lemma off_page_render epsilon :
  0 < epsilon ->
  render_image no_filter unit_kernel example_ps [[(1, 1)]] epsilon 0
    (Some pixel_ps)
  = Ok (mkTensor [1%nat; 1%nat] [blend epsilon 0], true).
Proof.
  intros He.
  rewrite (render_image_steps no_filter unit_kernel example_ps [[(1, 1)]]
             epsilon 0 (Some pixel_ps) (zeros (imsize pixel_ps)) true
             (clamp 0 1 (clamp_max 1 (zeros (imsize pixel_ps)))));
    [| discriminate | apply off_page_point_draw
     | now apply no_filter_broaden].
  replace (Rgtb epsilon 0) with true by (symmetry; now apply Rgtb_true).
  now rewrite blank_pixel_clamped.
Qed.

Lemma render_image_probability_map_witness :
  true = existsb (off_page (imsize pixel_ps)) [[(1, 1)]]
  /\ Forall unit_interval (data (mkTensor [1%nat; 1%nat] [blend (1 / 2) 0])).
Proof.
  assert (Hne : [[(1, 1)]] <> @nil (list point)) by discriminate.
  assert (Hpp : 222 / 100000000 <= ink_pp pixel_ps)
    by (cbn [pixel_ps ink_pp]; lra).
  assert (Hmax : ink_max_dist pixel_ps <> 0)
    by (cbn [pixel_ps ink_max_dist]; lra).
  destruct (render_image_probability_map no_filter unit_kernel example_ps
              [[(1, 1)]] (1 / 2) 0 (Some pixel_ps) Hne Hpp Hmax
              (or_introl (le_S 1 1 (le_n 1)))) as (_ & H & _).
  assert (Hhalf : 0 < 1 / 2) by lra.
  destruct (H _ _ (off_page_render (1 / 2) Hhalf)) as [Hflag Hrange].
  split; [exact Hflag | apply Hrange; lra].
Defined.

End RenderExamples.

(** ** The change of coordinates *)

Section CoordinateFacts.
Import Rendering.

Lemma map_pointwise_id (f : point -> point) (l : list point) :
  (forall p, f p = p) -> map f l = l.
Proof.
  intros Hf. induction l as [|p l IH]; simpl; [reflexivity|].
  now rewrite Hf, IH.
Qed.

(** X6: [space_motor_to_img] is a quarter turn: applied four times to a
    tensor of shape [(..., 2)] it gives the tensor back. *)
Theorem space_motor_to_img_four_times (lead : list nat) (pts : list point) :
  length pts = numel lead ->
  (t1 <- space_motor_to_img (of_points lead pts) ;;
   t2 <- space_motor_to_img t1 ;;
   t3 <- space_motor_to_img t2 ;;
   space_motor_to_img t3)
  = Ok (of_points lead pts).
Proof.
  intros Hn.
  assert (L : forall l, length l = numel lead ->
                length (space_motor_to_img_pts l) = numel lead)
    by (intros l Hl; unfold space_motor_to_img_pts; now rewrite length_map).
  rewrite space_motor_to_img_points by assumption. cbn [bind].
  rewrite space_motor_to_img_points by auto. cbn [bind].
  rewrite space_motor_to_img_points by auto. cbn [bind].
  rewrite space_motor_to_img_points by auto.
  do 2 f_equal. unfold space_motor_to_img_pts. rewrite !map_map.
  apply map_pointwise_id. intros [x y].
  unfold space_motor_to_img_pt; cbn [fst snd]. f_equal; ring.
Qed.

Lemma space_motor_to_img_four_times_witness :
  (t1 <- space_motor_to_img (of_points [2%nat] [(3, 4); (5, 6)]) ;;
   t2 <- space_motor_to_img t1 ;;
   t3 <- space_motor_to_img t2 ;;
   space_motor_to_img t3)
  = Ok (of_points [2%nat] [(3, 4); (5, 6)]).
Proof.
  exact (space_motor_to_img_four_times [2%nat] [(3, 4); (5, 6)] eq_refl).
Defined.

Lemma flip_last_keeps_shape (t : tensor) :
  shape t <> [] -> exists t', flip_last t = Ok t' /\ shape t' = shape t.
Proof.
  intros Hne. unfold flip_last.
  destruct (shape t) eqn:Es; [congruence|]. rewrite <- Es.
  eexists; split; [reflexivity|]. reflexivity.
Qed.

Lemma mul_last_mismatch (t : tensor) (v : list R) lead d :
  shape t = lead ++ [d] -> d <> length v -> d <> 1%nat ->
  length v <> 1%nat -> mul_last t v = Raise RuntimeError.
Proof.
  intros E Hv H1 Hv1. unfold mul_last.
  destruct (shape t) eqn:Es; [destruct lead; discriminate|].
  rewrite E, last_snoc.
  replace (Nat.eqb d (length v)) with false
    by (symmetry; now apply Nat.eqb_neq).
  replace (Nat.eqb d 1) with false by (symmetry; now apply Nat.eqb_neq).
  replace (Nat.eqb (length v) 1) with false
    by (symmetry; now apply Nat.eqb_neq).
  reflexivity.
Qed.

Lemma rows_of_singletons (n : nat) (l : list R) :
  length l = n -> concat (map (@rev R) (rows n 1 l)) = l.
Proof.
  revert l; induction n as [|n IH]; intros [|x l] Hl; simpl in *;
    try discriminate; try reflexivity.
  f_equal. apply IH. lia.
Qed.

Lemma flat_map_signs (l : list R) :
  flat_map (fun x => map (Rmult x) space_flip) l
  = flat_map (fun p : point => [fst p; snd p]) (map (fun x => (- x, x)) l).
Proof.
  induction l as [|x l IH]; simpl; [reflexivity|].
  rewrite <- IH. unfold space_flip; simpl. f_equal; [ring|]. f_equal. ring.
Qed.

(** X7: [space_motor_to_img] cannot multiply by its two signs a tensor
    whose trailing axis has a size other than 1 or 2.  A trailing axis of
    size 1 is accepted by broadcasting: each entry [x] becomes the point
    [(-x, x)]. *)
Theorem space_motor_to_img_other_shapes (pt : tensor) :
  (forall lead d, shape pt = lead ++ [d] -> d <> 1%nat -> d <> 2%nat ->
   space_motor_to_img pt = Raise RuntimeError)
  /\ (forall lead, shape pt = lead ++ [1%nat] ->
      length (data pt) = numel lead ->
      space_motor_to_img pt
      = Ok (of_points lead (map (fun x => (- x, x)) (data pt)))).
Proof.
  unfold space_motor_to_img. split.
  - intros lead d E H1 H2.
    destruct (flip_last_keeps_shape pt) as (t' & Ef & Sf).
    { rewrite E. destruct lead; discriminate. }
    rewrite Ef. cbn [bind].
    apply (mul_last_mismatch t' space_flip lead d);
      [congruence | exact H2 | exact H1 | discriminate].
  - intros lead E Hl. unfold flip_last, rows_of.
    destruct (shape pt) eqn:Es; [destruct lead; discriminate|].
    rewrite E, removelast_last, last_snoc, rows_of_singletons by assumption.
    cbn [bind]. unfold mul_last. cbn [shape data].
    destruct (lead ++ [1%nat]) eqn:El; [destruct lead; discriminate|].
    rewrite <- El, last_snoc, removelast_last. cbn.
    unfold of_points. f_equal. f_equal. apply flat_map_signs.
Qed.

Lemma space_motor_to_img_other_shapes_witness :
  space_motor_to_img (mkTensor [1%nat; 3%nat] [1; 2; 3]) = Raise RuntimeError
  /\ space_motor_to_img (mkTensor [2%nat; 1%nat] [5; 6])
     = Ok (of_points [2%nat] (map (fun x => (- x, x)) [5; 6])).
Proof.
  split.
  - apply (proj1 (space_motor_to_img_other_shapes
                    (mkTensor [1%nat; 3%nat] [1; 2; 3])) [1%nat] 3%nat);
      [reflexivity | discriminate | discriminate].
  - apply (proj2 (space_motor_to_img_other_shapes
                    (mkTensor [2%nat; 1%nat] [5; 6])) [2%nat]);
      reflexivity.
Defined.

Lemma norm_img (p q : point) :
  norm (psub (space_motor_to_img_pt p) (space_motor_to_img_pt q))
  = norm (psub p q).
Proof.
  unfold norm, psub, space_motor_to_img_pt; cbn [fst snd]. f_equal. ring.
Qed.

Lemma tl_map {A B} (f : A -> B) (l : list A) : tl (map f l) = map f (tl l).
Proof. destruct l; reflexivity. Qed.

Lemma removelast_map {A B} (f : A -> B) (l : list A) :
  removelast (map f l) = map f (removelast l).
Proof.
  induction l as [|a [|b l] IH]; try reflexivity.
  change (map f (a :: b :: l)) with (f a :: map f (b :: l)).
  cbn [removelast] in *. cbn [map] in *. rewrite IH. reflexivity.
Qed.

Lemma norms_img (a b : list point) :
  map norm (zip_with psub (map space_motor_to_img_pt a)
              (map space_motor_to_img_pt b))
  = map norm (zip_with psub a b).
Proof.
  revert b; induction a as [|p a IH]; intros [|q b]; simpl;
    try reflexivity.
  now rewrite norm_img, IH.
Qed.

(** X8: the change of coordinates keeps every distance, so the ink of a
    trajectory is the same whether it is computed on the motor points or
    on their image points. *)
Theorem ink_of_trajectory_img (stk : list point) (ps : Parameters) :
  (forall p q,
     norm (psub (space_motor_to_img_pt p) (space_motor_to_img_pt q))
     = norm (psub p q))
  /\ ink_of_trajectory (space_motor_to_img_pts stk) ps
     = ink_of_trajectory stk ps.
Proof.
  split; [apply norm_img|].
  unfold ink_of_trajectory, space_motor_to_img_pts.
  rewrite length_map, tl_map, removelast_map, norms_img. reflexivity.
Qed.

(** X9: with [ink_pp >= 0] and [ink_max_dist > 0], a trajectory gets one
    ink weight per point, each between 0 and [ink_pp]; and from two points
    on, the first weight is a copy of the second. *)
Theorem ink_of_trajectory_bounds (stk : list point) (ps : Parameters) :
  0 <= ink_pp ps -> 0 < ink_max_dist ps ->
  length (ink_of_trajectory stk ps) = length stk
  /\ Forall (fun m => 0 <= m <= ink_pp ps) (ink_of_trajectory stk ps)
  /\ ((2 <= length stk)%nat ->
      nth 0 (ink_of_trajectory stk ps) 0 = nth 1 (ink_of_trajectory stk ps) 0).
Proof.
  intros Hpp Hmax. split; [apply ink_of_trajectory_length|].
  unfold ink_of_trajectory.
  destruct (Nat.eqb (length stk) 1) eqn:E1.
  - split; [constructor; [lra | constructor]|].
    apply Nat.eqb_eq in E1. intros; lia.
  - set (dist := map (fun d => Rmin d (ink_max_dist ps))
                   (map norm (zip_with psub (tl stk) (removelast stk)))).
    assert (Hd : Forall (fun d => 0 <= d <= ink_max_dist ps) dist).
    { unfold dist. apply Forall_map, Forall_map, Forall_forall.
      intros p _. unfold norm.
      pose proof (sqrt_pos (fst p * fst p + snd p * snd p)).
      unfold Rmin. destruct (Rle_dec _ _); lra. }
    assert (Hd' : Forall (fun d => 0 <= d <= ink_max_dist ps)
                    (firstn 1 dist ++ dist)).
    { apply Forall_app; split; [|assumption].
      destruct dist; simpl; [constructor|].
      inversion Hd; subst. constructor; [assumption | constructor]. }
    split.
    + apply Forall_map. eapply Forall_impl; [|exact Hd'].
      intros d [H0 H1]. cbv beta. split.
      * apply Rmult_le_pos; [nra | left; now apply Rinv_0_lt_compat].
      * apply Rmult_le_reg_r with (ink_max_dist ps); [assumption|].
        unfold Rdiv. rewrite Rmult_assoc, Rinv_l by lra. nra.
    + intros Hlen. destruct dist as [|d0 rest]; reflexivity.
Qed.

Lemma ink_of_trajectory_bounds_witness :
  length (ink_of_trajectory [(0, 0); (0, 1); (0, 4)] example_ps)
  = length [(0, 0); (0, 1); (0, 4)]
  /\ Forall (fun m => 0 <= m <= ink_pp example_ps)
       (ink_of_trajectory [(0, 0); (0, 1); (0, 4)] example_ps)
  /\ ((2 <= length [(0, 0); (0, 1); (0, 4)])%nat ->
      nth 0 (ink_of_trajectory [(0, 0); (0, 1); (0, 4)] example_ps) 0
      = nth 1 (ink_of_trajectory [(0, 0); (0, 1); (0, 4)] example_ps) 0).
Proof.
  apply (ink_of_trajectory_bounds [(0, 0); (0, 1); (0, 4)] example_ps);
    unfold example_ps; cbn [ink_pp ink_max_dist]; lra.
Defined.

End CoordinateFacts.

(** ** Parameters, bounds and gradient flags of the parts *)

Section PartFacts.
Import Rendering Part.

Lemma grad_loop_all_set (params : list (option param)) (flag : bool) :
  Forall (fun p => p <> None) params ->
  grad_loop params flag = (map (with_flag flag) params, Ok tt).
Proof.
  induction 1 as [|p params Hp _ IH]; [reflexivity|].
  destruct p as [p|]; [|congruence].
  cbn [grad_loop requires_grad_ map with_flag option_map]. now rewrite IH.
Qed.

Lemma grad_loop_first_none (pre post : list (option param)) (flag : bool) :
  Forall (fun p => p <> None) pre ->
  grad_loop (pre ++ None :: post) flag
  = (map (with_flag flag) pre ++ None :: post, Raise AttributeError).
Proof.
  induction 1 as [|p pre Hp _ IH]; [reflexivity|].
  destruct p as [p|]; [|congruence].
  cbn [app grad_loop requires_grad_ map with_flag option_map].
  now rewrite IH.
Qed.

(** X10: the loop of [train] and [eval] over a list of parameters succeeds
    when none of them is [None], giving every parameter the flag and
    leaving its value alone, so that [eval] after [train] is [eval]; at the
    first [None] it raises an [AttributeError], the parameters before it
    carrying the new flag and those after it untouched. *)
Theorem grad_loop_spec (params pre post : list (option param)) (flag : bool) :
  (Forall (fun p => p <> None) params ->
   grad_loop params flag = (map (with_flag flag) params, Ok tt)
   /\ grad_loop (fst (grad_loop params true)) false = grad_loop params false)
  /\ (Forall (fun p => p <> None) pre ->
      grad_loop (pre ++ None :: post) flag
      = (map (with_flag flag) pre ++ None :: post, Raise AttributeError)).
Proof.
  split; [|apply grad_loop_first_none].
  intros Hall. split; [now apply grad_loop_all_set|].
  rewrite (grad_loop_all_set params true Hall). cbn [fst].
  rewrite !grad_loop_all_set.
  - f_equal. rewrite map_map. apply map_ext.
    intros [p|]; reflexivity.
  - assumption.
  - apply Forall_map. eapply Forall_impl; [|exact Hall].
    intros [p|] Hp; [discriminate | congruence].
Qed.

Lemma grad_loop_spec_witness :
  (grad_loop (parameters test_token) true
   = (map (with_flag true) (parameters test_token), Ok tt)
   /\ grad_loop (fst (grad_loop (parameters test_token) true)) false
      = grad_loop (parameters test_token) false)
  /\ grad_loop ([Some (mkParam shapes_token false)]
                ++ None :: [Some (mkParam invscales_token false)]) true
     = (map (with_flag true) [Some (mkParam shapes_token false)]
        ++ None :: [Some (mkParam invscales_token false)],
        Raise AttributeError).
Proof.
  split.
  - apply (proj1 (grad_loop_spec (parameters test_token) [] [] true)).
    repeat constructor; discriminate.
  - apply (proj2 (grad_loop_spec [] [Some (mkParam shapes_token false)]
                    [Some (mkParam invscales_token false)] true)).
    repeat constructor; discriminate.
Defined.

Lemma shape_eqb_neq a b : a <> b -> shape_eqb a b = false.
Proof.
  intros Hne. unfold shape_eqb.
  destruct (list_eq_dec Nat.eq_dec a b); [contradiction | reflexivity].
Qed.

(** X11: the bounds line up with the parameters.  A stroke type has two
    parameters, two lower and two upper bounds, the only bound being [eps]
    below every inverse scale.  A stroke token whose limits are the pairs
    [[x0, x1]] and [[y0, y1]] has three of each: [eps] below every inverse
    scale, and the position kept between [(x0 + eps, y0 + eps)] and
    [(x1 - eps, y1 - eps)].  Limits of different shapes cannot be stacked;
    limits of one entry give lower bounds but no upper bounds. *)
Theorem bounds_match_parameters (ty : StrokeType.t) (self : StrokeToken)
  (eps : R) :
  (length (StrokeType.parameters ty) = 2%nat
   /\ StrokeType.ubs ty eps = [None; None]
   /\ exists lb,
        StrokeType.lbs ty eps = [None; Some lb]
        /\ shape lb = shape (value (StrokeType.invscales ty))
        /\ Forall (fun v => v = eps) (data lb))
  /\ length (parameters self) = 3%nat
  /\ (forall x0 x1 y0 y1,
        shape (xlim self) = [2%nat] -> data (xlim self) = [x0; x1] ->
        shape (ylim self) = [2%nat] -> data (ylim self) = [y0; y1] ->
        lbs self eps
        = Ok [None; Some (full (shape (value (invscales self))) eps);
              Some (mkTensor [2%nat] [x0 + eps; y0 + eps])]
        /\ ubs self eps
           = Ok [None; None; Some (mkTensor [2%nat] [x1 + - eps; y1 + - eps])])
  /\ (shape (xlim self) <> shape (ylim self) ->
      lbs self eps = Raise RuntimeError /\ ubs self eps = Raise RuntimeError)
  /\ (shape (xlim self) = [1%nat] -> shape (ylim self) = [1%nat] ->
      (exists l, lbs self eps = Ok l) /\ ubs self eps = Raise IndexError).
Proof.
  split; [|split; [|split; [|split]]].
  - split; [reflexivity|]. split; [reflexivity|]. eexists.
    split; [reflexivity|]. split; [reflexivity|].
    unfold full; cbn [data]. apply Forall_forall.
    intros v Hv. now apply repeat_spec in Hv.
  - reflexivity.
  - intros x0 x1 y0 y1 Sx Dx Sy Dy. unfold lbs, ubs, stacked_column.
    rewrite Sx, Sy, Dx, Dy, shape_eqb_refl. split; reflexivity.
  - intros Hne. unfold lbs, ubs, stacked_column.
    rewrite (shape_eqb_neq _ _ Hne). split; reflexivity.
  - intros Sx Sy. unfold lbs, ubs, stacked_column.
    rewrite Sx, Sy, shape_eqb_refl. cbn. split; [eauto | reflexivity].
Qed.

Lemma bounds_match_parameters_witness :
  (lbs test_token (1 / 10000)
   = Ok [None; Some (full (shape (value (invscales test_token))) (1 / 10000));
         Some (mkTensor [2%nat] [0 + 1 / 10000; -105 + 1 / 10000])]
   /\ ubs test_token (1 / 10000)
      = Ok [None; None;
            Some (mkTensor [2%nat] [105 + - (1 / 10000); 0 + - (1 / 10000)])])
  /\ (lbs (mkStrokeToken (mkParam shapes_token false)
             (mkParam invscales_token false) None
             (mkTensor [2%nat] [0; 105]) (mkTensor [1%nat] [0])) (1 / 10000)
      = Raise RuntimeError
      /\ ubs (mkStrokeToken (mkParam shapes_token false)
                (mkParam invscales_token false) None
                (mkTensor [2%nat] [0; 105]) (mkTensor [1%nat] [0])) (1 / 10000)
         = Raise RuntimeError).
Proof.
  split.
  - apply (proj1 (proj2 (proj2 (bounds_match_parameters
                                  (StrokeType.mk 3 [] (shapes test_token)
                                     (invscales test_token))
                                  test_token (1 / 10000)))));
      reflexivity.
  - apply (proj1 (proj2 (proj2 (proj2 (bounds_match_parameters
                                  (StrokeType.mk 3 [] (shapes test_token)
                                     (invscales test_token))
                                  (mkStrokeToken (mkParam shapes_token false)
                                     (mkParam invscales_token false) None
                                     (mkTensor [2%nat] [0; 105])
                                     (mkTensor [1%nat] [0]))
                                  (1 / 10000)))))).
    discriminate.
Defined.

End PartFacts.

(** ** Assertions and index errors of vanilla_to_motor *)

Section MotorEdgeFacts.
Import Rendering Part.

Variable get_stk_from_bspline : list point -> nat -> result (list point).

Hypothesis spline_evaluates :
  forall cpts neval, exists traj,
    get_stk_from_bspline cpts neval = Ok traj /\ length traj = neval.

Local Abbreviation v2m := (vanilla_to_motor get_stk_from_bspline).

(** X12: [vanilla_to_motor] fails its assertions when an argument is
    [None], when the shapes are not three-dimensional with a second axis of
    size 2, when the inverse scales are not one-dimensional, and when the
    position is not of shape [(2,)]. *)
Theorem vanilla_to_motor_assertions
  (shapes invscales first_pos : option tensor) (neval : nat) :
  (shapes = None \/ invscales = None \/ first_pos = None ->
   v2m shapes invscales first_pos neval = Raise AssertionError)
  /\ (forall s i f,
        shapes = Some s -> invscales = Some i -> first_pos = Some f ->
        length (shape s) <> 3%nat \/ nth 1 (shape s) 0%nat <> 2%nat
        \/ length (shape i) <> 1%nat \/ shape f <> [2%nat] ->
        v2m shapes invscales first_pos neval = Raise AssertionError).
Proof.
  unfold vanilla_to_motor. split.
  - intros [->|[->| ->]]; [reflexivity| |].
    + destruct shapes; reflexivity.
    + destruct shapes, invscales; reflexivity.
  - intros s i f -> -> -> H. cbn [not_none bind].
    destruct (Nat.eqb (length (shape s)) 3) eqn:E1; [|reflexivity].
    destruct (Nat.eqb (nth 1 (shape s) 0%nat) 2) eqn:E2; [|reflexivity].
    destruct (Nat.eqb (length (shape i)) 1) eqn:E3; [|reflexivity].
    unfold shape_eqb.
    destruct (list_eq_dec Nat.eq_dec (shape f) [2%nat]) as [E4|E4];
      [|reflexivity].
    apply Nat.eqb_eq in E1, E2, E3. exfalso. tauto.
Qed.

Lemma motor_loop_app shapes invscales ncpt nsub neval a b st :
  motor_loop get_stk_from_bspline shapes invscales ncpt nsub neval (a ++ b) st
  = (st' <- motor_loop get_stk_from_bspline shapes invscales ncpt nsub neval
              a st ;;
     motor_loop get_stk_from_bspline shapes invscales ncpt nsub neval b st').
Proof.
  revert st; induction a as [|i a IH]; intros st; [reflexivity|].
  cbn [app motor_loop].
  destruct (motor_step get_stk_from_bspline shapes invscales ncpt nsub neval
              i st); cbn [bind]; [apply IH | reflexivity].
Qed.

(** X13: past its assertions [vanilla_to_motor] still fails with an
    [IndexError] when the inverse scales are fewer than the sub-strokes, and
    when no point is to be evaluated for at least one sub-stroke; with no
    sub-stroke at all it returns an empty trajectory. *)
Theorem vanilla_to_motor_index_errors
  (shapes invscales first_pos : tensor) (neval ncpt nsub m : nat) :
  shape shapes = [ncpt; 2%nat; nsub] ->
  shape invscales = [m] -> length (data invscales) = m ->
  shape first_pos = [2%nat] ->
  ((m < nsub)%nat -> (1 <= neval)%nat ->
   v2m (Some shapes) (Some invscales) (Some first_pos) neval
   = Raise IndexError)
  /\ (neval = 0%nat -> (1 <= nsub)%nat ->
      v2m (Some shapes) (Some invscales) (Some first_pos) neval
      = Raise IndexError)
  /\ (nsub = 0%nat ->
      v2m (Some shapes) (Some invscales) (Some first_pos) neval
      = Ok ([], mkTensor [ncpt; 2%nat; 0%nat]
                  (repeat 0 (length (data shapes))))).
Proof.
  intros Hs Hi Li Hp. unfold vanilla_to_motor.
  cbn [not_none bind]. rewrite Hs, Hi, Hp, shape_eqb_refl.
  cbn [length nth Nat.eqb assert bind].
  split; [|split].
  - intros Hlt Hn.
    assert (Eseq : seq 0 nsub = seq 0 m ++ seq m (nsub - m))
      by (rewrite <- seq_app; f_equal; lia).
    rewrite Eseq, motor_loop_app.
    destruct (motor_loop_spec get_stk_from_bspline spline_evaluates shapes
                invscales ncpt nsub neval m Hn 0
                (repeat (repeat (0, 0) neval) nsub)
                (mkTensor [ncpt; 2%nat; nsub]
                   (repeat 0 (length (data shapes))))
                (nth 0 (data first_pos) 0, nth 1 (data first_pos) 0))
      as (m1 & ms1 & p1 & E & _); try (rewrite ?repeat_length; lia).
    rewrite E. cbn [bind].
    destruct (nsub - m)%nat as [|k] eqn:Ek; [lia|].
    cbn [seq motor_loop Nat.add]. unfold motor_step, get_item.
    replace (nth_error (data invscales) m) with (@None R)
      by (symmetry; apply nth_error_None; lia).
    reflexivity.
  - intros -> Hn. destruct nsub as [|k]; [lia|].
    cbn [seq motor_loop]. unfold motor_step, get_item.
    destruct (nth_error (data invscales) 0); cbn [bind]; [|reflexivity].
    destruct (spline_evaluates
                (map (pscale r) (sub_stroke shapes ncpt (S k) 0)) 0)
      as (traj & Et & Lt).
    rewrite Et. cbn [bind]. apply length_zero_iff_nil in Lt. subst traj.
    reflexivity.
  - intros ->. reflexivity.
Qed.

Lemma last_point_map (f : point -> point) (traj : list point) :
  last_point (map f traj) = fmap f (last_point traj).
Proof.
  destruct traj as [|p traj]; [reflexivity|]. cbn. f_equal.
  revert p; induction traj as [|q traj IH]; intros p; [reflexivity|].
  cbn [map last]. destruct traj; [reflexivity|]. apply IH.
Qed.

Lemma shifted_row (d t0 prev : point) (traj : list point) :
  map (fun p => psub p (psub t0 (translate d prev))) traj
  = map (translate d) (map (fun p => psub p (psub t0 prev)) traj).
Proof.
  rewrite map_map. apply map_ext. intros [x y].
  unfold psub, translate; cbn [fst snd]. f_equal; ring.
Qed.

(** One turn of the loop from a start moved by [d]: the row written is the
    row of the first run moved by [d], and so is the next start. *)
Lemma motor_step_translate (d : point) shapes invscales ncpt nsub neval i
  m1 ms1 p1 m1' ms1' p1' m2 ms2 :
  (i < length m1)%nat -> length m2 = length m1 ->
  motor_step get_stk_from_bspline shapes invscales ncpt nsub neval i
    (m1, ms1, p1) = Ok (m1', ms1', p1') ->
  exists m2' ms2',
    motor_step get_stk_from_bspline shapes invscales ncpt nsub neval i
      (m2, ms2, translate d p1) = Ok (m2', ms2', translate d p1')
    /\ length m2' = length m2 /\ length m1' = length m1
    /\ nth i m2' [] = map (translate d) (nth i m1' [])
    /\ (forall j, j <> i ->
          nth j m2' [] = nth j m2 [] /\ nth j m1' [] = nth j m1 []).
Proof.
  intros Hi Hl. unfold motor_step.
  destruct (get_item invscales i) as [s|e]; cbn [bind]; [|discriminate].
  destruct (get_stk_from_bspline _ neval) as [traj|e]; cbn [bind];
    [|discriminate].
  destruct (first_point traj) as [t0|e]; cbn [bind]; [|discriminate].
  rewrite shifted_row.
  set (row := map (fun p => psub p (psub t0 p1)) traj).
  assert (Hrows :
    forall m r, (i < length m)%nat ->
      set_row m neval i (map (translate d) r)
      = match set_row m neval i r with
        | Ok m' => Ok (set_nth m i (map (translate d) (nth i m' [])))
        | Raise e => Raise e
        end).
  { intros m r Hm. unfold set_row. rewrite length_map.
    destruct (Nat.eqb (length r) neval).
    - now rewrite nth_set_nth_same.
    - destruct r as [|q [|q' r]]; try reflexivity.
      cbn [map]. rewrite nth_set_nth_same by assumption.
      now rewrite map_repeat. }
  rewrite (Hrows m2 row) by lia.
  assert (Hsame : forall m m', (i < length m)%nat ->
            set_row m neval i row = Ok m' ->
            length m' = length m
            /\ forall j, j <> i -> nth j m' [] = nth j m []).
  { intros m m' Hm. unfold set_row.
    destruct (Nat.eqb (length row) neval);
      [|destruct row as [|q [|q' r]]; try discriminate];
      intros E; inversion E; subst; rewrite set_nth_length;
      (split; [reflexivity|]); intros j Hj; apply nth_set_nth_other;
      congruence. }
  destruct (set_row m1 neval i row) as [m1x|e] eqn:E1; cbn [bind];
    [|discriminate].
  destruct (Hsame m1 m1x Hi E1) as [L1 O1].
  assert (E2 : exists m2x, set_row m2 neval i row = Ok m2x).
  { unfold set_row in E1 |- *.
    destruct (Nat.eqb (length row) neval); [eauto|].
    destruct row as [|q [|q' r]]; try discriminate; eauto. }
  destruct E2 as (m2x & E2). rewrite E2. cbn [bind].
  rewrite nth_set_nth_same by lia.
  assert (E12 : nth i m2x [] = nth i m1x []).
  { unfold set_row in E1, E2.
    destruct (Nat.eqb (length row) neval);
      [|destruct row as [|q [|q' r]]; try discriminate];
      inversion E1; inversion E2; subst;
      rewrite !nth_set_nth_same by lia; reflexivity. }
  rewrite E12, last_point_map.
  destruct (last_point (nth i m1x [])) as [q|e]; cbn [bind fmap];
    [|discriminate].
  intros E; inversion E; subst.
  do 2 eexists. split; [reflexivity|].
  rewrite set_nth_length. split; [reflexivity|]. split; [assumption|].
  split; [now rewrite nth_set_nth_same by lia|].
  intros j Hj. split; [|now apply O1].
  apply nth_set_nth_other. congruence.
Qed.

Lemma motor_loop_translate (d : point) shapes invscales ncpt nsub neval n :
  forall k m1 ms1 p1 m1' ms1' p1' m2 ms2,
    (k + n <= length m1)%nat -> length m2 = length m1 ->
    motor_loop get_stk_from_bspline shapes invscales ncpt nsub neval
      (seq k n) (m1, ms1, p1) = Ok (m1', ms1', p1') ->
    exists m2' ms2',
      motor_loop get_stk_from_bspline shapes invscales ncpt nsub neval
        (seq k n) (m2, ms2, translate d p1) = Ok (m2', ms2', translate d p1')
      /\ length m2' = length m2 /\ length m1' = length m1
      /\ (forall j, (k <= j < k + n)%nat ->
            nth j m2' [] = map (translate d) (nth j m1' []))
      /\ (forall j, (j < k \/ k + n <= j)%nat ->
            nth j m2' [] = nth j m2 [] /\ nth j m1' [] = nth j m1 []).
Proof.
  induction n as [|n IH];
    intros k m1 ms1 p1 m1' ms1' p1' m2 ms2 Hk Hl.
  - cbn [seq motor_loop]. intros E; inversion E; subst.
    exists m2, ms2. repeat split; try reflexivity; intros; lia.
  - cbn [seq motor_loop].
    destruct (motor_step get_stk_from_bspline shapes invscales ncpt nsub
                neval k (m1, ms1, p1)) as [[[m1x ms1x] p1x]|e] eqn:E1;
      cbn [bind]; [|discriminate].
    intros Eloop.
    destruct (motor_step_translate d shapes invscales ncpt nsub neval k
                m1 ms1 p1 m1x ms1x p1x m2 ms2) as
      (m2x & ms2x & E2 & L2 & L1 & Hrow & Hother); try assumption; try lia.
    rewrite E2. cbn [bind].
    destruct (IH (S k) m1x ms1x p1x m1' ms1' p1' m2x ms2x)
      as (m2' & ms2' & E3 & L3 & L4 & Hin & Hout); try assumption; try lia.
    exists m2', ms2'. split; [assumption|].
    split; [lia|]. split; [lia|]. split.
    + intros j Hj. destruct (Nat.eq_dec j k) as [->|Hjk].
      * destruct (Hout k) as [A B]; [lia|]. now rewrite A, B.
      * apply Hin. lia.
    + intros j Hj. destruct (Hout j) as [A B]; [lia|].
      destruct (Hother j) as [C D]; [lia|]. split; congruence.
Qed.

(** X14: moving the start position moves the whole trajectory with it: on
    well-shaped arguments, [vanilla_to_motor] from [first_pos + d] returns
    the trajectory it returns from [first_pos] with every point moved by
    [d]. *)
Theorem vanilla_to_motor_translation
  (shapes invscales first_pos moved_pos : tensor) (neval ncpt nsub : nat)
  (px py dx dy : R) :
  shape shapes = [ncpt; 2%nat; nsub] ->
  shape invscales = [nsub] -> length (data invscales) = nsub ->
  shape first_pos = [2%nat] -> data first_pos = [px; py] ->
  shape moved_pos = [2%nat] -> data moved_pos = [px + dx; py + dy] ->
  (1 <= neval)%nat ->
  exists motor motor_spline moved_spline,
    v2m (Some shapes) (Some invscales) (Some first_pos) neval
    = Ok (motor, motor_spline)
    /\ v2m (Some shapes) (Some invscales) (Some moved_pos) neval
       = Ok (map (map (translate (dx, dy))) motor, moved_spline).
Proof.
  intros Hs Hi Li Hp Dp Hq Dq Hn. unfold vanilla_to_motor.
  cbn [not_none bind]. rewrite Hs, Hi, Hp, Hq, Dp, Dq, shape_eqb_refl.
  cbn [length nth Nat.eqb assert bind].
  set (m0 := repeat (repeat (0, 0) neval) nsub).
  set (ms0 := mkTensor [ncpt; 2%nat; nsub] (repeat 0 (length (data shapes)))).
  assert (L0 : length m0 = nsub) by (unfold m0; apply repeat_length).
  destruct (motor_loop_spec get_stk_from_bspline spline_evaluates shapes
              invscales ncpt nsub neval nsub Hn 0 m0 ms0 (px, py))
    as (m1 & ms1 & p1 & E1 & L1 & _); try lia.
  destruct (motor_loop_translate (dx, dy) shapes invscales ncpt nsub neval
              nsub 0 m0 ms0 (px, py) m1 ms1 p1 m0 ms0)
    as (m2 & ms2 & E2 & L2 & _ & Hin & _); try lia; try assumption.
  change (translate (dx, dy) (px, py)) with (px + dx, py + dy) in E2.
  rewrite E1, E2. cbn [bind].
  exists m1, ms1, ms2. split; [reflexivity|]. do 2 f_equal.
  apply nth_ext with (d := []) (d' := []).
  - rewrite length_map. lia.
  - intros j Hj. rewrite Hin by lia.
    change (@nil point) with (map (translate (dx, dy)) []) at 2.
    now rewrite map_nth.
Qed.

End MotorEdgeFacts.

Section MotorEdgeExamples.
Import Rendering Part.

Lemma vanilla_to_motor_assertions_witness :
  vanilla_to_motor polyline_spline None (Some invscales_token)
    (Some position_token) 200
  = Raise AssertionError
  /\ vanilla_to_motor polyline_spline (Some shapes_token) (Some invscales_token)
       (Some (mkTensor [3%nat] [1; 2; 3])) 200
     = Raise AssertionError.
Proof.
  split.
  - apply (proj1 (vanilla_to_motor_assertions polyline_spline None
                    (Some invscales_token)
                    (Some position_token) 200)).
    now left.
  - apply (proj2 (vanilla_to_motor_assertions polyline_spline
                    (Some shapes_token)
                    (Some invscales_token)
                    (Some (mkTensor [3%nat] [1; 2; 3])) 200)
             shapes_token invscales_token (mkTensor [3%nat] [1; 2; 3]));
      try reflexivity.
    right; right; right. discriminate.
Defined.

Lemma vanilla_to_motor_index_errors_witness :
  vanilla_to_motor polyline_spline (Some shapes_token)
    (Some (mkTensor [2%nat] [51 / 100; 18 / 100])) (Some position_token) 200
  = Raise IndexError
  /\ vanilla_to_motor polyline_spline (Some shapes_token)
       (Some invscales_token) (Some position_token) 0
     = Raise IndexError
  /\ vanilla_to_motor polyline_spline (Some (mkTensor [5%nat; 2%nat; 0%nat] []))
       (Some (mkTensor [0%nat] [])) (Some position_token) 200
     = Ok ([], mkTensor [5%nat; 2%nat; 0%nat] (repeat 0 0)).
Proof.
  split; [|split].
  - apply (proj1 (vanilla_to_motor_index_errors polyline_spline
                    polyline_spline_evaluates shapes_token
                    (mkTensor [2%nat] [51 / 100; 18 / 100]) position_token
                    200 5 3 2 eq_refl eq_refl eq_refl eq_refl)); lia.
  - apply (proj1 (proj2 (vanilla_to_motor_index_errors polyline_spline
                    polyline_spline_evaluates shapes_token invscales_token
                    position_token 0 5 3 3 eq_refl eq_refl eq_refl eq_refl)));
      [reflexivity | lia].
  - apply (proj2 (proj2 (vanilla_to_motor_index_errors polyline_spline
                    polyline_spline_evaluates
                    (mkTensor [5%nat; 2%nat; 0%nat] []) (mkTensor [0%nat] [])
                    position_token 200 5 0 0 eq_refl eq_refl eq_refl
                    eq_refl))).
    reflexivity.
Defined.

Lemma vanilla_to_motor_translation_witness :
  exists motor motor_spline moved_spline,
    vanilla_to_motor polyline_spline (Some shapes_token)
      (Some invscales_token) (Some position_token) 200
    = Ok (motor, motor_spline)
    /\ vanilla_to_motor polyline_spline (Some shapes_token)
         (Some invscales_token)
         (Some (mkTensor [2%nat] [7425 / 100 + 1; -1328 / 100 + 2])) 200
       = Ok (map (map (translate (1, 2))) motor, moved_spline).
Proof.
  apply (vanilla_to_motor_translation polyline_spline
           polyline_spline_evaluates shapes_token invscales_token
           position_token (mkTensor [2%nat] [7425 / 100 + 1; -1328 / 100 + 2])
           200 5 3 (7425 / 100) (-1328 / 100) 1 2);
    first [reflexivity | lia].
Defined.

End MotorEdgeExamples.

(** ** The Gamma path of the scale CPD *)

Section CpdEdgeFacts.
Import CpdScale.

Variable CPDUnif_sample : Library -> itensor -> result tensor.
Variable CPDUnif_score : Library -> tensor -> itensor -> result tensor.
Variable gamma_sample : list R -> list R -> tensor.
Variable gamma_log_prob : list R -> list R -> tensor -> result tensor.

Local Abbreviation sample_type :=
  (sample_invscale_type CPDUnif_sample gamma_sample).
Local Abbreviation score_type :=
  (score_invscale_type CPDUnif_score gamma_log_prob).

(** Indexing a row fails with [IndexError] and nothing else, and succeeds
    on a tensor of at least two columns exactly for the indices from
    [-n] to [n - 1]. *)
Lemma theta_row_cases (theta : tensor) (n w : nat) (i : Z) :
  shape theta = [n; w] -> (2 <= w)%nat ->
  ((- Z.of_nat n <= i < Z.of_nat n)%Z ->
   exists r, theta_row theta i = Ok r)
  /\ (~ (- Z.of_nat n <= i < Z.of_nat n)%Z ->
      theta_row theta i = Raise IndexError).
Proof.
  intros Hs Hw. unfold theta_row. rewrite Hs. cbn [nth].
  destruct (Z.leb_spec (- Z.of_nat n) i), (Z.ltb_spec i (Z.of_nat n));
    cbn [andb].
  - replace (Nat.leb 2 w) with true by (symmetry; apply Nat.leb_le; lia).
    split; [eauto | lia].
  - split; [lia | reflexivity].
  - split; [lia | reflexivity].
  - split; [lia | reflexivity].
Qed.

Lemma theta_rows_of_cases (theta : tensor) (n w : nat) (subid : list Z) :
  shape theta = [n; w] -> (2 <= w)%nat ->
  (Forall (fun i => (- Z.of_nat n <= i < Z.of_nat n)%Z) subid ->
   exists rs, theta_rows_of theta subid = Ok rs /\ length rs = length subid)
  /\ (Exists (fun i => ~ (- Z.of_nat n <= i < Z.of_nat n)%Z) subid ->
      theta_rows_of theta subid = Raise IndexError).
Proof.
  intros Hs Hw. induction subid as [|i subid [IHok IHbad]].
  - split; [intros _; exists []; split; reflexivity|].
    intros H; inversion H.
  - destruct (theta_row_cases theta n w i Hs Hw) as [Hin Hout]. split.
    + intros H; inversion H as [|? ? Hi Hrest]; subst.
      destruct (Hin Hi) as (r & Er). destruct (IHok Hrest) as (rs & Ers & L).
      exists (r :: rs). cbn [theta_rows_of]. rewrite Er, Ers.
      cbn [bind length]. split; [reflexivity | now rewrite L].
    + intros H. cbn [theta_rows_of].
      destruct (Z_le_dec (- Z.of_nat n) i) as [Hlo|Hlo];
        [destruct (Z_lt_dec i (Z.of_nat n)) as [Hhi|Hhi]|].
      * destruct (Hin (conj Hlo Hhi)) as (r & Er). rewrite Er. cbn [bind].
        inversion H as [? ? Hi|? ? Hrest]; subst; [tauto|].
        now rewrite (IHbad Hrest).
      * rewrite Hout by lia. reflexivity.
      * rewrite Hout by lia. reflexivity.
Qed.

Lemma theta_rows_cases (theta : tensor) (n w : nat) (subid : list Z) :
  shape theta = [n; w] -> (2 <= w)%nat ->
  (Forall (fun i => (- Z.of_nat n <= i < Z.of_nat n)%Z) subid ->
   exists rs, theta_rows theta subid = Ok rs /\ length rs = length subid)
  /\ (Exists (fun i => ~ (- Z.of_nat n <= i < Z.of_nat n)%Z) subid ->
      theta_rows theta subid = Raise IndexError).
Proof.
  intros Hs Hw.
  destruct (theta_rows_of_cases theta n w subid Hs Hw) as [Hok Hbad].
  unfold theta_rows. rewrite Hs. cbn [nth].
  replace (Nat.leb 2 w) with true by (symmetry; apply Nat.leb_le; lia).
  split.
  - intros H. destruct (Hok H) as (rs & E & L). rewrite E. cbn [bind]. eauto.
  - intros H. now rewrite (Hbad H).
Qed.

(** X15: on a library that is not uniform and a vector of ids, the sampler
    and the scorer (its own assertions passed) fail with [AssertionError]
    when [theta] is not two-dimensional, and with [IndexError] when [theta]
    has [n] rows and some id is outside [-n .. n-1]; in both cases no Gamma
    distribution has been constructed.  When [theta] has at least two
    columns and every id is within [-n .. n-1], the sampler constructs one
    Gamma distribution with one concentration and one rate per id and
    returns its sample. *)
Theorem gamma_path_index_range (lib : Library) (invscales : tensor)
  (subid : itensor) :
  isunif lib = false ->
  length (ishape subid) = 1%nat ->
  length (shape invscales) = 1%nat ->
  len (shape invscales) = len (ishape subid) ->
  (length (shape (scale_theta lib)) <> 2%nat ->
   sample_type lib subid = ([], Raise AssertionError)
   /\ score_type lib invscales subid = ([], Raise AssertionError))
  /\ (forall n w : nat,
      shape (scale_theta lib) = [n; w] -> (2 <= w)%nat ->
      (Exists (fun i => ~ (- Z.of_nat n <= i < Z.of_nat n)%Z) (idata subid) ->
       sample_type lib subid = ([], Raise IndexError)
       /\ score_type lib invscales subid = ([], Raise IndexError))
      /\ (Forall (fun i => (- Z.of_nat n <= i < Z.of_nat n)%Z) (idata subid) ->
          exists concentration rate,
            sample_type lib subid
            = ([NewGamma concentration rate; GammaSample],
               Ok (gamma_sample concentration rate))
            /\ score_type lib invscales subid
               = ([NewGamma concentration rate; GammaLogProb invscales],
                  gamma_log_prob concentration rate invscales)
            /\ length concentration = length (idata subid)
            /\ length rate = length (idata subid))).
Proof.
  intros Hu H1 H2 H3.
  unfold sample_invscale_type, score_invscale_type, get_dist.
  rewrite Hu, H1, H2, H3, !Nat.eqb_refl. cbn [tassert tbind tret].
  split.
  - intros Hd. rewrite (proj2 (Nat.eqb_neq _ _) Hd). split; reflexivity.
  - intros n w Hs Hw. rewrite Hs. cbn [length Nat.eqb tassert tbind tret].
    destruct (theta_rows_cases (scale_theta lib) n w (idata subid) Hs Hw)
      as [Hok Hbad].
    split.
    + intros Hex. rewrite (Hbad Hex). split; reflexivity.
    + intros Hall. destruct (Hok Hall) as (rs & Ers & L).
      rewrite Ers. cbn.
      exists (map fst rs), (map (fun r => 1 / snd r) rs).
      rewrite !length_map.
      destruct (gamma_log_prob (map fst rs) (map (fun r => 1 / snd r) rs)
                  invscales); repeat split; assumption.
Qed.

End CpdEdgeFacts.

Section CpdEdgeExamples.
Import CpdScale.

Lemma gamma_path_index_range_witness :
  sample_invscale_type stub_unif_sample stub_gamma_sample gamma_lib
    (mkITensor [2%nat] [0%Z; 2%Z])
  = ([], Raise IndexError)
  /\ score_invscale_type stub_unif_score stub_gamma_log_prob gamma_lib
       two_scales (mkITensor [2%nat] [0%Z; 2%Z])
     = ([], Raise IndexError).
Proof.
  apply (proj1 (proj2 (gamma_path_index_range stub_unif_sample
                         stub_unif_score stub_gamma_sample
                         stub_gamma_log_prob gamma_lib two_scales
                         (mkITensor [2%nat] [0%Z; 2%Z])
                         eq_refl eq_refl eq_refl eq_refl)
                 2%nat 2%nat eq_refl (le_n 2))).
  apply Exists_cons_tl, Exists_cons_hd. simpl. lia.
Defined.

End CpdEdgeExamples.

(** ** How the spatial model splits the positions *)

Section SpatialSplitFacts.
Import Rendering SpatialModel.
Open Scope Z_scope.

Lemma mask_select_map_length {A} (f : Z -> bool) (t : list A) (ids : list Z) :
  length ids = length t ->
  length (mask_select t (map f ids)) = length (filter f ids).
Proof.
  revert t; induction ids as [|d ids IH]; intros [|a t] H;
    simpl in H; try discriminate; [reflexivity|].
  cbn [map mask_select filter].
  destruct (f d); cbn [length]; rewrite IH by lia; reflexivity.
Qed.

(** Counting by histogram and counting by position agree. *)
Lemma count_by_position (fs : list (Z -> bool)) (ids : list Z) :
  list_sum (map (fun f => length (filter f ids)) fs)
  = list_sum (map (fun d => length (filter (fun f => f d) fs)) ids).
Proof.
  induction ids as [|d ids IH].
  - simpl. induction fs as [|f fs IHf]; [reflexivity | exact IHf].
  - change (list_sum (map (fun f => length (filter f (d :: ids))) fs)
            = (length (filter (fun f : Z -> bool => f d) fs)
               + list_sum
                   (map (fun d => length (filter (fun f : Z -> bool => f d) fs))
                      ids))%nat).
    rewrite <- IH. clear IH.
    induction fs as [|f fs IHf]; [reflexivity|].
    unfold list_sum in *. cbn [map fold_right]. rewrite IHf. cbn [filter].
    destruct (f d); cbn [length]; lia.
Qed.

Lemma list_sum_indicator (used : Z -> bool) (ids : list Z) :
  list_sum (map (fun d => if used d then 1 else 0)%nat ids)
  = length (filter used ids).
Proof.
  induction ids as [|d ids IH]; [reflexivity|].
  unfold list_sum in *. cbn [map fold_right filter]. rewrite IH.
  destruct (used d); cbn [length]; lia.
Qed.

(** The tests of the constructor, one per histogram. *)
Lemma label_tests_count (clump_id l : Z) :
  length (filter (fun f : Z -> bool => f l)
            (map (fun i d => Z.eqb d i) (range (clump_id - 1))
             ++ [fun d => Z.geb d clump_id]))
  = if ((0 <=? l) && (l <? clump_id - 1) || (l >=? clump_id))%bool
    then 1%nat else 0%nat.
Proof.
  rewrite filter_app, length_app. unfold range.
  replace (length (filter (fun f : Z -> bool => f l)
             (map (fun i d => Z.eqb d i)
                (map Z.of_nat (seq 0 (Z.to_nat (clump_id - 1)))))))
    with (length (filter (fun i => Z.eqb l i)
             (map Z.of_nat (seq 0 (Z.to_nat (clump_id - 1)))))).
  - rewrite count_in_range. cbn [filter].
    destruct (Z.leb_spec 0 l), (Z.ltb_spec l (clump_id - 1)),
      (Z.leb_spec (Z.of_nat 0) l),
      (Z.ltb_spec l (Z.of_nat (0 + Z.to_nat (clump_id - 1))));
      destruct (Z.geb_spec l clump_id); cbn; try reflexivity; lia.
  - induction (map Z.of_nat (seq 0 (Z.to_nat (clump_id - 1))))
      as [|i r IH]; [reflexivity|].
    cbn [map filter]. destruct (Z.eqb l i); cbn [length]; now rewrite IH.
Qed.

(** X16: when the two arrays are as long as each other the constructor
    returns [max(clump_id - 1, 0) + 1] histograms, and no position is fit
    on twice: the number of histograms a position of label [l] is in is 1
    when [0 <= l < clump_id - 1] or [l >= clump_id], and 0 otherwise (a
    negative label, or the label [clump_id - 1]). *)
Theorem positions_used_at_most_once (data_start : list point)
  (data_id : list Z) (clump_id : Z) (xlim ylim : point) (nbin : nat) (pc : R)
  (k : nat) (l : Z) :
  length data_id = length data_start ->
  nth_error data_id k = Some l ->
  exists list_SH,
    SpatialModel_init data_start data_id clump_id xlim ylim nbin pc
    = Ok list_SH
    /\ length list_SH = (Z.to_nat (clump_id - 1) + 1)%nat
    /\ map fit_on list_SH
       = map (mask_select data_start) (label_masks data_id clump_id)
    /\ (times_used data_id clump_id k <= 1)%nat
    /\ (times_used data_id clump_id k = 1%nat
        <-> 0 <= l < clump_id - 1 \/ clump_id <= l).
Proof.
  intros Hl Hk.
  destruct (SpatialModel_init_masks data_start data_id clump_id xlim ylim
              nbin pc Hl) as [E L].
  eexists. split; [exact E|]. rewrite length_map, map_map. cbn [fit_on].
  split; [exact L|]. split; [reflexivity|].
  rewrite (times_used_spec _ _ _ _ Hk).
  destruct (Z.leb_spec 0 l), (Z.ltb_spec l (clump_id - 1));
    destruct (Z.geb_spec l clump_id); cbn; split; try lia;
    split; intros; try lia; discriminate.
Qed.

(** X17: the constructor fails its assertion when the two arrays differ in
    length.  Otherwise the histograms together hold as many points as
    there are labels that are either in [0 .. clump_id - 2] or at least
    [clump_id], which is at most the number of positions; with
    [clump_id <= 1] there is the pooled histogram alone. *)
Theorem SpatialModel_init_point_count (data_start : list point)
  (data_id : list Z) (clump_id : Z) (xlim ylim : point) (nbin : nat)
  (pc : R) :
  (length data_id <> length data_start ->
   SpatialModel_init data_start data_id clump_id xlim ylim nbin pc
   = Raise AssertionError)
  /\ (length data_id = length data_start ->
      exists list_SH,
        SpatialModel_init data_start data_id clump_id xlim ylim nbin pc
        = Ok list_SH
        /\ list_sum (map (fun sh => length (fit_on sh)) list_SH)
           = length
               (filter (fun l => (0 <=? l) && (l <? clump_id - 1)
                                 || (l >=? clump_id))%bool data_id)
        /\ (list_sum (map (fun sh => length (fit_on sh)) list_SH)
            <= length data_start)%nat
        /\ (clump_id <= 1 ->
            list_SH
            = [mkSpatialHist
                 (mask_select data_start
                    (map (fun d => d >=? clump_id) data_id))
                 xlim ylim nbin pc])).
Proof.
  split.
  - intros Hne. unfold SpatialModel_init.
    rewrite (proj2 (Nat.eqb_neq _ _) Hne). reflexivity.
  - intros Hl.
    destruct (SpatialModel_init_masks data_start data_id clump_id xlim ylim
                nbin pc Hl) as [E _].
    eexists. split; [exact E|].
    assert (Hcount :
      list_sum
        (map (fun sh => length (fit_on sh))
           (map (fun mask =>
                   mkSpatialHist (mask_select data_start mask) xlim ylim
                     nbin pc) (label_masks data_id clump_id)))
      = length
          (filter (fun l => (0 <=? l) && (l <? clump_id - 1)
                            || (l >=? clump_id))%bool data_id)).
    { rewrite map_map. cbn [fit_on]. unfold label_masks.
      transitivity
        (list_sum
           (map (fun f : Z -> bool => length (filter f data_id))
              (map (fun i d => Z.eqb d i) (range (clump_id - 1))
               ++ [fun d => Z.geb d clump_id]))).
      - rewrite !map_app, !map_map. cbn [map].
        rewrite (mask_select_map_length (fun d => d >=? clump_id)) by exact Hl.
        do 2 f_equal. apply map_ext. intros i.
        apply (mask_select_map_length (fun d => d =? i)). exact Hl.
      - rewrite count_by_position.
        rewrite <- list_sum_indicator. f_equal. apply map_ext. intros d.
        apply label_tests_count. }
    split; [exact Hcount|]. split.
    + rewrite Hcount, <- Hl. apply filter_length_le.
    + intros Hc. unfold label_masks, range.
      replace (Z.to_nat (clump_id - 1)) with 0%nat by lia. reflexivity.
Qed.

End SpatialSplitFacts.

Section SpatialSplitExamples.
Import Rendering SpatialModel.

Lemma positions_used_at_most_once_witness :
  exists list_SH,
    SpatialModel_init [(0, 0); (1, 1); (2, 2)] [0; 1; 2]%Z 2
      (0, 1) (0, 1) 2 1
    = Ok list_SH
    /\ length list_SH = (Z.to_nat (2 - 1) + 1)%nat
    /\ map fit_on list_SH
       = map (mask_select [(0, 0); (1, 1); (2, 2)])
           (label_masks [0; 1; 2]%Z 2)
    /\ (times_used [0; 1; 2]%Z 2 1 <= 1)%nat
    /\ (times_used [0; 1; 2]%Z 2 1 = 1%nat
        <-> (0 <= 1 < 2 - 1 \/ 2 <= 1)%Z).
Proof.
  apply (positions_used_at_most_once [(0, 0); (1, 1); (2, 2)] [0; 1; 2]%Z 2
           (0, 1) (0, 1) 2 1 1 1%Z); reflexivity.
Defined.

End SpatialSplitExamples.

(** ** How the rejection loop ends, and what [make] needs *)

Section WalkerLoopFacts.
Import RandomWalker.

Variable world : Type.
Variable random_choice : list R -> world -> result R * world.
Variable make_body : R -> R -> world -> result walk * world.

Local Abbreviation make := (make world make_body).
Local Abbreviation det_walk := (det_walk world make_body).
Local Abbreviation sample_loop := (sample_loop world make_body).
Local Abbreviation after_makes := (after_makes world make_body).
Local Abbreviation sample := (sample world random_choice make_body).
Local Abbreviation draw_parameters := (draw_parameters world random_choice).
Local Abbreviation rejected_before := (rejected_before world make_body).

Lemma make_keeps_ps (self : walker world) :
  ps world (snd (make self)) = ps world self.
Proof.
  unfold RandomWalker.make.
  destruct (exp_wt_start world self), (lmbda world self);
    try destruct (make_body _ _ _); reflexivity.
Qed.

Lemma rejected_before_step (k : nat) (self : walker world) :
  rejected_before (S k) self
  <-> exists w0, fst (make self) = Ok w0
                 /\ (max_len (ps world self) < length w0)%nat
                 /\ rejected_before k (snd (make self)).
Proof.
  unfold RandomWalker.rejected_before. split.
  - intros H. destruct (H 0%nat) as (w0 & E0 & L0); [lia|].
    cbn [RandomWalker.after_makes] in E0. exists w0.
    split; [assumption|]. split; [assumption|].
    intros j Hj. rewrite make_keeps_ps.
    apply (H (S j)). lia.
  - intros (w0 & E0 & L0 & H) [|j] Hj.
    + exists w0. split; assumption.
    + cbn [RandomWalker.after_makes].
      rewrite <- (make_keeps_ps self). apply H. lia.
Qed.

(** The loop is still running after [fuel] turns exactly when the first
    [fuel] walks were all too long. *)
Lemma sample_loop_running (fuel : nat) :
  forall self : walker world,
    sample_loop fuel self = None <-> rejected_before fuel self.
Proof.
  induction fuel as [|fuel IH]; intros self.
  - simpl. split; [|reflexivity].
    intros _ j Hj. lia.
  - rewrite rejected_before_step. cbn [RandomWalker.sample_loop].
    pose proof (make_keeps_ps self) as Hps.
    destruct (make self) as [[w0|e] self1]; cbn [fst snd] in *.
    + rewrite Hps.
      destruct (Nat.ltb_spec (max_len (ps world self)) (length w0))
        as [Hlong|Hshort].
      * rewrite IH. split.
        -- intros H. exists w0. auto.
        -- intros (w1 & E1 & _ & H). exact H.
      * split; [discriminate|].
        intros (w1 & E1 & L1 & _). inversion E1; subst. lia.
    + split; [discriminate|].
      intros (w1 & E1 & _). discriminate.
Qed.

(** The loop raises exactly when a call of [make] within the fuel raises,
    all walks before it being too long. *)
Lemma sample_loop_raises (fuel : nat) :
  forall (self : walker world) e self',
    sample_loop fuel self = Some (Raise e, self')
    <-> exists k, (k < fuel)%nat
          /\ make (after_makes k self) = (Raise e, self')
          /\ rejected_before k self.
Proof.
  induction fuel as [|fuel IH]; intros self e self'.
  - simpl. split; [discriminate | intros (k & Hk & _); lia].
  - cbn [RandomWalker.sample_loop].
    pose proof (make_keeps_ps self) as Hps.
    pose proof (rejected_before_step) as Hstep.
    destruct (make self) as [[w0|e0] self1] eqn:Em; cbn [fst snd] in *.
    + rewrite Hps.
      destruct (Nat.ltb_spec (max_len (ps world self)) (length w0))
        as [Hlong|Hshort].
      * rewrite IH. split.
        -- intros (k & Hk & Hmk & Hrej). exists (S k).
           split; [lia|]. cbn [RandomWalker.after_makes]. rewrite Em.
           split; [exact Hmk|]. apply Hstep. rewrite Em. exists w0. auto.
        -- intros (k & Hk & Hmk & Hrej). destruct k as [|k].
           ++ cbn [RandomWalker.after_makes] in Hmk. congruence.
           ++ exists k. split; [lia|].
              cbn [RandomWalker.after_makes] in Hmk. rewrite Em in Hmk.
              split; [exact Hmk|].
              apply Hstep in Hrej. rewrite Em in Hrej.
              destruct Hrej as (_ & _ & _ & H). exact H.
      * split; [discriminate|].
        intros (k & Hk & Hmk & Hrej). destruct k as [|k].
        -- cbn [RandomWalker.after_makes] in Hmk. congruence.
        -- apply Hstep in Hrej. rewrite Em in Hrej.
           destruct Hrej as (w1 & E1 & L1 & _). inversion E1; subst. lia.
    + split.
      * intros E; inversion E; subst. exists 0%nat.
        split; [lia|]. split; [exact Em|]. intros j Hj; lia.
      * intros (k & Hk & Hmk & Hrej). destruct k as [|k].
        -- cbn [RandomWalker.after_makes] in Hmk. congruence.
        -- apply Hstep in Hrej. rewrite Em in Hrej.
           destruct Hrej as (w1 & E1 & _). discriminate.
Qed.

(** X18: the three ways [sample]'s loop goes.  It is still running after
    [fuel] calls of [make] exactly when all their walks were longer than
    [max_len]; it raises exactly the exception of the first call of [make]
    that raises, the walks before it being too long; and once it has
    returned, more fuel does not change what it returned.  In particular,
    when every walk [make] can build is longer than [max_len], [sample]
    returns for no amount of fuel. *)
Theorem sample_loop_outcomes (fuel : nat) (self : walker world) :
  (sample_loop fuel self = None <-> rejected_before fuel self)
  /\ (forall e self',
        sample_loop fuel self = Some (Raise e, self')
        <-> exists k, (k < fuel)%nat
              /\ make (after_makes k self) = (Raise e, self')
              /\ rejected_before k self)
  /\ (forall r more,
        sample_loop fuel self = Some r ->
        sample_loop (fuel + more) self = Some r)
  /\ ((forall e l w, exists walk w',
         make_body e l w = (Ok walk, w')
         /\ (max_len (ps world self) < length walk)%nat) ->
      forall self1, draw_parameters self = (Ok tt, self1) ->
      sample fuel self = None).
Proof.
  split; [apply sample_loop_running|].
  split; [apply sample_loop_raises|]. split.
  - revert self. induction fuel as [|fuel IH]; intros self r more;
      [discriminate|].
    cbn [RandomWalker.sample_loop Nat.add].
    destruct (make self) as [[w0|e] self1]; [|trivial].
    destruct (Nat.ltb (max_len (ps world self1)) (length w0)); [|trivial].
    apply IH.
  - intros Hlong self1 Hdraw. unfold RandomWalker.sample. rewrite Hdraw.
    assert (Hps : ps world self1 = ps world self).
    { revert Hdraw. unfold RandomWalker.draw_parameters.
      destruct (random_choice (int_exp_wt (ps world self)) (env world self))
        as [[e|x] env1]; [|discriminate].
      destruct (random_choice (int_lambda_soft (ps world self)) env1)
        as [[l|x] env2]; [|discriminate].
      intros E; inversion E; reflexivity. }
    assert (Hset : exists e l, exp_wt_start world self1 = Some e
                               /\ lmbda world self1 = Some l).
    { revert Hdraw. unfold RandomWalker.draw_parameters.
      destruct (random_choice (int_exp_wt (ps world self)) (env world self))
        as [[e|x] env1]; [|discriminate].
      destruct (random_choice (int_lambda_soft (ps world self)) env1)
        as [[l|x] env2]; [|discriminate].
      intros E; inversion E; cbn; eauto. }
    rewrite <- Hps in Hlong. clear Hdraw Hps. revert self1 Hlong Hset.
    induction fuel as [|fuel IH]; intros self1 Hlong (e & l & He & Hl);
      [reflexivity|].
    cbn [RandomWalker.sample_loop]. unfold RandomWalker.make.
    rewrite He, Hl.
    destruct (Hlong e l (env world self1)) as (w0 & env' & Eb & Lb).
    rewrite Eb. cbn [ps].
    replace (Nat.ltb (max_len (ps world self1)) (length w0)) with true
      by (symmetry; apply Nat.ltb_lt; exact Lb).
    apply IH; [exact Hlong | cbn; eauto].
Qed.

(** X19: [make] needs [sample] or [det_walk] first.  On a walker whose
    [exp_wt_start] or [lmbda] is not set it fails its assertion and
    leaves the walker as it was.  [det_walk] sets both to 1000 and builds
    one walk with them, whatever its length (there is no comparison with
    [max_len]), and a later [make] runs with 1000 and 1000 again. *)
Theorem make_needs_parameters (self : walker world) :
  (exp_wt_start world self = None \/ lmbda world self = None ->
   make self = (Raise AssertionError, self))
  /\ det_walk self
     = (fst (make_body 1000 1000 (env world self)),
        mkWalker world (ps world self) (Some 1000) (Some 1000)
          (snd (make_body 1000 1000 (env world self))))
  /\ make (snd (det_walk self))
     = (fst (make_body 1000 1000 (env world (snd (det_walk self)))),
        mkWalker world (ps world self) (Some 1000) (Some 1000)
          (snd (make_body 1000 1000 (env world (snd (det_walk self)))))).
Proof.
  split; [|split].
  - unfold RandomWalker.make. intros [H|H]; rewrite H; [reflexivity|].
    destruct (exp_wt_start world self); reflexivity.
  - unfold RandomWalker.det_walk, RandomWalker.make. cbn.
    destruct (make_body 1000 1000 (env world self)); reflexivity.
  - unfold RandomWalker.det_walk, RandomWalker.make. cbn.
    destruct (make_body 1000 1000 (env world self)) as [r env1]. cbn.
    destruct (make_body 1000 1000 env1); reflexivity.
Qed.

End WalkerLoopFacts.

Section WalkerLoopExamples.
Import RandomWalker.

Lemma sample_loop_outcomes_witness :
  sample nat first_choice long_make 7 toy_walker = None.
Proof.
  apply (proj2 (proj2 (proj2 (sample_loop_outcomes nat first_choice long_make
                                7 toy_walker)))
           (fun e l w =>
              ex_intro _ (repeat (mkWalkerStroke [0%nat] []) 3)
                (ex_intro _ (S w) (conj eq_refl (le_n 3))))
           (mkWalker nat (ps nat toy_walker) (Some 1) (Some 2) 0%nat)
           eq_refl).
Defined.

End WalkerLoopExamples.

(** ** The distributions the walker draws from *)

Section SoftmaxFacts.
Import RandomWalker.

Lemma Rsum_exp_pos (a : list R) : a <> [] -> 0 < Rsum (map exp a).
Proof.
  destruct a as [|x a]; [congruence|]. intros _. revert x.
  induction a as [|y a IH]; intros x; cbn [map Rsum fold_right].
  - pose proof (exp_pos x). lra.
  - pose proof (exp_pos x). specialize (IH y).
    cbn [map Rsum fold_right] in IH. unfold Rsum in *. lra.
Qed.

Lemma Rsum_scaled (c : R) (l : list R) :
  Rsum (map (fun x => x / c) l) = Rsum l / c.
Proof.
  unfold Rsum. induction l as [|x l IH]; cbn [map fold_right];
    [lra | rewrite IH; lra].
Qed.

(** Subtracting [logsumexp] and exponentiating divides by the sum. *)
Lemma softmax_entries (l : list R) :
  l <> [] ->
  map exp (map (fun x => x - logsumexp l) l)
  = map (fun x => x / Rsum (map exp l)) (map exp l).
Proof.
  intros Hne. pose proof (Rsum_exp_pos l Hne) as Hpos.
  rewrite !map_map. apply map_ext. intros x. unfold logsumexp, Rminus.
  rewrite exp_plus, exp_Ropp, exp_ln by exact Hpos. reflexivity.
Qed.

Lemma Rsum_nonneg (l : list R) : Forall (fun x => 0 < x) l -> 0 <= Rsum l.
Proof.
  unfold Rsum. induction 1 as [|y l Hy Hl IHl]; cbn [fold_right]; lra.
Qed.

Lemma Rsum_bounds_entries (l : list R) :
  Forall (fun x => 0 < x) l -> Forall (fun x => 0 < x <= Rsum l) l.
Proof.
  induction l as [|x l IH]; intros H; [constructor|].
  inversion H as [|? ? Hx Hl]; subst. specialize (IH Hl).
  pose proof (Rsum_nonneg l Hl) as Hs. unfold Rsum in *.
  constructor; cbn [fold_right]; [lra|].
  eapply Forall_impl; [|exact IH]. cbn beta. intros y Hy. lra.
Qed.

(** A vector that has been through the two normalising lines is a
    probability vector. *)
Lemma softmax_distribution (l : list R) :
  l <> [] ->
  Rsum (map exp (map (fun x => x - logsumexp l) l)) = 1
  /\ Forall (fun p => 0 <= p <= 1)
       (map exp (map (fun x => x - logsumexp l) l)).
Proof.
  intros Hne. pose proof (Rsum_exp_pos l Hne) as Hpos.
  assert (Hsum : Rsum (map exp (map (fun x => x - logsumexp l) l)) = 1).
  { rewrite softmax_entries, Rsum_scaled by exact Hne. now field; lra. }
  split; [exact Hsum|].
  rewrite <- Hsum.
  eapply Forall_impl; [|apply Rsum_bounds_entries].
  - cbn beta. intros p Hp. lra.
  - rewrite map_map. apply Forall_forall. intros p Hp.
    apply in_map_iff in Hp. destruct Hp as (x & <- & _). apply exp_pos.
Qed.

Lemma exp_monotone (x y : R) : x <= y -> exp x <= exp y.
Proof.
  intros [Hlt|Heq]; [left; now apply exp_increasing | rewrite Heq; lra].
Qed.

(** X20: for a non-empty vector of angles the probabilities of
    [_action_via_angle] are the values [exp(-lambda*angle/180)] divided by
    their sum: one per angle, each between 0 and 1, summing to 1.  With
    [lambda >= 0] a larger angle never has the greater probability, and
    with [lambda = 0] all moves are equally likely. *)
Theorem action_via_angle_p_distribution (lmbda : R) (angles : list R) :
  angles <> [] ->
  let weight := fun a => exp (- lmbda * a / 180) in
  let total := Rsum (map weight angles) in
  0 < total
  /\ action_via_angle_p lmbda angles
     = map (fun a => weight a / total) angles
  /\ Rsum (action_via_angle_p lmbda angles) = 1
  /\ Forall (fun p => 0 <= p <= 1) (action_via_angle_p lmbda angles)
  /\ (0 <= lmbda ->
      forall a b, a <= b -> weight b / total <= weight a / total)
  /\ (lmbda = 0 ->
      action_via_angle_p lmbda angles
      = map (fun _ => 1 / INR (length angles)) angles).
Proof.
  intros Hne weight total.
  set (logp := map (fun a => - lmbda * a / 180) angles).
  assert (Hl : logp <> [])
    by (unfold logp; destruct angles; [congruence | discriminate]).
  assert (Ht : total = Rsum (map exp logp))
    by (unfold total, logp, weight; now rewrite map_map).
  assert (Hpos : 0 < total) by (rewrite Ht; now apply Rsum_exp_pos).
  assert (Hp : action_via_angle_p lmbda angles
               = map (fun a => weight a / total) angles).
  { unfold action_via_angle_p. fold logp.
    rewrite softmax_entries by exact Hl. rewrite <- Ht.
    unfold logp. rewrite !map_map. reflexivity. }
  destruct (softmax_distribution logp Hl) as [Hsum Hall].
  split; [exact Hpos|]. split; [exact Hp|].
  split; [exact Hsum|]. split; [exact Hall|]. split.
  - intros Hlam a b Hab.
    apply Rmult_le_compat_r; [left; now apply Rinv_0_lt_compat|].
    apply exp_monotone. nra.
  - intros H0. rewrite Hp. subst lmbda.
    assert (Hw : forall a, weight a = 1).
    { intros a. unfold weight.
      replace (- 0 * a / 180) with 0 by lra. apply exp_0. }
    assert (Htot : total = INR (length angles)).
    { unfold total. clear -Hw. unfold Rsum.
      induction angles as [|a angles IH]; [reflexivity|].
      cbn [map fold_right length]. rewrite IH, Hw, S_INR. lra. }
    apply map_ext. intros a. now rewrite Hw, Htot.
Qed.

Lemma available_loop_spec (g : graph) (ns : list nat) :
  available_loop g ns
  = (filter (fun ni => (0 <? degree g ni - visited_degree g ni)%Z) ns,
     map (fun ni => (degree g ni - visited_degree g ni)%Z)
       (filter (fun ni => (0 <? degree g ni - visited_degree g ni)%Z) ns)).
Proof.
  induction ns as [|ni ns IH]; [reflexivity|].
  cbn [available_loop filter]. rewrite IH.
  destruct (0 <? degree g ni - visited_degree g ni)%Z; reflexivity.
Qed.

(** X21: [_available_nodes] returns, in the order of the graph's nodes,
    exactly the nodes whose degree exceeds their visited degree, each with
    that difference; the two lists are as long as each other and every
    degree returned is positive. *)
Theorem available_nodes_spec (g : graph) :
  let (list_ni, list_degree) := _available_nodes g in
  list_ni
  = filter (fun ni => (0 <? degree g ni - visited_degree g ni)%Z) (nodes g)
  /\ list_degree
     = map (fun ni => (degree g ni - visited_degree g ni)%Z) list_ni
  /\ length list_degree = length list_ni
  /\ Forall (fun d => (0 < d)%Z) list_degree
  /\ (forall ni, In ni list_ni
                 <-> In ni (nodes g)
                     /\ (visited_degree g ni < degree g ni)%Z).
Proof.
  unfold _available_nodes. rewrite available_loop_spec.
  split; [reflexivity|]. split; [reflexivity|].
  split; [apply length_map|]. split.
  - apply Forall_forall. intros d Hd. apply in_map_iff in Hd.
    destruct Hd as (ni & <- & Hin). apply filter_In in Hin.
    destruct Hin as [_ Hpos]. now apply Z.ltb_lt in Hpos.
  - intros ni. rewrite filter_In, Z.ltb_lt. split; intros [H1 H2];
      (split; [exact H1 | lia]).
Qed.

(** X22: when some node of the graph has an unvisited edge, the weights
    [pen_up_down] draws the starting node with are, for the unvisited
    degrees [d] that [_available_nodes] returns, the values
    [(1/d)^exp_wt_start] divided by their sum: one per available node,
    each between 0 and 1, summing to 1.  With [exp_wt_start >= 0] a node
    of larger unvisited degree never has the greater weight. *)
Theorem pen_up_down_wts_distribution (g : graph) (exp_wt_start : R) :
  fst (_available_nodes g) <> [] ->
  let degree := snd (_available_nodes g) in
  let weight := fun d : Z => Rpower (1 / IZR d) exp_wt_start in
  let total := Rsum (map weight degree) in
  0 < total
  /\ length (pen_up_down_wts exp_wt_start degree)
     = length (fst (_available_nodes g))
  /\ pen_up_down_wts exp_wt_start degree
     = map (fun d => weight d / total) degree
  /\ Rsum (pen_up_down_wts exp_wt_start degree) = 1
  /\ Forall (fun p => 0 <= p <= 1) (pen_up_down_wts exp_wt_start degree)
  /\ (0 <= exp_wt_start ->
      forall d1 d2 : Z, (0 < d1 <= d2)%Z ->
        weight d2 / total <= weight d1 / total).
Proof.
  intros Hne. unfold _available_nodes in *.
  rewrite available_loop_spec in *. cbn [fst] in Hne.
  set (avail := filter _ (nodes g)) in *.
  cbn [fst snd].
  set (degree := map _ avail).
  set (weight := fun d : Z => Rpower (1 / IZR d) exp_wt_start).
  set (total := Rsum (map weight degree)).
  set (logwts := map (fun d => exp_wt_start * ln (1 / d)) (map IZR degree)).
  assert (Hd : degree <> []).
  { unfold degree. intros E. apply map_eq_nil in E. contradiction. }
  assert (Hl : logwts <> []).
  { unfold logwts. destruct degree; [congruence | discriminate]. }
  assert (Ht : total = Rsum (map exp logwts)).
  { unfold total, logwts, weight, Rpower. now rewrite !map_map. }
  assert (Hpos : 0 < total) by (rewrite Ht; now apply Rsum_exp_pos).
  assert (Hp : pen_up_down_wts exp_wt_start degree
               = map (fun d => weight d / total) degree).
  { unfold pen_up_down_wts. fold logwts.
    rewrite softmax_entries by exact Hl. rewrite <- Ht.
    unfold logwts, weight, Rpower. rewrite !map_map. reflexivity. }
  destruct (softmax_distribution logwts Hl) as [Hsum Hall].
  split; [exact Hpos|]. split.
  { rewrite Hp, length_map. unfold degree. apply length_map. }
  split; [exact Hp|]. split; [exact Hsum|]. split; [exact Hall|].
  intros He d1 d2 [H1 H2].
  apply Rmult_le_compat_r; [left; now apply Rinv_0_lt_compat|].
  unfold weight, Rpower. apply exp_monotone.
  apply Rmult_le_compat_l; [exact He|].
  assert (R1 : 0 < IZR d1) by now apply IZR_lt.
  assert (R2 : IZR d1 <= IZR d2) by now apply IZR_le.
  destruct R2 as [R2|R2]; [|rewrite R2; lra].
  left. apply ln_increasing.
  - apply Rdiv_lt_0_compat; lra.
  - unfold Rdiv. rewrite !Rmult_1_l. apply Rinv_lt_contravar; [nra | exact R2].
Qed.

End SoftmaxFacts.

Section SoftmaxExamples.
Import RandomWalker.

Lemma action_via_angle_p_distribution_witness :
  Rsum (action_via_angle_p 2 [0; 90; 180]) = 1.
Proof.
  apply (action_via_angle_p_distribution 2 [0; 90; 180]). discriminate.
Defined.

Lemma pen_up_down_wts_distribution_witness :
  Rsum (pen_up_down_wts 5 (snd (_available_nodes toy_graph))) = 1.
Proof.
  apply (pen_up_down_wts_distribution toy_graph 5). discriminate.
Defined.

End SoftmaxExamples.

(** ** The control points [vanilla_to_motor] returns *)

Section MotorSplineFacts.
Import Rendering Part.

Variable get_stk_from_bspline : list point -> nat -> result (list point).

Hypothesis spline_evaluates :
  forall cpts neval, exists traj,
    get_stk_from_bspline cpts neval = Ok traj /\ length traj = neval.

Local Abbreviation v2m := (vanilla_to_motor get_stk_from_bspline).

Lemma set_sub_stroke_length (pts : list point) :
  forall d nsub i c, length (set_sub_stroke d nsub i c pts) = length d.
Proof.
  induction pts as [|p pts IH]; intros d nsub i c; [reflexivity|].
  cbn [set_sub_stroke]. now rewrite IH, !set_nth_length.
Qed.

(** Writing sub-stroke [i] from control point [c] on leaves the entries
    before [(c, 0, i)] and the entries of the other sub-strokes alone. *)
Lemma set_sub_stroke_elsewhere (pts : list point) :
  forall d nsub i c m,
    (i < nsub)%nat ->
    (m < (c * 2 + 0) * nsub + i)%nat \/ (m mod nsub <> i)%nat ->
    nth m (set_sub_stroke d nsub i c pts) 0 = nth m d 0.
Proof.
  induction pts as [|p pts IH]; intros d nsub i c m Hi Hm; [reflexivity|].
  cbn [set_sub_stroke]. rewrite IH.
  - rewrite !nth_set_nth_other; [reflexivity| |].
    + intros E. destruct Hm as [Hm|Hm]; [nia|]. apply Hm. subst m.
      rewrite Nat.add_comm, Nat.Div0.mod_add. now apply Nat.mod_small.
    + intros E. destruct Hm as [Hm|Hm]; [nia|]. apply Hm. subst m.
      rewrite Nat.add_comm, Nat.Div0.mod_add. now apply Nat.mod_small.
  - exact Hi.
  - destruct Hm as [Hm|Hm]; [left; nia | now right].
Qed.

Lemma set_sub_stroke_written (pts : list point) :
  forall d nsub i c k,
    (i < nsub)%nat -> ((c + length pts) * 2 * nsub <= length d)%nat ->
    (k < length pts)%nat ->
    nth (((c + k) * 2 + 0) * nsub + i) (set_sub_stroke d nsub i c pts) 0
    = fst (nth k pts (0, 0))
    /\ nth (((c + k) * 2 + 1) * nsub + i) (set_sub_stroke d nsub i c pts) 0
       = snd (nth k pts (0, 0)).
Proof.
  induction pts as [|p pts IH]; intros d nsub i c k Hi Hd Hk;
    [simpl in Hk; lia|].
  cbn [length] in Hd, Hk. cbn [set_sub_stroke]. destruct k as [|k].
  - replace (c + 0)%nat with c by lia. cbn [nth].
    rewrite !set_sub_stroke_elsewhere by (try assumption; left; nia).
    split.
    + rewrite nth_set_nth_other by nia.
      apply nth_set_nth_same. nia.
    + apply nth_set_nth_same. rewrite set_nth_length. nia.
  - replace (c + S k)%nat with (S c + k)%nat by lia. cbn [nth].
    apply IH; [assumption | rewrite !set_nth_length; nia | lia].
Qed.

Lemma map_nth_seq (pts : list point) :
  map (fun c => nth c pts (0, 0)) (seq 0 (length pts)) = pts.
Proof.
  induction pts as [|p pts IH]; [reflexivity|].
  cbn [length seq map nth]. f_equal.
  rewrite <- seq_shift, map_map. exact IH.
Qed.

(** Reading back the sub-stroke that was written, and the others. *)
Lemma sub_stroke_set_sub_stroke (sh sh' : list nat) (d : list R)
  (ncpt nsub i j : nat) (pts : list point) :
  (i < nsub)%nat -> (j < nsub)%nat ->
  length pts = ncpt -> length d = (ncpt * 2 * nsub)%nat ->
  sub_stroke (mkTensor sh' (set_sub_stroke d nsub i 0 pts)) ncpt nsub j
  = if Nat.eqb j i then pts else sub_stroke (mkTensor sh d) ncpt nsub j.
Proof.
  intros Hi Hj Hp Hd. unfold sub_stroke. cbn [data].
  destruct (Nat.eqb_spec j i) as [->|Hne].
  - transitivity (map (fun c => nth c pts (0, 0)) (seq 0 ncpt));
      [|subst ncpt; apply map_nth_seq].
    apply map_ext_in. intros c Hc. apply in_seq in Hc.
    destruct (set_sub_stroke_written pts d nsub i 0 c Hi) as [E0 E1];
      [cbn [Nat.add]; lia | lia|].
    cbn [Nat.add] in E0, E1. rewrite E0, E1.
    now destruct (nth c pts (0, 0)).
  - apply map_ext. intros c.
    rewrite !set_sub_stroke_elsewhere; try assumption; try reflexivity;
      right; rewrite Nat.add_comm, Nat.Div0.mod_add, Nat.mod_small; lia.
Qed.

Lemma motor_step_spline shapes invscales ncpt nsub neval i motor ms prev :
  (i < nsub)%nat -> length motor = nsub ->
  (i < length (data invscales))%nat ->
  length (data ms) = (ncpt * 2 * nsub)%nat -> (1 <= neval)%nat ->
  exists motor' ms' prev',
    motor_step get_stk_from_bspline shapes invscales ncpt nsub neval i
      (motor, ms, prev) = Ok (motor', ms', prev')
    /\ length motor' = nsub
    /\ length (data ms') = (ncpt * 2 * nsub)%nat
    /\ moved_together get_stk_from_bspline shapes invscales ncpt nsub neval
         motor' ms' i
    /\ (forall j, j <> i -> (j < nsub)%nat ->
          nth j motor' [] = nth j motor []
          /\ sub_stroke ms' ncpt nsub j = sub_stroke ms ncpt nsub j).
Proof.
  intros Hi Hm Hinv Hd Hn. unfold motor_step, get_item.
  destruct (nth_error (data invscales) i) as [s|] eqn:Es;
    [|apply nth_error_None in Es; lia].
  cbn [bind].
  set (scaled := map (pscale s) (sub_stroke shapes ncpt nsub i)).
  destruct (spline_evaluates scaled neval) as (traj & Et & Lt).
  rewrite Et. cbn [bind].
  destruct traj as [|t0 traj]; [simpl in Lt; lia|].
  cbn [first_point bind].
  set (offset := psub t0 prev).
  set (shifted := map (fun p => psub p offset) (t0 :: traj)).
  assert (Ls : length shifted = neval)
    by (unfold shifted; now rewrite length_map).
  unfold set_row. rewrite Ls, Nat.eqb_refl. cbn [bind].
  rewrite nth_set_nth_same by lia.
  destruct (last_point_nonempty shifted) as (q & Eq).
  { unfold shifted; simpl; discriminate. }
  rewrite Eq. cbn [bind].
  do 3 eexists. split; [reflexivity|].
  assert (Lsc : length (map (fun p => psub p offset) scaled) = ncpt).
  { unfold scaled, sub_stroke. now rewrite !length_map, length_seq. }
  split; [now rewrite set_nth_length|].
  split; [cbn [data]; now rewrite set_sub_stroke_length|].
  split.
  - exists s, (t0 :: traj), offset.
    split; [exact Es|]. split; [exact Et|].
    split; [now rewrite nth_set_nth_same by lia|].
    rewrite (sub_stroke_set_sub_stroke (shape ms)) by assumption.
    now rewrite Nat.eqb_refl.
  - intros j Hj Hjn. split; [apply nth_set_nth_other; congruence|].
    rewrite (sub_stroke_set_sub_stroke (shape ms)) by assumption.
    replace (Nat.eqb j i) with false
      by (symmetry; apply Nat.eqb_neq; assumption).
    now destruct ms.
Qed.

Lemma moved_together_ext shapes invscales ncpt nsub neval m1 ms1 m2 ms2 i :
  nth i m2 [] = nth i m1 [] ->
  sub_stroke ms2 ncpt nsub i = sub_stroke ms1 ncpt nsub i ->
  moved_together get_stk_from_bspline shapes invscales ncpt nsub neval
    m1 ms1 i ->
  moved_together get_stk_from_bspline shapes invscales ncpt nsub neval
    m2 ms2 i.
Proof.
  intros Hm Hs (s & traj & offset & E1 & E2 & E3 & E4).
  exists s, traj, offset. rewrite Hm, Hs. auto.
Qed.

Lemma motor_loop_spline shapes invscales ncpt nsub neval n :
  (1 <= neval)%nat ->
  forall k motor ms prev,
    (k + n <= nsub)%nat -> length motor = nsub ->
    (nsub <= length (data invscales))%nat ->
    length (data ms) = (ncpt * 2 * nsub)%nat ->
    exists motor' ms' prev',
      motor_loop get_stk_from_bspline shapes invscales ncpt nsub neval
        (seq k n) (motor, ms, prev) = Ok (motor', ms', prev')
      /\ (forall j, (k <= j < k + n)%nat ->
            moved_together get_stk_from_bspline shapes invscales ncpt nsub
              neval motor' ms' j)
      /\ (forall j, (j < k \/ k + n <= j)%nat -> (j < nsub)%nat ->
            nth j motor' [] = nth j motor []
            /\ sub_stroke ms' ncpt nsub j = sub_stroke ms ncpt nsub j).
Proof.
  intros Hn. induction n as [|n IH]; intros k motor ms prev Hk Hm Hi Hd.
  - exists motor, ms, prev. cbn [seq motor_loop].
    split; [reflexivity|]. split; [intros; lia | auto].
  - cbn [seq motor_loop].
    destruct (motor_step_spline shapes invscales ncpt nsub neval k motor ms
                prev) as (m1 & ms1 & p1 & E1 & L1 & D1 & T1 & O1);
      try assumption; try lia.
    rewrite E1. cbn [bind].
    destruct (IH (S k) m1 ms1 p1) as (m2 & ms2 & p2 & E2 & T2 & O2);
      try assumption; try lia.
    rewrite E2. exists m2, ms2, p2. split; [reflexivity|]. split.
    + intros j Hj. destruct (Nat.eq_dec j k) as [->|Hjk].
      * destruct (O2 k) as [A B]; [lia | lia|].
        exact (moved_together_ext _ _ _ _ _ _ _ _ _ _ A B T1).
      * apply T2. lia.
    + intros j Hj Hjn. destruct (O2 j) as [A B]; [lia | assumption|].
      destruct (O1 j) as [A' B']; [lia | assumption|].
      split; congruence.
Qed.

(** X23: on arguments of the documented shapes, every sub-stroke [i] of
    the result is moved as a whole: there is one offset such that the
    trajectory [motor[i]] is the spline of the scaled control points
    [invscales[i] * shapes[:,:,i]] minus that offset, and the control
    points [motor_spline[:,:,i]] are those scaled control points minus the
    same offset. *)
Theorem motor_spline_moves_with_motor
  (shapes invscales first_pos : tensor) (neval ncpt nsub : nat) (px py : R) :
  shape shapes = [ncpt; 2%nat; nsub] ->
  length (data shapes) = (ncpt * 2 * nsub)%nat ->
  shape invscales = [nsub] -> length (data invscales) = nsub ->
  shape first_pos = [2%nat] -> data first_pos = [px; py] ->
  (1 <= neval)%nat ->
  exists motor motor_spline,
    v2m (Some shapes) (Some invscales) (Some first_pos) neval
    = Ok (motor, motor_spline)
    /\ forall i, (i < nsub)%nat ->
         exists s traj offset,
           nth_error (data invscales) i = Some s
           /\ get_stk_from_bspline
                (map (pscale s) (sub_stroke shapes ncpt nsub i)) neval
              = Ok traj
           /\ nth i motor [] = map (fun p => psub p offset) traj
           /\ sub_stroke motor_spline ncpt nsub i
              = map (fun p => psub p offset)
                  (map (pscale s) (sub_stroke shapes ncpt nsub i)).
Proof.
  intros Hs Ld Hi Li Hp Dp Hn. unfold vanilla_to_motor.
  cbn [not_none bind]. rewrite Hs, Hi, Hp, Dp, shape_eqb_refl.
  cbn [length nth Nat.eqb assert bind].
  destruct (motor_loop_spline shapes invscales ncpt nsub neval nsub Hn 0
              (repeat (repeat (0, 0) neval) nsub)
              (mkTensor [ncpt; 2%nat; nsub] (repeat 0 (length (data shapes))))
              (px, py))
    as (m & ms & pv & E & T & _);
    try (cbn [data]; rewrite ?repeat_length; lia).
  rewrite E. cbn [bind]. exists m, ms. split; [reflexivity|].
  intros i Hlt. apply T. lia.
Qed.

End MotorSplineFacts.

Section MotorSplineExamples.
Import Rendering Part.

Lemma motor_spline_moves_with_motor_witness :
  exists motor motor_spline,
    vanilla_to_motor polyline_spline (Some shapes_token)
      (Some invscales_token) (Some position_token) 200
    = Ok (motor, motor_spline)
    /\ forall i, (i < 3)%nat ->
         exists s traj offset,
           nth_error (data invscales_token) i = Some s
           /\ polyline_spline
                (map (pscale s) (sub_stroke shapes_token 5 3 i)) 200
              = Ok traj
           /\ nth i motor [] = map (fun p => psub p offset) traj
           /\ sub_stroke motor_spline 5 3 i
              = map (fun p => psub p offset)
                  (map (pscale s) (sub_stroke shapes_token 5 3 i)).
Proof.
  apply (motor_spline_moves_with_motor polyline_spline
           polyline_spline_evaluates shapes_token invscales_token
           position_token 200 5 3 (7425 / 100) (-1328 / 100));
    first [reflexivity | lia].
Defined.

End MotorSplineExamples.
